(** * Worldle: the geodesic helpers and the round state machine

    A shallow embedding of the game logic of the Worldle pages
    ([src/app/page.tsx], [src/unnamed/part_000]) and of the helpers of
    [lib/utils] that [src/app/page_overlay.tsx] carries at its end
    ([getDistanceFromLatLonInKm], [deg2rad], [getDirection]).

    Reading of the JavaScript values:
    - in the state machines and in [Utils], a [number] that holds a
      coordinate, an angle or a distance is a real number, and [Math.sin],
      [Math.cos], [Math.sqrt], [Math.PI] are the exact functions and
      constant; [Math.atan2] follows the case table of ECMAScript;
    - where rounding decides, a [number] is an IEEE 754 binary64 value:
      [Double] is [getDistanceFromLatLonInKm] in doubles, and
      [calculateAverageScore] divides in doubles;
    - a [number] that holds a count, an index or a time stamp is an integer;
    - a string is a [string]; [undefined] and [null] are [None];
    - React state is a record, and an event handler is a function from the
      state of the render it was created in to the state of the next render;
      the effect that depends on [inputValue] runs after the handler.  The
      globe (points, arcs, camera) and the list of suggestions with its
      selected index are rendering state and are left out. *)

From Stdlib Require Import Reals Lra Lia ZArith List String Ascii Bool QArith Qround.
From Stdlib Require Import DecimalString.
From Stdlib Require Lqa.
From Stdlib Require Floats Uint63.
Import ListNotations.

Local Open Scope R_scope.

(** ** [lib/utils]: numbers *)

Module Utils.

(** [Math.floor] of a real, as an integer. *)
Definition Math_floor (x : R) : Z := Int_part x.

(** [Math.round]: the integer closest to [x], ties towards +infinity. *)
Definition Math_round (x : R) : Z := Math_floor (x + / 2).

(** [Math.trunc], used by the remainder operator. *)
Definition Math_trunc (x : R) : Z :=
  if Rle_dec 0 x then Math_floor x else (- Math_floor (- x))%Z.

(** [a % n] on numbers: the remainder has the sign of the dividend. *)
Definition js_rem (a n : R) : R := a - n * IZR (Math_trunc (a / n)).

(** [Math.atan2 y x], by the cases of ECMAScript (the zeros are unsigned
    here, so [atan2 0 0] is the value at [+0], [+0]). *)
Definition Math_atan2 (y x : R) : R :=
  if Rlt_dec 0 x then atan (y / x)
  else if Rlt_dec x 0 then
         if Rle_dec 0 y then atan (y / x) + PI else atan (y / x) - PI
  else if Rlt_dec 0 y then PI / 2
  else if Rlt_dec y 0 then - (PI / 2)
  else 0.

Definition deg2rad (deg : R) : R := deg * (PI / 180).

Definition getDistanceFromLatLonInKm (lat1 lon1 lat2 lon2 : R) : R :=
  let R := 6371 in
  let dLat := deg2rad (lat2 - lat1) in
  let dLon := deg2rad (lon2 - lon1) in
  let a :=
    sin (dLat / 2) * sin (dLat / 2) +
    cos (deg2rad lat1) * cos (deg2rad lat2) *
    sin (dLon / 2) * sin (dLon / 2) in
  let c := 2 * Math_atan2 (sqrt a) (sqrt (1 - a)) in
  let d := R * c in
  d.

(** The term [a] of [getDistanceFromLatLonInKm], as a function of its
    arguments. *)
Definition hav (lat1 lon1 lat2 lon2 : R) : R :=
  sin (deg2rad (lat2 - lat1) / 2) * sin (deg2rad (lat2 - lat1) / 2) +
  cos (deg2rad lat1) * cos (deg2rad lat2) *
  sin (deg2rad (lon2 - lon1) / 2) * sin (deg2rad (lon2 - lon1) / 2).

(** An array read [xs[i]] at an integer index: [undefined] out of range. *)
Definition array_get {A : Type} (xs : list A) (i : Z) : option A :=
  if (i <? 0)%Z then None else nth_error xs (Z.to_nat i).

Definition compass : list string :=
  ["N"; "NE"; "E"; "SE"; "S"; "SW"; "W"; "NW"; "N"]%string.

Definition getDirection (lat1 lon1 lat2 lon2 : R) : option string :=
  let dLon := deg2rad (lon2 - lon1) in
  let y := sin dLon * cos (deg2rad lat2) in
  let x := cos (deg2rad lat1) * sin (deg2rad lat2)
           - sin (deg2rad lat1) * cos (deg2rad lat2) * cos dLon in
  let brng := Math_atan2 y x in
  let deg := (brng * 180) / PI in
  let index := Math_round (js_rem (deg + 360) 360 / 45) in
  array_get compass index.

(** The eight labels of the compass rose. *)
Definition labels : list string :=
  ["N"; "NE"; "E"; "SE"; "S"; "SW"; "W"; "NW"]%string.

(** Degrees that are a position on the globe. *)
Definition valid_lat (lat : R) : Prop := -90 <= lat <= 90.
Definition valid_lon (lon : R) : Prop := -180 <= lon <= 180.

(** Two coordinate pairs that name one point of the sphere: the same
    latitude, and the same meridian, or the two names of the antimeridian,
    or a pole (where the longitude is immaterial). *)
Definition same_point (lat1 lon1 lat2 lon2 : R) : Prop :=
  lat1 = lat2 /\
  (lon1 = lon2 \/ lon2 - lon1 = 360 \/ lon2 - lon1 = -360 \/ lat1 = 90 \/ lat1 = -90).

End Utils.

(** ** [lib/utils]: the distance in double precision

    [getDistanceFromLatLonInKm] once more, with a [number] read as what it
    is, an IEEE 754 binary64 value.  [+], [-], [*], [/] and [Math.sqrt]
    are the correctly rounded operations of the standard; [Math.PI] is the
    double closest to pi.  ECMAScript leaves [Math.sin], [Math.cos] and
    [Math.atan2] to the engine ("implementation-approximated"), so they are
    a parameter here: the [Engine]. *)

Module Double.
Import Floats.

Definition PI : float := 0x1.921fb54442d18p+1%float.

(** The three functions the engine supplies. *)
Record Engine : Type := mkEngine {
  sin : float -> float;
  cos : float -> float;
  atan2 : float -> float -> float
}.

(** Degrees that are a position on the globe. *)
Definition valid_lat (lat : float) : bool := ((-90 <=? lat) && (lat <=? 90))%float.
Definition valid_lon (lon : float) : bool := ((-180 <=? lon) && (lon <=? 180))%float.

(** What is assumed of an engine.  [Math.sin(+0)] is [+0] and
    [Math.atan2(+0, 1)] is [+0], and [Math.atan2] of a [NaN] is [NaN] (the
    special cases of ECMAScript); the sine is odd; the cosine of a finite
    number is in [-1, 1]; and [Math.atan2] of two numbers that are not
    negative is in [0, Math.PI / 2]. *)
Definition conforming (M : Engine) : Prop :=
  sin M 0 = 0%float /\
  (forall x, sin M (- x) = (- sin M x)%float) /\
  (forall x, is_finite x = true -> (abs (cos M x) <=? 1)%float = true) /\
  atan2 M 0 1 = 0%float /\
  (forall y x, is_nan y || is_nan x = true -> is_nan (atan2 M y x) = true) /\
  (forall y x, (0 <=? y)%float = true -> (0 <=? x)%float = true ->
               (0 <=? atan2 M y x)%float = true /\
               (atan2 M y x <=? PI / 2)%float = true).

Section Distance.

Variable M : Engine.

Definition deg2rad (deg : float) : float := (deg * (PI / 180))%float.

Definition getDistanceFromLatLonInKm (lat1 lon1 lat2 lon2 : float) : float :=
  let R := 6371%float in
  let dLat := deg2rad (lat2 - lat1) in
  let dLon := deg2rad (lon2 - lon1) in
  let a :=
    (sin M (dLat / 2) * sin M (dLat / 2) +
     cos M (deg2rad lat1) * cos M (deg2rad lat2) *
     sin M (dLon / 2) * sin M (dLon / 2))%float in
  let c := (2 * atan2 M (sqrt a) (sqrt (1 - a)))%float in
  let d := (R * c)%float in
  d.

End Distance.

(** An engine for the examples.  Its sine and cosine return the correctly
    rounded values at the arguments the examples reach: the sine of
    0x1.acee9f37bebd6p-3 (12 degrees), of 0x1.921fb54442d18p+0 (90
    degrees) and of a number so small that its sine rounds to itself, the
    cosine of 0 and of 12 degrees.  Elsewhere it is crude ([x] for the
    sine, 1 for the cosine, [y] capped at [PI / 2] for [atan2]) but
    [conforming]. *)
Definition rounded : Engine :=
  {| sin := fun x =>
       let pos := fun x : float =>
         if (x =? 0x1.acee9f37bebd6p-3)%float then 0x1.a9cd9ac4258f6p-3%float
         else if (x =? 0x1.921fb54442d18p+0)%float then 1%float
         else x in
       if (x <? 0)%float then (- pos (- x))%float else pos x;
     cos := fun x =>
       if is_nan x || is_infinity x then nan
       else if (abs x =? 0x1.acee9f37bebd6p-3)%float then 0x1.f4cfc327a0080p-1%float
       else 1%float;
     atan2 := fun y x =>
       if is_nan y || is_nan x then nan
       else if (y <=? PI / 2)%float then y else (PI / 2)%float |}.

End Double.

(** Ranges of binary64 values, on the representation [spec_float] of the
    standard library. *)
Module FloatRange.
Import Floats.
Local Open Scope Z_scope.

(** A value in the finite range: zero or finite. *)
Definition SFfinite (x : spec_float) : Prop :=
  match x with S754_zero _ | S754_finite _ _ _ => True | _ => False end.

(** The magnitude of a value is below [2 ^ k]. *)
Definition SFbelow (k : Z) (x : spec_float) : Prop :=
  match x with
  | S754_zero _ => True
  | S754_finite _ m e => Zdigits2 (Z.pos m) + e <= k
  | _ => False
  end.

(** Not a number, or at least zero: [-0] counts as zero. *)
Definition SFnan_or_ge0 (x : spec_float) : Prop :=
  match x with
  | S754_nan | S754_zero _ => True
  | S754_infinity s | S754_finite s _ _ => s = false
  end.

(** Zero, or a positive finite value that is at most the one of mantissa
    [mB] and exponent [eB]. *)
Definition SFin (mB : positive) (eB : Z) (x : spec_float) : Prop :=
  match x with
  | S754_zero _ => True
  | S754_finite false m e => e < eB \/ (e = eB /\ Z.pos m <= Z.pos mB)
  | _ => False
  end.

End FloatRange.

(** ** Counts as numbers

    A count is an integer, and where it is divided it is the double that
    holds it. *)
Module Number.
Import Floats.

(** The number an integer from 0 to 2 ^ 63 - 1 is: itself below 2 ^ 53,
    the closest double above. *)
Definition of_Z (z : Z) : float := of_uint63 (Uint63.of_Z z).
Definition of_nat (n : nat) : float := of_Z (Z.of_nat n).

(** The exact value of a number that is finite. *)
Definition value (x : float) : option Q :=
  match Prim2SF x with
  | S754_zero _ => Some 0%Q
  | S754_finite s m e =>
    let v :=
      match e with
      | Z0 => inject_Z (Z.pos m)
      | Z.pos p => inject_Z (Z.pos m * 2 ^ Z.pos p)
      | Z.neg p => Qmake (Z.pos m) (2 ^ p)
      end in
    Some (if s then (- v)%Q else v)
  | _ => None
  end.

End Number.

(** The check behind the average of a session: for 1 to 10 won rounds of
    at most 1000 guesses each, the quotient in doubles and the exact
    quotient round to the same number of tenths. *)
Module ScoreCheck.
Import Floats.

(** The value of a number that is not negative, times 10, rounded to the
    nearest integer, the larger one at a tie. *)
Definition tenths (x : float) : option Z :=
  match Prim2SF x with
  | S754_zero _ => Some 0%Z
  | S754_finite false m e =>
    match e with
    | Z0 => Some (10 * Z.pos m)%Z
    | Z.pos p => Some (10 * (Z.pos m * 2 ^ Z.pos p))%Z
    | Z.neg p =>
      Some (Z.shiftr (20 * Z.pos m + Z.shiftl 1 (Z.pos p)) (Z.pos p + 1))
    end
  | _ => None
  end.

(** [S / W] in doubles and [S / W] exactly have the same tenths. *)
Definition agree (W S : Z) : bool :=
  match tenths (Number.of_Z S / Number.of_Z W)%float with
  | Some n => Z.eqb n ((20 * S + W) / (2 * W))
  | None => false
  end.

(** [f] holds of the [n] integers from [z] on. *)
Fixpoint all_from (f : Z -> bool) (n : nat) (z : Z) : bool :=
  match n with
  | O => true
  | S n' => f z && all_from f n' (z + 1)
  end.

Definition agree_all : bool :=
  all_from (fun W => all_from (agree W) (Z.to_nat (1000 * W + 1)) 0%Z) 10 1%Z.

End ScoreCheck.

(** ** [lib/countries]: the record of the table *)

(** The table itself ([countries]) is not part of these sources: the pages
    only read [name], [code], [latitude] and [longitude] of its entries.  It
    is a parameter of the game below. *)
Module Country.
Record t : Type := mk { name : string; code : string; latitude : R; longitude : R }.
End Country.

(** ** Feedback by distance (the same cascade in every page) *)

Module Feedback.

Definition CORRECT : string := "🎯 CORRECT!".
Definition HOT : string := "🔥 HOT".
Definition WARM : string := "🌡️ WARM".
Definition COOL : string := "❄️ COOL".
Definition COLD : string := "🧊 COLD".

Definition getHotColdText (distance : R) : string :=
  if Req_dec_T distance 0 then CORRECT
  else if Rlt_dec distance 1000 then HOT
  else if Rlt_dec distance 3000 then WARM
  else if Rlt_dec distance 8000 then COOL
  else COLD.

Definition getColor (distance : R) : string :=
  if Req_dec_T distance 0 then "from-emerald-500 to-green-600"
  else if Rlt_dec distance 1000 then "from-red-500 to-red-600"
  else if Rlt_dec distance 3000 then "from-orange-500 to-orange-600"
  else if Rlt_dec distance 8000 then "from-yellow-400 to-yellow-500"
  else "from-gray-400 to-gray-500".

End Feedback.

(** The two messages [submitGuess] reports through [setError]. *)
Definition notFoundMessage : string := "Country not found! Please select from the list.".
Definition duplicateMessage : string := "You already guessed this country!".

(** [selectedCountry || countries.find((c) => c.name.toLowerCase() ===
    inputValue.toLowerCase())], the country a submission stands for: the
    suggestion that was picked, or else the first entry of the table whose
    name is the typed text up to letter case. *)
Definition candidate (toLowerCase : string -> string) (countries : list Country.t)
    (selectedCountry : option Country.t) (inputValue : string) : option Country.t :=
  match selectedCountry with
  | Some c => Some c
  | None =>
    find (fun c => String.eqb (toLowerCase (Country.name c)) (toLowerCase inputValue))
         countries
  end.

(** [toLowerCase] on strings of ASCII characters, for the examples. *)
Fixpoint ascii_toLowerCase (s : string) : string :=
  match s with
  | EmptyString => EmptyString
  | String c rest =>
    let n := nat_of_ascii c in
    String (if ((65 <=? n) && (n <=? 90))%nat then ascii_of_nat (n + 32) else c)
           (ascii_toLowerCase rest)
  end.

(** ** [src/unnamed/part_000]: the single-round page *)

Module Part000.

Module Guess.
Record t : Type := mk { country : Country.t; distance : R; direction : option string }.
End Guess.

(** The [useState] cells of [Home] that the handlers below read or write. *)
Record State : Type := mkState {
  targetCountry : option Country.t;
  inputValue : string;
  guesses : list Guess.t;
  gameOver : bool;
  win : bool;
  showSuggestions : bool;
  error : string
}.

Definition initial : State :=
  {| targetCountry := None; inputValue := ""; guesses := []; gameOver := false;
     win := false; showSuggestions := false; error := "" |}.

(** The codes of the countries guessed so far, latest first. *)
Definition guessedCodes (s : State) : list string :=
  map (fun g => Country.code (Guess.country g)) (guesses s).

(** A game with target [target] that is not over. *)
Definition inProgress (s : State) (target : Country.t) : Prop :=
  targetCountry s = Some target /\ gameOver s = false.

(** What every state of the page satisfies: the codes of the guess list are
    pairwise distinct, and the game is over exactly when it is won. *)
Definition invariant (s : State) : Prop :=
  NoDup (guessedCodes s) /\ gameOver s = win s.

Section Game.

(** [String.prototype.toLowerCase], and the imported table. *)
Variable toLowerCase : string -> string.
Variable countries : list Country.t.

(** [setInputValue(value)], the input's [onChange]. *)
Definition setInputValue (value : string) (s : State) : State :=
  {| inputValue := value;
     targetCountry := targetCountry s; guesses := guesses s;
     gameOver := gameOver s; win := win s;
     showSuggestions := showSuggestions s; error := error s |}.

(** The effect with dependency [inputValue]: after a handler that changed
    the input's value ([before] is the old one), the suggestions show when
    the input is not empty and hide when it is. *)
Definition inputEffect (before : string) (s : State) : State :=
  if String.eqb before (inputValue s) then s
  else
    {| showSuggestions := negb (String.length (inputValue s) =? 0)%nat;
       targetCountry := targetCountry s; inputValue := inputValue s;
       guesses := guesses s; gameOver := gameOver s; win := win s;
       error := error s |}.

(** [draw] is the value of [Math.floor(Math.random() * countries.length)]. *)
Definition startNewGame (draw : nat) (s : State) : State :=
  let random := nth_error countries draw in
  {| targetCountry := random; guesses := []; gameOver := false; win := false;
     inputValue := ""; error := ""; showSuggestions := showSuggestions s |}.

Definition submitGuess (selectedCountry : option Country.t) (s : State) : State :=
  if gameOver s then s else
  match targetCountry s with
  | None => s
  | Some target =>
    let guessedCountry :=
      candidate toLowerCase countries selectedCountry (inputValue s) in
    match guessedCountry with
    | None =>
      {| error := notFoundMessage;
         targetCountry := targetCountry s; inputValue := inputValue s;
         guesses := guesses s; gameOver := gameOver s; win := win s;
         showSuggestions := showSuggestions s |}
    | Some guessedCountry =>
      if existsb (fun g => String.eqb (Country.code (Guess.country g))
                                      (Country.code guessedCountry)) (guesses s)
      then
        {| error := duplicateMessage;
           targetCountry := targetCountry s; inputValue := inputValue s;
           guesses := guesses s; gameOver := gameOver s; win := win s;
           showSuggestions := showSuggestions s |}
      else
        let distance := Utils.getDistanceFromLatLonInKm
                          (Country.latitude guessedCountry)
                          (Country.longitude guessedCountry)
                          (Country.latitude target)
                          (Country.longitude target) in
        let direction := Utils.getDirection
                          (Country.latitude guessedCountry)
                          (Country.longitude guessedCountry)
                          (Country.latitude target)
                          (Country.longitude target) in
        let newGuess := {| Guess.country := guessedCountry;
                           Guess.distance := distance;
                           Guess.direction := direction |} in
        let won := String.eqb (Country.code guessedCountry) (Country.code target) in
        {| guesses := newGuess :: guesses s; inputValue := "";
           showSuggestions := false; error := "";
           win := if won then true else win s;
           gameOver := if won then true else gameOver s;
           targetCountry := targetCountry s |}
    end
  end.

(** What the player and the timers can do to the page. *)
Inductive Event : Type :=
| StartNewGame (draw : nat)                  (* on mount, and "play again" *)
| Submit (selectedCountry : option Country.t) (* the form, a suggestion, Enter *)
| Change (value : string)                    (* typing in the input *)
| Focus                                      (* the input gets the focus *)
| Escape                                     (* closes the suggestions *)
| ErrorTimeout.                              (* [setTimeout(() => setError(""))] *)

(** The handler an event runs. *)
Definition handler (e : Event) (s : State) : State :=
  match e with
  | StartNewGame draw => startNewGame draw s
  | Submit sel => submitGuess sel s
  | Change v => setInputValue v s
  | Focus =>
    {| showSuggestions :=
         if (String.length (inputValue s) =? 0)%nat then showSuggestions s else true;
       targetCountry := targetCountry s; inputValue := inputValue s;
       guesses := guesses s; gameOver := gameOver s; win := win s;
       error := error s |}
  | Escape =>
    {| showSuggestions := false;
       targetCountry := targetCountry s; inputValue := inputValue s;
       guesses := guesses s; gameOver := gameOver s; win := win s;
       error := error s |}
  | ErrorTimeout =>
    {| error := "";
       targetCountry := targetCountry s; inputValue := inputValue s;
       guesses := guesses s; gameOver := gameOver s; win := win s;
       showSuggestions := showSuggestions s |}
  end.

(** One step of the page: the handler, then the effect. *)
Definition handle (e : Event) (s : State) : State :=
  inputEffect (inputValue s) (handler e s).

Inductive reachable : State -> Prop :=
| reach_initial : reachable initial
| reach_step e s : reachable s -> reachable (handle e s).

End Game.

End Part000.

(** ** [src/app/page.tsx]: practice sessions and the daily round *)

Module Page.

Module Guess.
Record t : Type := mk { country : Country.t; distance : R }.
End Guess.

Module RoundResult.
Record t : Type := mk { country : Country.t; guesses : nat; won : bool }.
End RoundResult.

Inductive GameMode : Type := practice | daily.
Inductive GameScreen : Type := home | setup | playing | results.

(** The [useState] cells of [Home] that the handlers below read or write;
    a [GameMode] of [null] is [None]. *)
Record State : Type := mkState {
  gameScreen : GameScreen;
  gameMode : option GameMode;
  totalRounds : Z;
  currentRound : Z;
  roundResults : list RoundResult.t;
  targetCountry : option Country.t;
  inputValue : string;
  guesses : list Guess.t;
  roundOver : bool;
  win : bool;
  showSuggestions : bool;
  error : string
}.

Definition initial : State :=
  {| gameScreen := home; gameMode := None; totalRounds := 5; currentRound := 1;
     roundResults := []; targetCountry := None; inputValue := ""; guesses := [];
     roundOver := false; win := false; showSuggestions := false; error := "" |}.

(** The codes of the countries guessed so far in the round, latest first. *)
Definition guessedCodes (s : State) : list string :=
  map (fun g => Country.code (Guess.country g)) (guesses s).

(** A round with target [target] that is not over. *)
Definition inProgress (s : State) (target : Country.t) : Prop :=
  targetCountry s = Some target /\ roundOver s = false.

(** What every state of the page satisfies: the codes of the guess list are
    pairwise distinct, and only a round that is over is won. *)
Definition invariant (s : State) : Prop :=
  NoDup (guessedCodes s) /\ (win s = true -> roundOver s = true).

(** [a % n] on integers: [NaN] ([None]) when [n] is 0, and otherwise the
    remainder with the sign of the dividend. *)
Definition js_rem (a n : Z) : option Z :=
  if (n =? 0)%Z then None else Some (Z.rem a n).

(** [xs[i]] where [i] may be [NaN]. *)
Definition array_get {A : Type} (xs : list A) (i : option Z) : option A :=
  match i with
  | None => None
  | Some i => Utils.array_get xs i
  end.

(** The value a round summary's average is shown as: the number 0, or the
    text [toFixed] makes. *)
Inductive Score : Type :=
| ScoreNumber (x : Q)
| ScoreText (s : string).

(** The decimal digits of a natural number. *)
Definition digits (n : Z) : string := NilZero.string_of_uint (N.to_uint (Z.to_N n)).

(** [x.toFixed(1)] on the exact value [x] of a number below 1e21: the
    sign, then the integer [n] for which [n / 10] is closest to [x] (the
    larger one at a tie), written with one digit after the point. *)
Definition toFixed1 (x : Q) : string :=
  let sign := (if Qlt_le_dec x 0 then "-" else "")%string in
  let x := if Qlt_le_dec x 0 then (- x)%Q else x in
  let n := Qfloor (x * 10 + (1 # 2))%Q in
  (sign ++ digits (n / 10) ++ "." ++ digits (n mod 10))%string.

(** [x.toFixed(1)] of a number: the text of its exact value when it is
    finite (and below 1e21). *)
Definition Number_toFixed1 (x : PrimFloat.float) : string :=
  match Number.value x with
  | Some q => toFixed1 q
  | None =>
    if PrimFloat.is_nan x then "NaN"
    else if PrimFloat.ltb x PrimFloat.zero then "-Infinity" else "Infinity"
  end.

(** The sum and the quotient are those of doubles. *)
Definition calculateAverageScore (roundResults : list RoundResult.t) : Score :=
  let wonRounds := filter RoundResult.won roundResults in
  if (List.length wonRounds =? 0)%nat then ScoreNumber 0
  else
    let totalGuesses :=
      fold_left
        (fun sum r => PrimFloat.add sum (Number.of_nat (RoundResult.guesses r)))
        wonRounds PrimFloat.zero in
    ScoreText (Number_toFixed1
                 (PrimFloat.div totalGuesses
                    (Number.of_nat (List.length wonRounds)))).

(** The [wonRounds] of the results screen. *)
Definition wonRounds (roundResults : list RoundResult.t) : nat :=
  List.length (filter RoundResult.won roundResults).

Section Game.

Variable toLowerCase : string -> string.
Variable countries : list Country.t.

(** [setInputValue(value)], the input's [onChange]. *)
Definition setInputValue (value : string) (s : State) : State :=
  {| inputValue := value;
     gameScreen := gameScreen s; gameMode := gameMode s;
     totalRounds := totalRounds s; currentRound := currentRound s;
     roundResults := roundResults s; targetCountry := targetCountry s;
     guesses := guesses s; roundOver := roundOver s; win := win s;
     showSuggestions := showSuggestions s; error := error s |}.

(** The effect with dependency [inputValue]: after a handler that changed
    the input's value ([before] is the old one), the suggestions show when
    the input is not empty and hide when it is. *)
Definition inputEffect (before : string) (s : State) : State :=
  if String.eqb before (inputValue s) then s
  else
    {| showSuggestions := negb (String.length (inputValue s) =? 0)%nat;
       gameScreen := gameScreen s; gameMode := gameMode s;
       totalRounds := totalRounds s; currentRound := currentRound s;
       roundResults := roundResults s; targetCountry := targetCountry s;
       inputValue := inputValue s; guesses := guesses s;
       roundOver := roundOver s; win := win s; error := error s |}.

(** [today] is [new Date().getTime()], the milliseconds since the epoch. *)
Definition getTodaysCountry (today : Z) : option Country.t :=
  let daysSinceEpoch := (today / (1000 * 60 * 60 * 24))%Z in
  let index := js_rem daysSinceEpoch (Z.of_nat (List.length countries)) in
  array_get countries index.

(** The [do ... while] of [startNewRound]: each element of [draws] is one
    value of [Math.floor(Math.random() * countries.length)].  [None] when
    the draws run out before the loop ends, or when [random.code] is read
    off [undefined]. *)
Fixpoint pickRandom (target : option Country.t) (draws : list nat)
  : option (option Country.t) :=
  match draws with
  | [] => None
  | draw :: rest =>
    let random := nth_error countries draw in
    match target with
    | None => Some random
    | Some target' =>
      match random with
      | None => None
      | Some r =>
        if String.eqb (Country.code r) (Country.code target')
           && (1 <? List.length countries)%nat
        then pickRandom target rest
        else Some random
      end
    end
  end.

Definition startNewRound (mode : option GameMode) (today : Z) (draws : list nat)
    (s : State) : option State :=
  let currentMode := match mode with Some m => Some m | None => gameMode s end in
  let random :=
    match currentMode with
    | Some daily => Some (getTodaysCountry today)
    | _ => pickRandom (targetCountry s) draws
    end in
  match random with
  | None => None
  | Some random =>
    Some {| targetCountry := random; guesses := []; roundOver := false;
            win := false; inputValue := ""; error := "";
            gameScreen := gameScreen s; gameMode := gameMode s;
            totalRounds := totalRounds s; currentRound := currentRound s;
            roundResults := roundResults s;
            showSuggestions := showSuggestions s |}
  end.

Definition startGame (mode : option GameMode) (rounds : Z) (today : Z)
    (draws : list nat) (s : State) : option State :=
  match startNewRound mode today draws s with
  | None => None
  | Some s' =>
    Some {| gameMode := mode; totalRounds := rounds; currentRound := 1;
            roundResults := []; gameScreen := playing;
            targetCountry := targetCountry s'; guesses := guesses s';
            roundOver := roundOver s'; win := win s';
            inputValue := inputValue s'; error := error s';
            showSuggestions := showSuggestions s' |}
  end.

Definition submitGuess (selectedCountry : option Country.t) (s : State) : State :=
  if roundOver s then s else
  match targetCountry s with
  | None => s
  | Some target =>
    let guessedCountry :=
      candidate toLowerCase countries selectedCountry (inputValue s) in
    match guessedCountry with
    | None =>
      {| error := notFoundMessage;
         gameScreen := gameScreen s; gameMode := gameMode s;
         totalRounds := totalRounds s; currentRound := currentRound s;
         roundResults := roundResults s; targetCountry := targetCountry s;
         inputValue := inputValue s; guesses := guesses s;
         roundOver := roundOver s; win := win s;
         showSuggestions := showSuggestions s |}
    | Some guessedCountry =>
      if existsb (fun g => String.eqb (Country.code (Guess.country g))
                                      (Country.code guessedCountry)) (guesses s)
      then
        {| error := duplicateMessage;
           gameScreen := gameScreen s; gameMode := gameMode s;
           totalRounds := totalRounds s; currentRound := currentRound s;
           roundResults := roundResults s; targetCountry := targetCountry s;
           inputValue := inputValue s; guesses := guesses s;
           roundOver := roundOver s; win := win s;
           showSuggestions := showSuggestions s |}
      else
        let distance := Utils.getDistanceFromLatLonInKm
                          (Country.latitude guessedCountry)
                          (Country.longitude guessedCountry)
                          (Country.latitude target)
                          (Country.longitude target) in
        let newGuess := {| Guess.country := guessedCountry;
                           Guess.distance := distance |} in
        let updatedGuesses := newGuess :: guesses s in
        let won := String.eqb (Country.code guessedCountry) (Country.code target) in
        let result := {| RoundResult.country := target;
                         RoundResult.guesses := List.length updatedGuesses;
                         RoundResult.won := true |} in
        {| guesses := updatedGuesses; inputValue := "";
           showSuggestions := false; error := "";
           win := if won then true else win s;
           roundOver := if won then true else roundOver s;
           roundResults :=
             if won then roundResults s ++ [result] else roundResults s;
           gameScreen := gameScreen s; gameMode := gameMode s;
           totalRounds := totalRounds s; currentRound := currentRound s;
           targetCountry := targetCountry s |}
    end
  end.

Definition skipRound (s : State) : State :=
  match targetCountry s with
  | None => s
  | Some target =>
    if roundOver s then s else
    let result := {| RoundResult.country := target;
                     RoundResult.guesses := 0;
                     RoundResult.won := false |} in
    {| roundOver := true; roundResults := roundResults s ++ [result];
       gameScreen := gameScreen s; gameMode := gameMode s;
       totalRounds := totalRounds s; currentRound := currentRound s;
       targetCountry := targetCountry s; inputValue := inputValue s;
       guesses := guesses s; win := win s;
       showSuggestions := showSuggestions s; error := error s |}
  end.

Definition nextRound (today : Z) (draws : list nat) (s : State) : option State :=
  if (currentRound s <? totalRounds s)%Z then
    match startNewRound None today draws s with
    | None => None
    | Some s' =>
      Some {| currentRound := currentRound s + 1;
              gameScreen := gameScreen s'; gameMode := gameMode s';
              totalRounds := totalRounds s'; roundResults := roundResults s';
              targetCountry := targetCountry s'; inputValue := inputValue s';
              guesses := guesses s'; roundOver := roundOver s'; win := win s';
              showSuggestions := showSuggestions s'; error := error s' |}
    end
  else
    Some {| gameScreen := results;
            gameMode := gameMode s; totalRounds := totalRounds s;
            currentRound := currentRound s; roundResults := roundResults s;
            targetCountry := targetCountry s; inputValue := inputValue s;
            guesses := guesses s; roundOver := roundOver s; win := win s;
            showSuggestions := showSuggestions s; error := error s |}.

Definition returnToHome (s : State) : State :=
  {| gameScreen := home; gameMode := None; currentRound := 1;
     roundResults := []; targetCountry := None;
     totalRounds := totalRounds s; inputValue := inputValue s;
     guesses := guesses s; roundOver := roundOver s; win := win s;
     showSuggestions := showSuggestions s; error := error s |}.

(** What the player, the clock and the timers can do to the page. *)
Inductive Event : Type :=
| StartGame (mode : option GameMode) (rounds : Z) (today : Z) (draws : list nat)
| Submit (selectedCountry : option Country.t)
| SkipRound
| NextRound (today : Z) (draws : list nat)
| ReturnToHome
| SetGameScreen (screen : GameScreen)
| SetTotalRounds (num : Z)
| Change (value : string)
| Focus
| Escape
| ErrorTimeout.

(** The handler an event runs; [None] when the handler does not return. *)
Definition handler (e : Event) (s : State) : option State :=
  match e with
  | StartGame mode rounds today draws => startGame mode rounds today draws s
  | Submit sel => Some (submitGuess sel s)
  | SkipRound => Some (skipRound s)
  | NextRound today draws => nextRound today draws s
  | ReturnToHome => Some (returnToHome s)
  | SetGameScreen screen =>
    Some {| gameScreen := screen;
            gameMode := gameMode s; totalRounds := totalRounds s;
            currentRound := currentRound s; roundResults := roundResults s;
            targetCountry := targetCountry s; inputValue := inputValue s;
            guesses := guesses s; roundOver := roundOver s; win := win s;
            showSuggestions := showSuggestions s; error := error s |}
  | SetTotalRounds num =>
    Some {| totalRounds := num;
            gameScreen := gameScreen s; gameMode := gameMode s;
            currentRound := currentRound s; roundResults := roundResults s;
            targetCountry := targetCountry s; inputValue := inputValue s;
            guesses := guesses s; roundOver := roundOver s; win := win s;
            showSuggestions := showSuggestions s; error := error s |}
  | Change v => Some (setInputValue v s)
  | Focus =>
    Some {| showSuggestions :=
              if (String.length (inputValue s) =? 0)%nat
              then showSuggestions s else true;
            gameScreen := gameScreen s; gameMode := gameMode s;
            totalRounds := totalRounds s; currentRound := currentRound s;
            roundResults := roundResults s; targetCountry := targetCountry s;
            inputValue := inputValue s; guesses := guesses s;
            roundOver := roundOver s; win := win s; error := error s |}
  | Escape =>
    Some {| showSuggestions := false;
            gameScreen := gameScreen s; gameMode := gameMode s;
            totalRounds := totalRounds s; currentRound := currentRound s;
            roundResults := roundResults s; targetCountry := targetCountry s;
            inputValue := inputValue s; guesses := guesses s;
            roundOver := roundOver s; win := win s; error := error s |}
  | ErrorTimeout =>
    Some {| error := "";
            gameScreen := gameScreen s; gameMode := gameMode s;
            totalRounds := totalRounds s; currentRound := currentRound s;
            roundResults := roundResults s; targetCountry := targetCountry s;
            inputValue := inputValue s; guesses := guesses s;
            roundOver := roundOver s; win := win s;
            showSuggestions := showSuggestions s |}
  end.

(** One step of the page: the handler, then the effect. *)
Definition handle (e : Event) (s : State) : option State :=
  option_map (inputEffect (inputValue s)) (handler e s).

Inductive reachable : State -> Prop :=
| reach_initial : reachable initial
| reach_step e s s' : reachable s -> handle e s = Some s' -> reachable s'.

End Game.

End Page.

(** ** The two pages side by side *)

(** A guess of the single-round page without its direction. *)
Definition forgetDirection (g : Part000.Guess.t) : Page.Guess.t :=
  {| Page.Guess.country := Part000.Guess.country g;
     Page.Guess.distance := Part000.Guess.distance g |}.

(** A game of the single-round page and a round of the session page that
    show the same thing. *)
Definition sameRound (p : Part000.State) (q : Page.State) : Prop :=
  Part000.targetCountry p = Page.targetCountry q /\
  Part000.inputValue p = Page.inputValue q /\
  map forgetDirection (Part000.guesses p) = Page.guesses q /\
  Part000.gameOver p = Page.roundOver q /\
  Part000.win p = Page.win q /\
  Part000.showSuggestions p = Page.showSuggestions q /\
  Part000.error p = Page.error q.

(** ** Tables and states for the examples *)

Module Sample.

Definition france : Country.t := Country.mk "France" "FR" 46 2.
Definition germany : Country.t := Country.mk "Germany" "DE" 51 9.
Definition japan : Country.t := Country.mk "Japan" "JP" 36 138.
Definition table : list Country.t := [france; germany; japan].

(** Two entries with different codes at one position. *)
Definition alpha : Country.t := Country.mk "Alpha" "AA" 10 20.
Definition beta : Country.t := Country.mk "Beta" "BB" 10 20.
Definition twins : list Country.t := [alpha; beta].

(** A practice round of three on [twins] with target [beta], the player
    having typed ALPHA. *)
Definition twinsRound : Page.State :=
  {| Page.gameScreen := Page.playing; Page.gameMode := Some Page.practice;
     Page.totalRounds := 3; Page.currentRound := 1; Page.roundResults := [];
     Page.targetCountry := Some beta; Page.inputValue := "ALPHA";
     Page.guesses := []; Page.roundOver := false; Page.win := false;
     Page.showSuggestions := true; Page.error := "" |}.

(** A practice round of three on [table] with target [france]. *)
Definition franceRound : Page.State :=
  {| Page.gameScreen := Page.playing; Page.gameMode := Some Page.practice;
     Page.totalRounds := 3; Page.currentRound := 1; Page.roundResults := [];
     Page.targetCountry := Some france; Page.inputValue := "";
     Page.guesses := []; Page.roundOver := false; Page.win := false;
     Page.showSuggestions := false; Page.error := "" |}.

(** A game of the single-round page on [table] with target [france]. *)
Definition franceGame : Part000.State :=
  {| Part000.targetCountry := Some france; Part000.inputValue := "";
     Part000.guesses := []; Part000.gameOver := false; Part000.win := false;
     Part000.showSuggestions := false; Part000.error := "" |}.

(** The round after GERMANY was typed and submitted, and then after
    france was. *)
Definition afterGermany : Page.State :=
  Page.submitGuess ascii_toLowerCase table None
    (Page.setInputValue "GERMANY" franceRound).
Definition afterFrance : Page.State :=
  Page.submitGuess ascii_toLowerCase table None
    (Page.setInputValue "france" afterGermany).

(** The session of three rounds: won in 2 guesses, skipped, won in 4. *)
Definition session : list Page.RoundResult.t :=
  [ Page.RoundResult.mk france 2 true;
    Page.RoundResult.mk germany 0 false;
    Page.RoundResult.mk japan 4 true ].

End Sample.


(** ** More of the pages: colours, polygons, arrows, suggestions *)

(** [s.startsWith(sub)] and [s.includes(sub)] on strings. *)
Fixpoint startsWith (s sub : string) : bool :=
  match sub, s with
  | EmptyString, _ => true
  | String _ _, EmptyString => false
  | String b sub', String a s' => Ascii.eqb a b && startsWith s' sub'
  end.

Fixpoint includes (s sub : string) : bool :=
  startsWith s sub ||
  match s with
  | EmptyString => false
  | String _ rest => includes rest sub
  end.

Module Colors.

(** The texts of [getHotColdText] as [src/app/page.tsx] has them. *)
Definition CORRECT : string := "üéØ CORRECT!".
Definition HOT : string := "üî• HOT".
Definition WARM : string := "üå°Ô∏è WARM".
Definition COOL : string := "‚ùÑÔ∏è COOL".
Definition COLD : string := "üßä COLD".

Definition getHotColdText (distance : R) : string :=
  if Req_dec_T distance 0 then CORRECT
  else if Rlt_dec distance 1000 then HOT
  else if Rlt_dec distance 3000 then WARM
  else if Rlt_dec distance 8000 then COOL
  else COLD.

Definition getTextColor (distance : R) : string :=
  if Rlt_dec distance 8000 then "text-white" else "text-gray-900".

Definition getPointColor (distance : R) : string :=
  if Req_dec_T distance 0 then "#10b981"
  else if Rlt_dec distance 1000 then "#ef4444"
  else if Rlt_dec distance 3000 then "#f97316"
  else if Rlt_dec distance 8000 then "#facc15"
  else "#9ca3af".

End Colors.

(** A feature of the world atlas, as far as [getPolygonColor] reads it:
    [polygon.properties?.name]. *)
Module Polygon.
Record Properties : Type := mkProperties { name : option string }.
Record t : Type := mk { properties : option Properties }.
End Polygon.

Module Polygons.

Definition unguessed : string := "rgba(100, 100, 100, 0.3)".

(** [polygon.properties?.name || ''] *)
Definition polygonName (polygon : Polygon.t) : string :=
  match Polygon.properties polygon with
  | None => ""
  | Some p =>
    match Polygon.name p with
    | None => ""
    | Some n => n
    end
  end.

Section Polygons.

Variable toLowerCase : string -> string.

(** The test of [guesses.find] in [getPolygonColor]. *)
Definition matches (polygon : Polygon.t) (guess : Page.Guess.t) : bool :=
  let polygonName := polygonName polygon in
  includes (toLowerCase polygonName)
           (toLowerCase (Country.name (Page.Guess.country guess))) ||
  includes (toLowerCase (Country.name (Page.Guess.country guess)))
           (toLowerCase polygonName).

Definition getPolygonColor (targetCountry : option Country.t)
    (guesses : list Page.Guess.t) (polygon : Polygon.t) : string :=
  match targetCountry with
  | None => unguessed
  | Some _ =>
    let guessedMatch := find (matches polygon) guesses in
    match guessedMatch with
    | Some guessedMatch =>
      let distance := Page.Guess.distance guessedMatch in
      if Req_dec_T distance 0 then "rgba(16, 185, 129, 0.8)"
      else if Rlt_dec distance 1000 then "rgba(239, 68, 68, 0.8)"
      else if Rlt_dec distance 3000 then "rgba(249, 115, 22, 0.8)"
      else if Rlt_dec distance 8000 then "rgba(250, 204, 21, 0.8)"
      else "rgba(156, 163, 175, 0.8)"
    | None => unguessed
    end
  end.

End Polygons.

End Polygons.

(** [getDirectionArrow] of [src/unnamed/part_000]. *)
Module Arrows.

(** What reading [arrows[direction]] gives: one of the eight texts of the
    literal, nothing, or, for a name every object inherits from
    [Object.prototype], a value that is no string. *)
Inductive Value : Type :=
| Text (s : string)
| Inherited (key : string).

Definition arrows : list (string * string) :=
  [("N", "↑"); ("NE", "↗"); ("E", "→"); ("SE", "↘");
   ("S", "↓"); ("SW", "↙"); ("W", "←"); ("NW", "↖")]%string.

(** The property names of [Object.prototype]. *)
Definition inherited : list string :=
  ["constructor"; "hasOwnProperty"; "isPrototypeOf"; "propertyIsEnumerable";
   "toLocaleString"; "toString"; "valueOf"; "__proto__";
   "__defineGetter__"; "__defineSetter__"; "__lookupGetter__";
   "__lookupSetter__"]%string.

Fixpoint lookup (key : string) (table : list (string * string)) : option string :=
  match table with
  | [] => None
  | (k, v) :: rest => if String.eqb k key then Some v else lookup key rest
  end.

(** [arrows[direction] || direction]; an [undefined] direction reads the
    key "undefined", which is absent, and comes back as it is. *)
Definition getDirectionArrow (direction : option string) : option Value :=
  match direction with
  | None => None
  | Some d =>
    match lookup d arrows with
    | Some arrow => Some (Text arrow)
    | None =>
      if existsb (String.eqb d) inherited then Some (Inherited d)
      else Some (Text d)
    end
  end.

End Arrows.

(** ** [src/app/page.tsx], the whole page: globe, suggestions, keyboard and
    what each screen offers *)

Module PageUI.

Module GlobePoint.
Record t : Type := mk {
  lat : R; lng : R; size : R; color : string; label : string; altitude : R
}.
End GlobePoint.

(** The cells of [Home] beside those of [Page.State]: [arcs] is only ever
    set to the empty array on this page, and [countryPolygons] holds what
    the atlas request delivered. *)
Record View : Type := mkView {
  page : Page.State;
  filteredCountries : list Country.t;
  selectedIndex : Z;
  globePoints : list GlobePoint.t
}.

Definition initial : View :=
  {| page := Page.initial; filteredCountries := []; selectedIndex := -1;
     globePoints := [] |}.

(** The point [submitGuess] puts on the globe for a guess. *)
Definition newPoint (guessedCountry : Country.t) (distance : R) : GlobePoint.t :=
  {| GlobePoint.lat := Country.latitude guessedCountry;
     GlobePoint.lng := Country.longitude guessedCountry;
     GlobePoint.size := if Req_dec_T distance 0 then 1.5 else 0.8;
     GlobePoint.color := Colors.getPointColor distance;
     GlobePoint.label :=
       (Country.name guessedCountry ++ " - " ++ Colors.getHotColdText distance)%string;
     GlobePoint.altitude := if Req_dec_T distance 0 then 0.3 else 0.15 |}.

(** The point of a recorded guess. *)
Definition pointOf (g : Page.Guess.t) : GlobePoint.t :=
  newPoint (Page.Guess.country g) (Page.Guess.distance g).

(** [setShowSuggestions(b)] *)
Definition setShowSuggestions (b : bool) (s : Page.State) : Page.State :=
  {| Page.showSuggestions := b;
     Page.gameScreen := Page.gameScreen s; Page.gameMode := Page.gameMode s;
     Page.totalRounds := Page.totalRounds s;
     Page.currentRound := Page.currentRound s;
     Page.roundResults := Page.roundResults s;
     Page.targetCountry := Page.targetCountry s;
     Page.inputValue := Page.inputValue s; Page.guesses := Page.guesses s;
     Page.roundOver := Page.roundOver s; Page.win := Page.win s;
     Page.error := Page.error s |}.

(** [setGameScreen(screen)] *)
Definition setGameScreen (screen : Page.GameScreen) (s : Page.State) : Page.State :=
  {| Page.gameScreen := screen;
     Page.gameMode := Page.gameMode s; Page.totalRounds := Page.totalRounds s;
     Page.currentRound := Page.currentRound s;
     Page.roundResults := Page.roundResults s;
     Page.targetCountry := Page.targetCountry s;
     Page.inputValue := Page.inputValue s; Page.guesses := Page.guesses s;
     Page.roundOver := Page.roundOver s; Page.win := Page.win s;
     Page.showSuggestions := Page.showSuggestions s; Page.error := Page.error s |}.

(** [setTotalRounds(num)] *)
Definition setTotalRounds (num : Z) (s : Page.State) : Page.State :=
  {| Page.totalRounds := num;
     Page.gameScreen := Page.gameScreen s; Page.gameMode := Page.gameMode s;
     Page.currentRound := Page.currentRound s;
     Page.roundResults := Page.roundResults s;
     Page.targetCountry := Page.targetCountry s;
     Page.inputValue := Page.inputValue s; Page.guesses := Page.guesses s;
     Page.roundOver := Page.roundOver s; Page.win := Page.win s;
     Page.showSuggestions := Page.showSuggestions s; Page.error := Page.error s |}.

(** [setError("")], what the timer of an error message runs. *)
Definition clearError (s : Page.State) : Page.State :=
  {| Page.error := "";
     Page.gameScreen := Page.gameScreen s; Page.gameMode := Page.gameMode s;
     Page.totalRounds := Page.totalRounds s;
     Page.currentRound := Page.currentRound s;
     Page.roundResults := Page.roundResults s;
     Page.targetCountry := Page.targetCountry s;
     Page.inputValue := Page.inputValue s; Page.guesses := Page.guesses s;
     Page.roundOver := Page.roundOver s; Page.win := Page.win s;
     Page.showSuggestions := Page.showSuggestions s |}.

Inductive Key : Type := ArrowDown | ArrowUp | Enter | Escape | OtherKey.

Section Game.

Variable toLowerCase : string -> string.
Variable countries : list Country.t.

(** [countries.filter((c) => c.name.toLowerCase().includes(
    inputValue.toLowerCase()))] *)
Definition suggestions (inputValue : string) : list Country.t :=
  filter (fun c => includes (toLowerCase (Country.name c)) (toLowerCase inputValue))
         countries.

(** The effect with dependency [inputValue], in full: it runs after a
    handler that changed the input's value ([before] is the old one). *)
Definition inputEffect (before : string) (v : View) : View :=
  let inputValue := Page.inputValue (page v) in
  if String.eqb before inputValue then v
  else if (0 <? String.length inputValue)%nat then
    {| filteredCountries := suggestions inputValue;
       page := setShowSuggestions true (page v);
       selectedIndex := -1;
       globePoints := globePoints v |}
  else
    {| filteredCountries := [];
       page := setShowSuggestions false (page v);
       selectedIndex := selectedIndex v;
       globePoints := globePoints v |}.

(** The guards of [submitGuess]: the guessed country and the target when
    the body runs past the three early returns. *)
Definition acceptedGuess (selectedCountry : option Country.t) (s : Page.State)
  : option (Country.t * Country.t) :=
  if Page.roundOver s then None else
  match Page.targetCountry s with
  | None => None
  | Some target =>
    match candidate toLowerCase countries selectedCountry (Page.inputValue s) with
    | None => None
    | Some guessedCountry =>
      if existsb (fun g => String.eqb (Country.code (Page.Guess.country g))
                                      (Country.code guessedCountry))
                 (Page.guesses s)
      then None
      else Some (guessedCountry, target)
    end
  end.

(** [submitGuess] with the globe: the cells of [Page.State] change as
    [Page.submitGuess] says, and an accepted guess adds its point at the end
    of [globePoints]. *)
Definition submitGuess (selectedCountry : option Country.t) (v : View) : View :=
  {| page := Page.submitGuess toLowerCase countries selectedCountry (page v);
     globePoints :=
       match acceptedGuess selectedCountry (page v) with
       | Some (guessedCountry, target) =>
         globePoints v ++
         [newPoint guessedCountry
            (Utils.getDistanceFromLatLonInKm
               (Country.latitude guessedCountry) (Country.longitude guessedCountry)
               (Country.latitude target) (Country.longitude target))]
       | None => globePoints v
       end;
     filteredCountries := filteredCountries v;
     selectedIndex := selectedIndex v |}.

(** [startNewRound] with the globe: [setGlobePoints([])]. *)
Definition startNewRound (mode : option Page.GameMode) (today : Z)
    (draws : list nat) (v : View) : option View :=
  match Page.startNewRound countries mode today draws (page v) with
  | None => None
  | Some s' =>
    Some {| page := s'; globePoints := [];
            filteredCountries := filteredCountries v;
            selectedIndex := selectedIndex v |}
  end.

Definition startGame (mode : option Page.GameMode) (rounds : Z) (today : Z)
    (draws : list nat) (v : View) : option View :=
  match Page.startGame countries mode rounds today draws (page v) with
  | None => None
  | Some s' =>
    Some {| page := s'; globePoints := [];
            filteredCountries := filteredCountries v;
            selectedIndex := selectedIndex v |}
  end.

Definition nextRound (today : Z) (draws : list nat) (v : View) : option View :=
  match Page.nextRound countries today draws (page v) with
  | None => None
  | Some s' =>
    Some {| page := s';
            globePoints :=
              if (Page.currentRound (page v) <? Page.totalRounds (page v))%Z
              then [] else globePoints v;
            filteredCountries := filteredCountries v;
            selectedIndex := selectedIndex v |}
  end.

(** A handler that only writes cells of [Page.State]. *)
Definition onPage (f : Page.State -> Page.State) (v : View) : View :=
  {| page := f (page v); filteredCountries := filteredCountries v;
     selectedIndex := selectedIndex v; globePoints := globePoints v |}.

Definition handleKeyDown (key : Key) (v : View) : View :=
  if negb (Page.showSuggestions (page v))
     || (List.length (filteredCountries v) =? 0)%nat
  then v
  else
    match key with
    | ArrowDown =>
      {| selectedIndex :=
           if (selectedIndex v <? Z.of_nat (List.length (filteredCountries v)) - 1)%Z
           then (selectedIndex v + 1)%Z else selectedIndex v;
         page := page v; filteredCountries := filteredCountries v;
         globePoints := globePoints v |}
    | ArrowUp =>
      {| selectedIndex :=
           if (0 <? selectedIndex v)%Z then (selectedIndex v - 1)%Z else (-1)%Z;
         page := page v; filteredCountries := filteredCountries v;
         globePoints := globePoints v |}
    | Enter =>
      if (0 <=? selectedIndex v)%Z
      then submitGuess (Utils.array_get (filteredCountries v) (selectedIndex v)) v
      else v
    | Escape => onPage (setShowSuggestions false) v
    | OtherKey => v
    end.

(** What the player, the clock and the timers can do: the controls of the
    four screens, and the timer of an error message. *)
Inductive Event : Type :=
| ClickPractice                                  (* home: setGameScreen("setup") *)
| ClickDaily (today : Z)                         (* home: startGame("daily", 1) *)
| ClickBack                                      (* setup: setGameScreen("home") *)
| ClickRounds (num : Z)                          (* setup: setTotalRounds(num) *)
| ClickStart (today : Z) (draws : list nat)      (* setup: startGame("practice", totalRounds) *)
| ClickPlayAgain (today : Z) (draws : list nat)  (* results: startGame(gameMode, totalRounds) *)
| ClickHome                                      (* results, finished round: returnToHome *)
| ClickNext (today : Z) (draws : list nat)       (* finished practice round: nextRound *)
| ClickSkip                                      (* practice round: skipRound *)
| ClickSuggestion (index : nat)                  (* selectCountry(filteredCountries.slice(0, 8)[index]) *)
| SubmitForm                                     (* handleGuess *)
| TypeText (value : string)                      (* onChange *)
| FocusInput                                     (* onFocus *)
| KeyDown (key : Key)                            (* onKeyDown *)
| ErrorTimeout.

(** Whether the control of an event is on the screen that [v] renders. *)
Definition rendered (e : Event) (v : View) : bool :=
  let s := page v in
  let inPractice :=
    match Page.gameMode s with Some Page.practice => true | _ => false end in
  match Page.gameScreen s, e with
  | _, ErrorTimeout => true
  | Page.home, (ClickPractice | ClickDaily _) => true
  | Page.setup, (ClickBack | ClickStart _ _) => true
  | Page.setup, ClickRounds num => existsb (Z.eqb num) [3; 5; 10]%Z
  | Page.results, (ClickPlayAgain _ _ | ClickHome) => true
  | Page.playing, ClickHome => Page.roundOver s
  | Page.playing, ClickNext _ _ => Page.roundOver s && inPractice
  | Page.playing, ClickSkip => negb (Page.roundOver s) && inPractice
  | Page.playing, ClickSuggestion index =>
    negb (Page.roundOver s) && Page.showSuggestions s
    && (0 <? List.length (filteredCountries v))%nat
    && (index <? List.length (firstn 8 (filteredCountries v)))%nat
  | Page.playing, (SubmitForm | TypeText _ | FocusInput | KeyDown _) =>
    negb (Page.roundOver s)
  | _, _ => false
  end.

(** The handler of an event. *)
Definition handler (e : Event) (v : View) : option View :=
  match e with
  | ClickPractice => Some (onPage (setGameScreen Page.setup) v)
  | ClickDaily today => startGame (Some Page.daily) 1 today [] v
  | ClickBack => Some (onPage (setGameScreen Page.home) v)
  | ClickRounds num => Some (onPage (setTotalRounds num) v)
  | ClickStart today draws =>
    startGame (Some Page.practice) (Page.totalRounds (page v)) today draws v
  | ClickPlayAgain today draws =>
    startGame (Page.gameMode (page v)) (Page.totalRounds (page v)) today draws v
  | ClickHome => Some (onPage Page.returnToHome v)
  | ClickNext today draws => nextRound today draws v
  | ClickSkip => Some (onPage Page.skipRound v)
  | ClickSuggestion index =>
    Some (submitGuess (nth_error (firstn 8 (filteredCountries v)) index) v)
  | SubmitForm => Some (submitGuess None v)
  | TypeText value => Some (onPage (Page.setInputValue value) v)
  | FocusInput =>
    Some (if (String.length (Page.inputValue (page v)) =? 0)%nat then v
          else onPage (setShowSuggestions true) v)
  | KeyDown key => Some (handleKeyDown key v)
  | ErrorTimeout => Some (onPage clearError v)
  end.

(** What the environment supplies: a clock after the epoch, and draws
    [Math.floor(Math.random() * countries.length)] below the length. *)
Definition plausible (e : Event) : Prop :=
  match e with
  | ClickDaily today => (0 <= today)%Z
  | ClickStart today draws | ClickPlayAgain today draws | ClickNext today draws =>
    (0 <= today)%Z /\ Forall (fun d => (d < List.length countries)%nat) draws
  | _ => True
  end.

(** One step of the page: an event whose control is rendered, its handler,
    then the effect. *)
Definition step (e : Event) (v : View) : option View :=
  if rendered e v
  then option_map (inputEffect (Page.inputValue (page v))) (handler e v)
  else None.

Inductive reachable : View -> Prop :=
| reach_initial : reachable initial
| reach_step e v v' :
    reachable v -> plausible e -> step e v = Some v' -> reachable v'.

(** The events of a list, one after the other. *)
Fixpoint run (es : list Event) (v : View) : option View :=
  match es with
  | [] => Some v
  | e :: rest =>
    match step e v with
    | Some v' => run rest v'
    | None => None
    end
  end.

End Game.

End PageUI.

(** ** More tables and states for the examples *)

Module Atlas.

Definition guinea : Country.t := Country.mk "Guinea" "GN" 11 (-10).

(** Two features of the atlas: a neighbour of Guinea, and one that has no
    properties. *)
Definition guineaBissau : Polygon.t :=
  Polygon.mk (Some (Polygon.mkProperties (Some "Guinea-Bissau"%string))).
Definition nameless : Polygon.t := Polygon.mk None.

(** Guinea, guessed against the target France. *)
Definition guineaGuess : Page.Guess.t :=
  Page.Guess.mk guinea (Utils.getDistanceFromLatLonInKm 11 (-10) 46 2).

End Atlas.

(** ** What the rounds keep *)

Module Rounds.

(** The distance a guess of [guessed] gets in a round with target [target]. *)
Definition distanceTo (target guessed : Country.t) : R :=
  Utils.getDistanceFromLatLonInKm
    (Country.latitude guessed) (Country.longitude guessed)
    (Country.latitude target) (Country.longitude target).

(** The summary of a round as it ended: the number of guesses when it was
    won, and 0 when it was skipped. *)
Definition summary (s : Page.State) (target : Country.t) : Page.RoundResult.t :=
  {| Page.RoundResult.country := target;
     Page.RoundResult.guesses :=
       if Page.win s then List.length (Page.guesses s) else 0%nat;
     Page.RoundResult.won := Page.win s |}.

(** A summary that counts one guess or more when won, and none otherwise. *)
Definition wellFormed (r : Page.RoundResult.t) : Prop :=
  if Page.RoundResult.won r
  then (1 <= Page.RoundResult.guesses r)%nat
  else Page.RoundResult.guesses r = 0%nat.

(** What a round of the session page keeps, relative to its target. *)
Definition pageRound (s : Page.State) : Prop :=
  Forall wellFormed (Page.roundResults s) /\
  forall target, Page.targetCountry s = Some target ->
    (Page.win s = false -> ~ In (Country.code target) (Page.guessedCodes s)) /\
    (Page.win s = true ->
     exists g rest, Page.guesses s = g :: rest /\
                    Country.code (Page.Guess.country g) = Country.code target) /\
    Forall (fun g => Page.Guess.distance g = distanceTo target (Page.Guess.country g))
           (Page.guesses s) /\
    (Page.roundOver s = true ->
     exists earlier, Page.roundResults s = earlier ++ [summary s target]).

(** What a game of the single-round page keeps. *)
Definition part000Game (s : Part000.State) : Prop :=
  (Part000.gameOver s = true -> exists target, Part000.targetCountry s = Some target) /\
  Forall (fun g => exists l, Part000.Guess.direction g = Some l /\ In l Utils.labels)
         (Part000.guesses s) /\
  forall target, Part000.targetCountry s = Some target ->
    (Part000.gameOver s = false ->
     ~ In (Country.code target) (Part000.guessedCodes s)) /\
    (Part000.gameOver s = true ->
     exists g rest, Part000.guesses s = g :: rest /\
                    Country.code (Part000.Guess.country g) = Country.code target) /\
    Forall (fun g =>
              Part000.Guess.distance g = distanceTo target (Part000.Guess.country g) /\
              Part000.Guess.direction g =
                Utils.getDirection
                  (Country.latitude (Part000.Guess.country g))
                  (Country.longitude (Part000.Guess.country g))
                  (Country.latitude target) (Country.longitude target))
           (Part000.guesses s).

(** A draw that ends the loop of [startNewRound]: without a target before
    any draw does; with one, the drawn entry has another code or the table
    has no second entry. *)
Definition ends (countries : list Country.t) (target : option Country.t)
    (draw : nat) : Prop :=
  match target, nth_error countries draw with
  | None, _ => True
  | Some _, None => False
  | Some t, Some r =>
    Country.code r <> Country.code t \/ (List.length countries <= 1)%nat
  end.

End Rounds.

(** ** What the screens keep *)

Module Screens.

Section Screens.

Variable toLowerCase : string -> string.
Variable countries : list Country.t.

(** The counters of a session, screen by screen: while a round is played
    the summaries recorded are those of the rounds before it, and its own
    once it is over; the results screen shows as many summaries as the
    session has rounds. *)
Definition session (s : Page.State) : Prop :=
  (1 <= Page.totalRounds s)%Z /\
  match Page.gameScreen s with
  | Page.playing =>
    (1 <= Page.currentRound s <= Page.totalRounds s)%Z /\
    Z.of_nat (List.length (Page.roundResults s)) =
      (Page.currentRound s - (if Page.roundOver s then 0 else 1))%Z /\
    (exists mode, Page.gameMode s = Some mode /\
                  (mode = Page.daily -> Page.totalRounds s = 1%Z)) /\
    (exists target, Page.targetCountry s = Some target /\ In target countries)
  | Page.results =>
    Z.of_nat (List.length (Page.roundResults s)) = Page.totalRounds s /\
    Page.currentRound s = Page.totalRounds s /\
    Page.gameMode s = Some Page.practice /\
    Page.roundOver s = true
  | _ => True
  end.

(** Every guess is a guess of a table entry, and so is the target. *)
Definition fromTable (s : Page.State) : Prop :=
  Forall (fun g => In (Page.Guess.country g) countries) (Page.guesses s) /\
  forall target, Page.targetCountry s = Some target -> In target countries.

(** The globe shows the points of the guesses, oldest first. *)
Definition globe (v : PageUI.View) : Prop :=
  PageUI.globePoints v = rev (map PageUI.pointOf (Page.guesses (PageUI.page v))).

(** The suggestions are those of the input's text, the selected index is
    -1 or an index of the list while the input is not empty, and the list
    shows only then. *)
Definition selection (v : PageUI.View) : Prop :=
  let inputValue := Page.inputValue (PageUI.page v) in
  PageUI.filteredCountries v =
    (if (0 <? String.length inputValue)%nat
     then PageUI.suggestions toLowerCase countries inputValue else []) /\
  (-1 <= PageUI.selectedIndex v)%Z /\
  ((0 < String.length inputValue)%nat ->
   (PageUI.selectedIndex v < Z.of_nat (List.length (PageUI.filteredCountries v)))%Z) /\
  (Page.showSuggestions (PageUI.page v) = true -> (0 < String.length inputValue)%nat).

End Screens.

End Screens.

(** ** Plays on the table of the examples *)

Module Played.

(** Practice chosen and a session started, the first draw being France;
    then the letters an typed: every name of the table has them. *)
Definition typing : list PageUI.Event :=
  [PageUI.ClickPractice; PageUI.ClickStart 0 [0%nat]; PageUI.TypeText "an"].

Definition typedAn : PageUI.View :=
  {| PageUI.page :=
       {| Page.gameScreen := Page.playing; Page.gameMode := Some Page.practice;
          Page.totalRounds := 5; Page.currentRound := 1; Page.roundResults := [];
          Page.targetCountry := Some Sample.france; Page.inputValue := "an";
          Page.guesses := []; Page.roundOver := false; Page.win := false;
          Page.showSuggestions := true; Page.error := "" |};
     PageUI.filteredCountries := Sample.table;
     PageUI.selectedIndex := -1;
     PageUI.globePoints := [] |}.

(** Then ArrowDown and Enter: France, the first suggestion, is submitted. *)
Definition entering : list PageUI.Event :=
  typing ++ [PageUI.KeyDown PageUI.ArrowDown; PageUI.KeyDown PageUI.Enter].

Definition wonFrance : PageUI.View :=
  {| PageUI.page :=
       {| Page.gameScreen := Page.playing; Page.gameMode := Some Page.practice;
          Page.totalRounds := 5; Page.currentRound := 1;
          Page.roundResults := [Page.RoundResult.mk Sample.france 1 true];
          Page.targetCountry := Some Sample.france; Page.inputValue := "";
          Page.guesses :=
            [Page.Guess.mk Sample.france
               (Rounds.distanceTo Sample.france Sample.france)];
          Page.roundOver := true; Page.win := true;
          Page.showSuggestions := false; Page.error := "" |};
     PageUI.filteredCountries := [];
     PageUI.selectedIndex := 0;
     PageUI.globePoints :=
       [PageUI.newPoint Sample.france
          (Rounds.distanceTo Sample.france Sample.france)] |}.

End Played.

(** ** [src/unnamed/part_001]: the single-round page with points and arcs
    on the globe *)

Module Part001.

Module Arc.
Record t : Type := mk {
  startLat : R; startLng : R; endLat : R; endLng : R;
  color : string * string;
  dashLength : R; dashGap : R; dashAnimateTime : R; stroke : R
}.
End Arc.

(** The cells of [Home]: those of the game, which the handlers treat as
    [src/unnamed/part_000] does, and the two layers of the globe. *)
Record View : Type := mkView {
  game : Part000.State;
  globePoints : list PageUI.GlobePoint.t;
  arcs : list Arc.t
}.

Definition initial : View :=
  {| game := Part000.initial; globePoints := []; arcs := [] |}.

(** [getPointColor] has the text of the one of [src/app/page.tsx]. *)
Definition getPointColor : R -> string := Colors.getPointColor.

Definition newPoint (guessedCountry : Country.t) (distance : R)
  : PageUI.GlobePoint.t :=
  {| PageUI.GlobePoint.lat := Country.latitude guessedCountry;
     PageUI.GlobePoint.lng := Country.longitude guessedCountry;
     PageUI.GlobePoint.size := if Req_dec_T distance 0 then 1.5 else 0.8;
     PageUI.GlobePoint.color := getPointColor distance;
     PageUI.GlobePoint.label :=
       (Country.name guessedCountry ++ " - " ++ Feedback.getHotColdText distance)%string;
     PageUI.GlobePoint.altitude := if Req_dec_T distance 0 then 0.3 else 0.15 |}.

Definition newArc (guessedCountry targetCountry : Country.t) (distance : R) : Arc.t :=
  let pointColor := getPointColor distance in
  {| Arc.startLat := Country.latitude guessedCountry;
     Arc.startLng := Country.longitude guessedCountry;
     Arc.endLat := Country.latitude targetCountry;
     Arc.endLng := Country.longitude targetCountry;
     Arc.color := (pointColor, pointColor);
     Arc.dashLength := 0.3; Arc.dashGap := 0.2; Arc.dashAnimateTime := 3000;
     Arc.stroke := 2 |}.

(** The point and the arc of a recorded guess, for a target. *)
Definition pointOf (g : Part000.Guess.t) : PageUI.GlobePoint.t :=
  newPoint (Part000.Guess.country g) (Part000.Guess.distance g).

Definition arcOf (target : Country.t) (g : Part000.Guess.t) : Arc.t :=
  newArc (Part000.Guess.country g) target (Part000.Guess.distance g).

Section Game.

Variable toLowerCase : string -> string.
Variable countries : list Country.t.

(** [startNewGame]: the game starts as on [src/unnamed/part_000], and both
    layers are emptied. *)
Definition startNewGame (draw : nat) (v : View) : View :=
  {| game := Part000.startNewGame countries draw (game v);
     globePoints := []; arcs := [] |}.

(** [submitGuess]: the cells of the game change as on
    [src/unnamed/part_000]; an accepted guess adds its point and its arc
    to the target. *)
Definition submitGuess (selectedCountry : option Country.t) (v : View) : View :=
  let s := game v in
  let game' := Part000.submitGuess toLowerCase countries selectedCountry s in
  if Part000.gameOver s then v else
  match Part000.targetCountry s with
  | None => v
  | Some targetCountry =>
    match candidate toLowerCase countries selectedCountry (Part000.inputValue s) with
    | None => {| game := game'; globePoints := globePoints v; arcs := arcs v |}
    | Some guessedCountry =>
      if existsb (fun g => String.eqb (Country.code (Part000.Guess.country g))
                                      (Country.code guessedCountry))
                 (Part000.guesses s)
      then {| game := game'; globePoints := globePoints v; arcs := arcs v |}
      else
        let distance := Utils.getDistanceFromLatLonInKm
                          (Country.latitude guessedCountry)
                          (Country.longitude guessedCountry)
                          (Country.latitude targetCountry)
                          (Country.longitude targetCountry) in
        {| game := game';
           globePoints := globePoints v ++ [newPoint guessedCountry distance];
           arcs := arcs v ++ [newArc guessedCountry targetCountry distance] |}
    end
  end.

(** The handler of an event: the events are those of
    [src/unnamed/part_000]. *)
Definition handler (e : Part000.Event) (v : View) : View :=
  match e with
  | Part000.StartNewGame draw => startNewGame draw v
  | Part000.Submit selectedCountry => submitGuess selectedCountry v
  | _ =>
    {| game := Part000.handler toLowerCase countries e (game v);
       globePoints := globePoints v; arcs := arcs v |}
  end.

(** One step of the page: the handler, then the effect. *)
Definition handle (e : Part000.Event) (v : View) : View :=
  let v1 := handler e v in
  {| game := Part000.inputEffect (Part000.inputValue (game v)) (game v1);
     globePoints := globePoints v1; arcs := arcs v1 |}.

Inductive reachable : View -> Prop :=
| reach_initial : reachable initial
| reach_step e v : reachable v -> reachable (handle e v).

(** What the globe keeps: a point and an arc per guess, oldest first, every
    arc to the target of the game. *)
Definition drawn (v : View) : Prop :=
  globePoints v = rev (map pointOf (Part000.guesses (game v))) /\
  match Part000.targetCountry (game v) with
  | Some target => arcs v = rev (map (arcOf target) (Part000.guesses (game v)))
  | None => arcs v = [] /\ Part000.guesses (game v) = []
  end.

End Game.

End Part001.
(** * Properties *)

(** ** The geodesic helpers *)

Module UtilsFacts.
Import Utils.

Lemma Math_floor_spec (x : R) : IZR (Math_floor x) <= x < IZR (Math_floor x) + 1.
Proof.
  unfold Math_floor. destruct (base_Int_part x) as [H1 H2]. lra.
Qed.

Lemma Math_floor_unique (x : R) (n : Z) : IZR n <= x < IZR n + 1 -> Math_floor x = n.
Proof.
  intros [H1 H2]. destruct (Math_floor_spec x) as [H3 H4].
  assert (Hlt1 : (n < Math_floor x + 1)%Z).
  { apply lt_IZR. rewrite plus_IZR. lra. }
  assert (Hlt2 : (Math_floor x < n + 1)%Z).
  { apply lt_IZR. rewrite plus_IZR. lra. }
  lia.
Qed.

Lemma Math_atan2_bound (y x : R) : - PI <= Math_atan2 y x <= PI.
Proof.
  unfold Math_atan2. pose proof PI_RGT_0 as Hpi.
  pose proof (atan_bound (y / x)) as Hb.
  destruct (Rlt_dec 0 x) as [Hx | Hx]; [lra |].
  destruct (Rlt_dec x 0) as [Hx' | Hx'].
  - destruct (Rle_dec 0 y) as [Hy | Hy].
    + assert (y / x <= 0).
      { unfold Rdiv. assert (/ x < 0) by (apply Rinv_lt_0_compat; lra). nra. }
      assert (atan (y / x) <= 0).
      { destruct (Req_dec (y / x) 0) as [E | E].
        - rewrite E, atan_0. lra.
        - rewrite <- atan_0. left. apply atan_increasing. lra. }
      lra.
    + assert (0 < y / x).
      { unfold Rdiv. assert (/ x < 0) by (apply Rinv_lt_0_compat; lra). nra. }
      assert (0 < atan (y / x)).
      { rewrite <- atan_0. apply atan_increasing. lra. }
      lra.
  - destruct (Rlt_dec 0 y); [lra |]. destruct (Rlt_dec y 0); lra.
Qed.

Lemma atan_nonneg (t : R) : 0 <= t -> 0 <= atan t.
Proof.
  intros [H | H].
  - left. rewrite <- atan_0. now apply atan_increasing.
  - rewrite <- H, atan_0. lra.
Qed.

Lemma atan_eq_0 (t : R) : atan t = 0 -> t = 0.
Proof.
  intros H. destruct (Rtotal_order t 0) as [L | [E | G]]; [| exact E |].
  - apply atan_increasing in L. rewrite atan_0 in L. lra.
  - apply atan_increasing in G. rewrite atan_0 in G. lra.
Qed.

Lemma Math_atan2_quadrant1 (y x : R) :
  0 <= y -> 0 <= x -> 0 <= Math_atan2 y x <= PI / 2.
Proof.
  intros Hy Hx. unfold Math_atan2. pose proof PI_RGT_0 as Hpi.
  destruct (Rlt_dec 0 x) as [Hx' | Hx'].
  - pose proof (atan_bound (y / x)).
    assert (0 <= y / x).
    { unfold Rdiv. assert (0 < / x) by (now apply Rinv_0_lt_compat). nra. }
    pose proof (atan_nonneg _ H0). lra.
  - destruct (Rlt_dec x 0); [lra |].
    destruct (Rlt_dec 0 y); [lra |]. destruct (Rlt_dec y 0); lra.
Qed.

Lemma Math_atan2_eq_0 (y x : R) :
  0 <= y -> 0 <= x -> (Math_atan2 y x = 0 <-> y = 0).
Proof.
  intros Hy Hx. unfold Math_atan2. pose proof PI_RGT_0 as Hpi.
  destruct (Rlt_dec 0 x) as [Hx' | Hx'].
  - split; intros H.
    + apply atan_eq_0 in H. unfold Rdiv in H.
      apply Rmult_integral in H. destruct H as [H | H]; [exact H |].
      assert (0 < / x) by (now apply Rinv_0_lt_compat). lra.
    + rewrite H. unfold Rdiv. rewrite Rmult_0_l. apply atan_0.
  - destruct (Rlt_dec x 0); [lra |].
    destruct (Rlt_dec 0 y); [split; lra |].
    destruct (Rlt_dec y 0); split; lra.
Qed.

Lemma getDistance_hav lat1 lon1 lat2 lon2 :
  getDistanceFromLatLonInKm lat1 lon1 lat2 lon2 =
  6371 * (2 * Math_atan2 (sqrt (hav lat1 lon1 lat2 lon2))
                         (sqrt (1 - hav lat1 lon1 lat2 lon2))).
Proof. reflexivity. Qed.

Lemma deg2rad_lat (lat : R) : valid_lat lat -> - (PI / 2) <= deg2rad lat <= PI / 2.
Proof.
  unfold valid_lat, deg2rad. pose proof PI_RGT_0. intros [H1 H2]. split; nra.
Qed.

Lemma cos_lat_nonneg (lat : R) : valid_lat lat -> 0 <= cos (deg2rad lat).
Proof.
  intros H. apply deg2rad_lat in H. apply cos_ge_0; lra.
Qed.

Lemma sin_half_sqr (x : R) : sin (x / 2) * sin (x / 2) = (1 - cos x) / 2.
Proof.
  replace x with (2 * (x / 2)) at 3 by field.
  rewrite cos_2a_sin. field.
Qed.

Lemma hav_nonneg lat1 lon1 lat2 lon2 :
  valid_lat lat1 -> valid_lat lat2 -> 0 <= hav lat1 lon1 lat2 lon2.
Proof.
  intros H1 H2. unfold hav.
  pose proof (cos_lat_nonneg _ H1). pose proof (cos_lat_nonneg _ H2).
  set (s := sin (deg2rad (lat2 - lat1) / 2)).
  set (t := sin (deg2rad (lon2 - lon1) / 2)).
  assert (0 <= s * s) by nra. assert (0 <= t * t) by nra.
  assert (0 <= cos (deg2rad lat1) * cos (deg2rad lat2)) by nra.
  nra.
Qed.

Lemma hav_le_1 lat1 lon1 lat2 lon2 :
  valid_lat lat1 -> valid_lat lat2 -> hav lat1 lon1 lat2 lon2 <= 1.
Proof.
  intros H1 H2. unfold hav.
  pose proof (cos_lat_nonneg _ H1) as C1. pose proof (cos_lat_nonneg _ H2) as C2.
  set (t := sin (deg2rad (lon2 - lon1) / 2)).
  assert (Ht : t * t <= 1).
  { pose proof (SIN_bound (deg2rad (lon2 - lon1) / 2)). fold t in H. nra. }
  assert (Ht0 : 0 <= t * t) by nra.
  rewrite sin_half_sqr.
  assert (E : deg2rad (lat2 - lat1) = deg2rad lat2 - deg2rad lat1).
  { unfold deg2rad. ring. }
  rewrite E, cos_minus.
  pose proof (COS_bound (deg2rad lat2 + deg2rad lat1)) as B.
  rewrite cos_plus in B.
  set (c1 := cos (deg2rad lat1)) in *. set (c2 := cos (deg2rad lat2)) in *.
  set (s1 := sin (deg2rad lat1)) in *. set (s2 := sin (deg2rad lat2)) in *.
  assert (0 <= c1 * c2) by nra.
  nra.
Qed.


Lemma sin_eq_0_quarter (x : R) : - (PI / 2) <= x <= PI / 2 -> sin x = 0 -> x = 0.
Proof.
  intros [H1 H2] H. pose proof PI_RGT_0 as Hpi.
  destruct (sin_eq_0_0 _ H) as [k Hk]. subst x.
  assert (Hlo : (-1 < k)%Z) by (apply lt_IZR; nra).
  assert (Hhi : (k < 1)%Z) by (apply lt_IZR; nra).
  replace k with 0%Z by lia. ring.
Qed.

Lemma sin_eq_0_half (x : R) :
  - PI <= x <= PI -> sin x = 0 -> x = 0 \/ x = PI \/ x = - PI.
Proof.
  intros [H1 H2] H. pose proof PI_RGT_0 as Hpi.
  destruct (sin_eq_0_0 _ H) as [k Hk]. subst x.
  assert (Hlo : (-2 < k)%Z) by (apply lt_IZR; nra).
  assert (Hhi : (k < 2)%Z) by (apply lt_IZR; nra).
  assert (Hk : (k = 0 \/ k = 1 \/ k = -1)%Z) by lia.
  destruct Hk as [-> | [-> | ->]]; [left | right; left | right; right]; ring.
Qed.

Lemma cos_eq_0_quarter (x : R) :
  - (PI / 2) <= x <= PI / 2 -> cos x = 0 -> x = PI / 2 \/ x = - (PI / 2).
Proof.
  intros [H1 H2] H. pose proof PI_RGT_0 as Hpi.
  destruct (cos_eq_0_0 _ H) as [k Hk]. subst x.
  assert (Hlo : (-2 < k)%Z) by (apply lt_IZR; nra).
  assert (Hhi : (k < 1)%Z) by (apply lt_IZR; nra).
  assert (Hk : (k = 0 \/ k = -1)%Z) by lia.
  destruct Hk as [-> | ->]; [left | right]; field.
Qed.

Lemma deg2rad_eq (d r : R) : deg2rad d = r * PI -> d = 180 * r.
Proof.
  unfold deg2rad. pose proof PI_RGT_0 as Hpi. intros H.
  assert (E : d * PI = 180 * r * PI) by (field_simplify in H; lra).
  apply Rmult_eq_reg_r with PI; lra.
Qed.

Lemma hav_eq_0 lat1 lon1 lat2 lon2 :
  valid_lat lat1 -> valid_lon lon1 -> valid_lat lat2 -> valid_lon lon2 ->
  hav lat1 lon1 lat2 lon2 = 0 -> same_point lat1 lon1 lat2 lon2.
Proof.
  intros V1 W1 V2 W2 H. unfold hav in H. pose proof PI_RGT_0 as Hpi.
  pose proof (cos_lat_nonneg _ V1) as C1. pose proof (cos_lat_nonneg _ V2) as C2.
  set (s := sin (deg2rad (lat2 - lat1) / 2)) in *.
  set (t := sin (deg2rad (lon2 - lon1) / 2)) in *.
  set (c1 := cos (deg2rad lat1)) in *. set (c2 := cos (deg2rad lat2)) in *.
  assert (Hss : 0 <= s * s) by nra.
  assert (Htt : 0 <= t * t) by nra.
  assert (Hcc : 0 <= c1 * c2) by nra.
  assert (Hct : 0 <= c1 * c2 * (t * t)) by nra.
  assert (Hs0 : s * s = 0) by nra.
  assert (Hp : c1 * c2 * (t * t) = 0) by nra.
  assert (Hs : s = 0) by nra.
  assert (Hlat : lat1 = lat2).
  { unfold s in Hs. apply sin_eq_0_quarter in Hs.
    - assert (E : deg2rad (lat2 - lat1) = 0 * PI) by lra.
      apply deg2rad_eq in E. lra.
    - unfold valid_lat, deg2rad in *. split; nra. }
  split; [exact Hlat |].
  destruct (Rmult_integral _ _ Hp) as [Hc | Ht].
  - assert (Hc1 : c1 = 0).
    { destruct (Rmult_integral _ _ Hc) as [Hc1 | Hc2]; [exact Hc1 |].
      unfold c1. rewrite Hlat. exact Hc2. }
    unfold c1 in Hc1. apply cos_eq_0_quarter in Hc1; [| now apply deg2rad_lat].
    destruct Hc1 as [E | E].
    + right; right; right; left.
      assert (E' : deg2rad lat1 = / 2 * PI) by lra. apply deg2rad_eq in E'. lra.
    + right; right; right; right.
      assert (E' : deg2rad lat1 = - / 2 * PI) by lra. apply deg2rad_eq in E'. lra.
  - assert (Ht0 : t = 0) by nra.
    unfold t in Ht0. apply sin_eq_0_half in Ht0.
    + destruct Ht0 as [E | [E | E]].
      * left. assert (E' : deg2rad (lon2 - lon1) = 0 * PI) by lra.
        apply deg2rad_eq in E'. lra.
      * right; left. assert (E' : deg2rad (lon2 - lon1) = 2 * PI) by lra.
        apply deg2rad_eq in E'. lra.
      * right; right; left. assert (E' : deg2rad (lon2 - lon1) = -2 * PI) by lra.
        apply deg2rad_eq in E'. lra.
    + unfold valid_lon, deg2rad in *. split; nra.
Qed.

Lemma same_point_hav lat1 lon1 lat2 lon2 :
  same_point lat1 lon1 lat2 lon2 -> hav lat1 lon1 lat2 lon2 = 0.
Proof.
  intros [Hlat H]. subst lat2. unfold hav.
  replace (deg2rad (lat1 - lat1) / 2) with 0 by (unfold deg2rad; field).
  rewrite sin_0.
  destruct H as [E | [E | [E | [E | E]]]].
  - subst lon2. replace (deg2rad (lon1 - lon1) / 2) with 0 by (unfold deg2rad; field).
    rewrite sin_0. ring.
  - rewrite E. replace (deg2rad 360 / 2) with PI by (unfold deg2rad; field).
    rewrite sin_PI. ring.
  - rewrite E. replace (deg2rad (-360) / 2) with (- PI) by (unfold deg2rad; field).
    rewrite sin_neg, sin_PI. ring.
  - subst lat1. replace (deg2rad 90) with (PI / 2) by (unfold deg2rad; field).
    rewrite cos_PI2. ring.
  - subst lat1. replace (deg2rad (-90)) with (- (PI / 2)) by (unfold deg2rad; field).
    rewrite cos_neg, cos_PI2. ring.
Qed.


Lemma getDistance_of_hav_0 lat1 lon1 lat2 lon2 :
  hav lat1 lon1 lat2 lon2 = 0 -> getDistanceFromLatLonInKm lat1 lon1 lat2 lon2 = 0.
Proof.
  intros H. rewrite getDistance_hav, H, sqrt_0.
  assert (E : Math_atan2 0 (sqrt (1 - 0)) = 0).
  { apply Math_atan2_eq_0; [lra | apply sqrt_pos | reflexivity]. }
  rewrite E. ring.
Qed.

Lemma getDistance_same (lat lon : R) : getDistanceFromLatLonInKm lat lon lat lon = 0.
Proof.
  apply getDistance_of_hav_0, same_point_hav. split; [reflexivity | now left].
Qed.


Lemma getDistance_range lat1 lon1 lat2 lon2 :
  valid_lat lat1 -> valid_lat lat2 ->
  0 <= getDistanceFromLatLonInKm lat1 lon1 lat2 lon2 <= PI * 6371.
Proof.
  intros V1 V2. rewrite getDistance_hav.
  pose proof (Math_atan2_quadrant1 _ _ (sqrt_pos (hav lat1 lon1 lat2 lon2))
                (sqrt_pos (1 - hav lat1 lon1 lat2 lon2))) as B.
  lra.
Qed.

Lemma getDistance_eq_0 lat1 lon1 lat2 lon2 :
  valid_lat lat1 -> valid_lon lon1 -> valid_lat lat2 -> valid_lon lon2 ->
  (getDistanceFromLatLonInKm lat1 lon1 lat2 lon2 = 0 <->
   same_point lat1 lon1 lat2 lon2).
Proof.
  intros V1 W1 V2 W2. split.
  - intros H. rewrite getDistance_hav in H.
    assert (E : Math_atan2 (sqrt (hav lat1 lon1 lat2 lon2))
                  (sqrt (1 - hav lat1 lon1 lat2 lon2)) = 0) by lra.
    apply Math_atan2_eq_0 in E; [| apply sqrt_pos | apply sqrt_pos].
    apply sqrt_eq_0 in E; [| now apply hav_nonneg].
    now apply hav_eq_0.
  - intros H. now apply getDistance_of_hav_0, same_point_hav.
Qed.


Lemma Math_trunc_nonneg (x : R) : 0 <= x -> Math_trunc x = Math_floor x.
Proof.
  intros H. unfold Math_trunc. destruct (Rle_dec 0 x); [reflexivity | contradiction].
Qed.

(** The remainder by 360 of a number of [180, 540] is in [0, 360). *)
Lemma js_rem_360 (v : R) : 180 <= v <= 540 -> 0 <= js_rem v 360 < 360.
Proof.
  intros [H1 H2]. unfold js_rem.
  rewrite Math_trunc_nonneg by (unfold Rdiv; lra).
  destruct (Rlt_dec v 360) as [Hv | Hv].
  - rewrite (Math_floor_unique _ 0%Z) by (simpl; unfold Rdiv; lra). simpl. lra.
  - rewrite (Math_floor_unique _ 1%Z) by (simpl; unfold Rdiv; lra). simpl. lra.
Qed.

Lemma Math_round_range (q : R) : 0 <= q < 8 -> (0 <= Math_round q <= 8)%Z.
Proof.
  intros [H1 H2]. unfold Math_round.
  destruct (Math_floor_spec (q + / 2)) as [F1 F2].
  split.
  - assert (H : (-1 < Math_floor (q + / 2))%Z) by (apply lt_IZR; simpl; lra). lia.
  - assert (H : (Math_floor (q + / 2) < 9)%Z) by (apply lt_IZR; simpl; lra). lia.
Qed.

Lemma compass_total (i : Z) :
  (0 <= i <= 8)%Z -> exists l, array_get compass i = Some l /\ In l labels.
Proof.
  intros H.
  assert (E : (i = 0 \/ i = 1 \/ i = 2 \/ i = 3 \/ i = 4 \/ i = 5 \/ i = 6 \/
               i = 7 \/ i = 8)%Z) by lia.
  repeat (destruct E as [-> | E]); try subst i;
    (eexists; split; [reflexivity | simpl; tauto]).
Qed.

Lemma getDirection_index (brng : R) :
  - PI <= brng <= PI ->
  (0 <= Math_round (js_rem (brng * 180 / PI + 360) 360 / 45) <= 8)%Z.
Proof.
  intros [H1 H2]. pose proof PI_RGT_0 as Hpi.
  apply Math_round_range.
  assert (D : -180 <= brng * 180 / PI <= 180).
  { split.
    - apply Rmult_le_reg_r with PI; [exact Hpi |]. field_simplify; lra.
    - apply Rmult_le_reg_r with PI; [exact Hpi |]. field_simplify; lra. }
  pose proof (js_rem_360 (brng * 180 / PI + 360)) as B.
  unfold Rdiv at 1 3. lra.
Qed.

Lemma getDirection_total lat1 lon1 lat2 lon2 :
  exists l, getDirection lat1 lon1 lat2 lon2 = Some l /\ In l labels.
Proof.
  unfold getDirection. apply compass_total, getDirection_index, Math_atan2_bound.
Qed.

Lemma Math_atan2_0_0 : Math_atan2 0 0 = 0.
Proof.
  unfold Math_atan2.
  destruct (Rlt_dec 0 0) as [H | _]; [lra | reflexivity].
Qed.

Lemma getDirection_same (lat lon : R) : getDirection lat lon lat lon = Some "N"%string.
Proof.
  unfold getDirection. pose proof PI_RGT_0 as Hpi.
  replace (deg2rad (lon - lon)) with 0 by (unfold deg2rad; ring).
  rewrite sin_0, cos_0.
  replace (0 * cos (deg2rad lat)) with 0 by ring.
  replace (cos (deg2rad lat) * sin (deg2rad lat)
           - sin (deg2rad lat) * cos (deg2rad lat) * 1) with 0 by ring.
  rewrite Math_atan2_0_0.
  replace (0 * 180 / PI + 360) with 360 by (field; lra).
  assert (E : js_rem 360 360 = 0).
  { unfold js_rem. rewrite Math_trunc_nonneg by (unfold Rdiv; lra).
    rewrite (Math_floor_unique _ 1%Z) by (simpl; unfold Rdiv; lra). simpl. ring. }
  rewrite E. replace (0 / 45) with 0 by field.
  unfold Math_round. rewrite (Math_floor_unique _ 0%Z) by (simpl; lra).
  reflexivity.
Qed.





(** C5.  Whatever [atan2] returns, the index [getDirection] computes from
    it is one of 0..8, inside the nine-entry table; so [getDirection]
    returns one of the eight labels for every input, valid positions
    included.  For two identical points the angle is [atan2 0 0 = 0] and
    the label is N. *)
Theorem getDirection_label lat1 lon1 lat2 lon2 :
  (forall y x,
     (0 <= Math_round (js_rem (Math_atan2 y x * 180 / PI + 360) 360 / 45)
      < Z.of_nat (List.length compass))%Z) /\
  (exists l, getDirection lat1 lon1 lat2 lon2 = Some l /\ In l labels) /\
  getDirection lat1 lon1 lat1 lon1 = Some "N"%string.
Proof.
  split; [| split; [apply getDirection_total | apply getDirection_same]].
  intros y x. pose proof (getDirection_index _ (Math_atan2_bound y x)) as H.
  simpl. lia.
Qed.

End UtilsFacts.

(** ** Binary64 arithmetic *)

Module FloatFacts.
Import Floats.
Import FloatRange.
Local Open Scope Z_scope.

(** *** On the specification of binary64 *)

Lemma binary_round_aux_negb s m e l :
  binary_round_aux prec emax (negb s) m e l =
  SFopp (binary_round_aux prec emax s m e l).
Proof.
  unfold binary_round_aux.
  destruct (shr_fexp prec emax m e l) as [mrs' e'].
  destruct (shr_fexp prec emax
              (round_nearest_even (shr_m mrs') (loc_of_shr_record mrs')) e' loc_Exact)
    as [mrs'' e''].
  destruct (shr_m mrs''); try reflexivity.
  now destruct (Z.leb e'' (Z.sub emax prec)).
Qed.

Lemma binary_round_true m e :
  binary_round prec emax true m e = SFopp (binary_round prec emax false m e).
Proof.
  unfold binary_round.
  destruct (shl_align m e (fexp prec emax (Z.pos (digits2_pos m) + e))) as [mz ez].
  apply (binary_round_aux_negb false).
Qed.

Lemma SFopp_involutive x : SFopp (SFopp x) = x.
Proof. destruct x; simpl; now rewrite ?negb_involutive. Qed.

Lemma SFmul_comm x y : SFmul prec emax x y = SFmul prec emax y x.
Proof.
  destruct x as [sx | sx | | sx mx ex], y as [sy | sy | | sy my ey]; simpl;
    try reflexivity; try (now rewrite xorb_comm).
  now rewrite xorb_comm, Pos.mul_comm, Z.add_comm.
Qed.

Lemma SFmul_opp_l x y :
  SFmul prec emax (SFopp x) y = SFopp (SFmul prec emax x y).
Proof.
  destruct x as [sx | sx | | sx mx ex], y as [sy | sy | | sy my ey]; simpl;
    try reflexivity; rewrite <- negb_xorb_l; try reflexivity.
  apply binary_round_aux_negb.
Qed.

Lemma SFdiv_opp_l x y :
  SFdiv prec emax (SFopp x) y = SFopp (SFdiv prec emax x y).
Proof.
  destruct x as [sx | sx | | sx mx ex], y as [sy | sy | | sy my ey]; simpl;
    try reflexivity; rewrite <- negb_xorb_l; try reflexivity.
  destruct (SFdiv_core_binary prec emax (Z.pos mx) ex (Z.pos my) ey) as [[mz ez] lz].
  apply binary_round_aux_negb.
Qed.

(** [x - y] is the opposite of [y - x], unless both are [+0]. *)
Lemma SFsub_swap x y :
  SFsub prec emax x y = SFopp (SFsub prec emax y x) \/
  (SFsub prec emax x y = S754_zero false /\ SFsub prec emax y x = S754_zero false).
Proof.
  destruct x as [sx | sx | | sx mx ex], y as [sy | sy | | sy my ey]; simpl;
    try (left; reflexivity);
    try (destruct sx, sy; simpl; auto; fail).
  rewrite (Z.min_comm ey ex).
  set (A := cond_Zopp sx (Z.pos (fst (shl_align mx ex (Z.min ex ey))))).
  set (B := cond_Zopp sy (Z.pos (fst (shl_align my ey (Z.min ex ey))))).
  replace (B - A) with (- (A - B)) by ring.
  destruct (A - B) as [| p | p]; simpl.
  - now right.
  - left. now rewrite binary_round_true, SFopp_involutive.
  - left. apply binary_round_true.
Qed.

Lemma SFsub_diag x :
  match x with S754_zero _ | S754_finite _ _ _ => True | _ => False end ->
  SFsub prec emax x x = S754_zero false.
Proof.
  destruct x as [s | s | | s m e]; simpl; try contradiction; intros _.
  - now destruct s.
  - now rewrite Z.sub_diag.
Qed.

(** *** No overflow *)

Lemma shr_1_bounds mrs :
  0 <= shr_m mrs -> 0 <= shr_m (shr_1 mrs) <= shr_m mrs.
Proof.
  destruct mrs as [m r s]. simpl. intros H.
  destruct m as [| p | p]; [simpl; lia | | lia].
  destruct p; simpl; lia.
Qed.

Lemma iter_shr_1_bounds n : forall mrs,
  0 <= shr_m mrs -> 0 <= shr_m (iter_pos shr_1 n mrs) <= shr_m mrs.
Proof.
  induction n as [n IH | n IH |]; intros mrs H; simpl.
  - pose proof (shr_1_bounds mrs H) as H1.
    pose proof (IH _ (proj1 H1)) as H2.
    pose proof (IH _ (proj1 H2)) as H3. lia.
  - pose proof (IH _ H) as H2.
    pose proof (IH _ (proj1 H2)) as H3. lia.
  - now apply shr_1_bounds.
Qed.

Lemma shr_bounds mrs e n :
  0 <= shr_m mrs ->
  0 <= shr_m (fst (shr mrs e n)) <= shr_m mrs /\
  snd (shr mrs e n) = e + Z.max 0 n.
Proof.
  intros H. destruct n as [| p | p]; simpl; try (split; lia).
  split; [now apply iter_shr_1_bounds | lia].
Qed.

Lemma digits2_pos_size p : digits2_pos p = Pos.size p.
Proof. induction p; simpl; now rewrite ?IHp. Qed.

Lemma Zdigits2_log2 m : 0 < m -> Zdigits2 m = Z.log2 m + 1.
Proof.
  destruct m as [| p | p]; try lia. intros _. simpl.
  rewrite digits2_pos_size. destruct p; simpl; lia.
Qed.

Lemma Zdigits2_nonneg m : 0 <= Zdigits2 m.
Proof. destruct m; simpl; lia. Qed.

Lemma Zdigits2_le a b : 0 <= a <= b -> Zdigits2 a <= Zdigits2 b.
Proof.
  intros [Ha Hab]. destruct (Z.eq_dec a 0) as [-> | Hne].
  - apply Zdigits2_nonneg.
  - rewrite !Zdigits2_log2 by lia.
    pose proof (Z.log2_le_mono a b Hab). lia.
Qed.

Lemma Zdigits2_succ a : 0 <= a -> Zdigits2 (a + 1) <= Zdigits2 a + 1.
Proof.
  intros Ha. destruct (Z.eq_dec a 0) as [-> | Hne]; [simpl; lia |].
  rewrite !Zdigits2_log2 by lia.
  pose proof (Z.log2_succ_le a). unfold Z.succ in *. lia.
Qed.

Lemma Zdigits2_mul a b :
  0 < a -> 0 < b -> Zdigits2 (a * b) <= Zdigits2 a + Zdigits2 b.
Proof.
  intros Ha Hb. rewrite !Zdigits2_log2 by nia.
  pose proof (Z.log2_mul_above a b). lia.
Qed.

Lemma round_nearest_even_bounds m l :
  m <= round_nearest_even m l <= m + 1.
Proof.
  destruct l as [| c]; simpl; [lia |].
  destruct c; [destruct (Z.even m) | |]; lia.
Qed.

Lemma binary_round_aux_finite s m e l :
  0 < m -> Zdigits2 m <= 200 -> Zdigits2 m + e <= 500 ->
  SFfinite (binary_round_aux prec emax s m e l).
Proof.
  intros Hm Hd He. unfold binary_round_aux, shr_fexp.
  assert (H0 : 0 <= shr_m (shr_record_of_loc m l)).
  { destruct l as [| []]; simpl; lia. }
  assert (Hm0 : shr_m (shr_record_of_loc m l) = m).
  { destruct l as [| []]; reflexivity. }
  pose proof (shr_bounds (shr_record_of_loc m l) e
                (fexp prec emax (Zdigits2 m + e) - e) H0) as [B1 E1].
  destruct (shr (shr_record_of_loc m l) e (fexp prec emax (Zdigits2 m + e) - e))
    as [mrs1 e1]. simpl in B1, E1.
  set (m1 := round_nearest_even (shr_m mrs1) (loc_of_shr_record mrs1)).
  pose proof (round_nearest_even_bounds (shr_m mrs1) (loc_of_shr_record mrs1)) as Hr.
  fold m1 in Hr.
  assert (H1 : 0 <= shr_m (shr_record_of_loc m1 loc_Exact)) by (simpl; lia).
  pose proof (shr_bounds (shr_record_of_loc m1 loc_Exact) e1
                (fexp prec emax (Zdigits2 m1 + e1) - e1) H1) as [B2 E2].
  destruct (shr (shr_record_of_loc m1 loc_Exact) e1
              (fexp prec emax (Zdigits2 m1 + e1) - e1)) as [mrs2 e2].
  simpl in B2, E2.
  destruct (shr_m mrs2) as [| p | p] eqn:Ep; [exact I | | lia].
  assert (Hd1 : Zdigits2 m1 <= Zdigits2 m + 1).
  { transitivity (Zdigits2 (shr_m mrs1 + 1)).
    - apply Zdigits2_le. lia.
    - transitivity (Zdigits2 (m + 1)).
      + apply Zdigits2_le. lia.
      + apply Zdigits2_succ. lia. }
  pose proof (Zdigits2_nonneg m) as Hn. pose proof (Zdigits2_nonneg m1) as Hn1.
  unfold fexp, SpecFloat.emin, emax, prec in *.
  destruct (Z.leb_spec e2 (1024 - 53)); [exact I | lia].
Qed.

Lemma valid_finite_bounds s m e :
  valid_binary (S754_finite s m e) = true ->
  Zdigits2 (Z.pos m) <= 53 /\ -1074 <= e <= 971.
Proof.
  unfold SpecFloat.valid_binary, bounded, canonical_mantissa, fexp, SpecFloat.emin,
    emax, prec.
  rewrite andb_true_iff, Z.eqb_eq, Z.leb_le. simpl Zdigits2. lia.
Qed.

Lemma SFmul_finite a b x y :
  valid_binary x = true -> valid_binary y = true ->
  SFbelow a x -> SFbelow b y -> a + b <= 500 ->
  SFfinite (SFmul prec emax x y).
Proof.
  intros Vx Vy.
  destruct x as [sx | sx | | sx mx ex], y as [sy | sy | | sy my ey];
    cbn [SFbelow SFmul SFfinite]; try contradiction; try (intros; exact I).
  intros Ha Hb Hab.
  apply valid_finite_bounds in Vx, Vy.
  pose proof (Zdigits2_mul (Z.pos mx) (Z.pos my) ltac:(lia) ltac:(lia)) as Hd.
  change (Z.pos (mx * my)) with (Z.pos mx * Z.pos my).
  apply binary_round_aux_finite; [nia | lia | lia].
Qed.

Lemma SFleb_below x m0 e0 :
  valid_binary x = true ->
  SFleb (SFabs x) (S754_finite false m0 e0) = true ->
  SFbelow (53 + e0) x.
Proof.
  intros V. destruct x as [s | s | | s m e]; cbn [SFabs SFbelow];
    try discriminate; auto.
  apply valid_finite_bounds in V. unfold SFleb, SFcompare.
  destruct (Z.compare_spec e e0); try discriminate; lia.
Qed.


(** *** On the primitive floats *)

Lemma Prim2SF_zero : Prim2SF 0%float = S754_zero false.
Proof. reflexivity. Qed.

Lemma mul_comm x y : (x * y = y * x)%float.
Proof. apply Prim2SF_inj. rewrite !mul_spec. apply SFmul_comm. Qed.

Lemma mul_opp_l x y : ((- x) * y = - (x * y))%float.
Proof.
  apply Prim2SF_inj. rewrite opp_spec, !mul_spec, opp_spec. apply SFmul_opp_l.
Qed.

Lemma mul_opp_r x y : (x * (- y) = - (x * y))%float.
Proof. now rewrite mul_comm, mul_opp_l, (mul_comm y x). Qed.

Lemma div_opp_l x y : ((- x) / y = - (x / y))%float.
Proof.
  apply Prim2SF_inj. rewrite opp_spec, !div_spec, opp_spec. apply SFdiv_opp_l.
Qed.

Lemma opp_involutive x : (- - x = x)%float.
Proof. apply Prim2SF_inj. rewrite !opp_spec. apply SFopp_involutive. Qed.

Lemma sub_swap x y :
  (x - y = - (y - x))%float \/ ((x - y = 0)%float /\ (y - x = 0)%float).
Proof.
  destruct (SFsub_swap (Prim2SF x) (Prim2SF y)) as [H | [H1 H2]].
  - left. apply Prim2SF_inj. now rewrite opp_spec, !sub_spec.
  - right. split; apply Prim2SF_inj; now rewrite sub_spec, Prim2SF_zero.
Qed.

Lemma sub_diag x : SFfinite (Prim2SF x) -> (x - x = 0)%float.
Proof.
  intros H. apply Prim2SF_inj. rewrite sub_spec, Prim2SF_zero.
  apply SFsub_diag. now destruct (Prim2SF x).
Qed.

Lemma SFcompare_refl_finite s m e :
  SFcompare (S754_finite s m e) (S754_finite s m e) = Some Eq.
Proof.
  unfold SFcompare. rewrite Z.compare_refl.
  assert (H : Pos.compare_cont Eq m m = Eq) by apply Pos.compare_refl.
  rewrite H. now destruct s.
Qed.

Lemma is_finite_SF x : SFfinite (Prim2SF x) -> is_finite x = true.
Proof.
  unfold is_finite, is_nan, is_infinity. rewrite !eqb_spec, abs_spec.
  change (Prim2SF infinity) with (S754_infinity false).
  destruct (Prim2SF x) as [s | s | | s m e]; try contradiction; intros _.
  - reflexivity.
  - unfold SFeqb. now rewrite SFcompare_refl_finite.
Qed.

(** A value between [- c] and [c], for a positive [c], is finite and below
    the power of two above [c]. *)
Lemma SFbetween_below x m0 e0 :
  valid_binary x = true ->
  SFleb (S754_finite true m0 e0) x = true ->
  SFleb x (S754_finite false m0 e0) = true ->
  SFbelow (53 + e0) x.
Proof.
  intros V. destruct x as [s | s | | s m e]; cbn [SFbelow];
    try discriminate; auto.
  - destruct s; discriminate.
  - apply valid_finite_bounds in V. unfold SFleb, SFcompare.
    destruct s.
    + intros H _. revert H. destruct (Z.compare_spec e0 e); try discriminate; lia.
    + intros _. destruct (Z.compare_spec e e0); try discriminate; lia.
Qed.

Lemma SFbelow_finite k x : SFbelow k x -> SFfinite x.
Proof. now destruct x. Qed.

Lemma valid_lat_below lat :
  Double.valid_lat lat = true -> SFbelow 7 (Prim2SF lat).
Proof.
  unfold Double.valid_lat. rewrite andb_true_iff, !leb_spec. intros [H1 H2].
  apply (SFbetween_below _ 6333186975989760 (-46));
    [apply Prim2SF_valid | exact H1 | exact H2].
Qed.

Lemma valid_lon_below lon :
  Double.valid_lon lon = true -> SFbelow 8 (Prim2SF lon).
Proof.
  unfold Double.valid_lon. rewrite andb_true_iff, !leb_spec. intros [H1 H2].
  apply (SFbetween_below _ 6333186975989760 (-45));
    [apply Prim2SF_valid | exact H1 | exact H2].
Qed.

Lemma deg2rad_finite k deg :
  k <= 100 -> SFbelow k (Prim2SF deg) -> is_finite (Double.deg2rad deg) = true.
Proof.
  intros Hk H. apply is_finite_SF. unfold Double.deg2rad. rewrite mul_spec.
  apply (SFmul_finite k (-5)); try apply Prim2SF_valid; [exact H | | lia].
  change (Prim2SF (Double.PI / 180)) with (S754_finite false 5030569068109113 (-58)).
  simpl. lia.
Qed.

(** *** Signs *)

Lemma binary_round_aux_sign m e l :
  SFnan_or_ge0 (binary_round_aux prec emax false m e l).
Proof.
  unfold binary_round_aux.
  destruct (shr_fexp prec emax m e l) as [mrs' e'].
  destruct (shr_fexp prec emax
              (round_nearest_even (shr_m mrs') (loc_of_shr_record mrs')) e' loc_Exact)
    as [mrs'' e''].
  destruct (shr_m mrs''); try exact I.
  now destruct (Z.leb e'' (Z.sub emax prec)).
Qed.

Lemma SFsqrt_sign x : SFnan_or_ge0 (SFsqrt prec emax x).
Proof.
  destruct x as [s | s | | s m e]; cbn [SFsqrt SFnan_or_ge0]; try exact I.
  - now destruct s.
  - destruct s; [exact I |].
    destruct (SFsqrt_core_binary prec emax (Z.pos m) e) as [[mz ez] lz].
    apply binary_round_aux_sign.
Qed.

Lemma SFmul_pos_sign m e x :
  SFnan_or_ge0 x -> SFnan_or_ge0 (SFmul prec emax (S754_finite false m e) x).
Proof.
  destruct x as [s | s | | s mx ex]; cbn [SFmul SFnan_or_ge0]; try exact (fun _ => I).
  - now intros ->.
  - intros ->. apply binary_round_aux_sign.
Qed.

Lemma nan_or_ge0_SF x :
  SFnan_or_ge0 (Prim2SF x) -> is_nan x = true \/ (0 <=? x)%float = true.
Proof.
  unfold is_nan. rewrite eqb_spec, leb_spec, Prim2SF_zero.
  destruct (Prim2SF x) as [s | s | | s m e]; cbn [SFnan_or_ge0].
  - intros _. right. now destruct s.
  - intros ->. now right.
  - intros _. now left.
  - intros ->. now right.
Qed.

Lemma SF_nan_or_ge0 x :
  is_nan x = true \/ (0 <=? x)%float = true -> SFnan_or_ge0 (Prim2SF x).
Proof.
  unfold is_nan. rewrite eqb_spec, leb_spec, Prim2SF_zero.
  destruct (Prim2SF x) as [s | s | | s m e]; cbn [SFnan_or_ge0];
    try (intros _; exact I).
  - destruct s; [| reflexivity]. intros [H | H]; discriminate H.
  - destruct s; [| reflexivity]. intros [H | H]; [| discriminate H].
    unfold SFeqb in H. rewrite SFcompare_refl_finite in H. discriminate H.
Qed.

End FloatFacts.

Module FloatBounds.
Import Floats.
Import FloatRange FloatFacts.
Local Open Scope Z_scope.

Lemma shr_1_m mrs : 0 <= shr_m mrs -> shr_m (shr_1 mrs) = Z.div2 (shr_m mrs).
Proof.
  destruct mrs as [m r s]. simpl. intros H.
  destruct m as [| p | p]; [reflexivity | | lia]. now destruct p.
Qed.

Lemma iter_shr_1_m n : forall mrs,
  0 <= shr_m mrs ->
  shr_m (iter_pos shr_1 n mrs) = Z.shiftr (shr_m mrs) (Z.pos n).
Proof.
  induction n as [n IH | n IH |]; intros mrs H; simpl iter_pos.
  - pose proof (shr_1_bounds mrs H) as H1.
    pose proof (iter_shr_1_bounds n _ (proj1 H1)) as H2.
    rewrite IH by apply H2. rewrite IH by apply H1.
    rewrite shr_1_m by exact H. rewrite Z.div2_spec.
    rewrite !Z.shiftr_shiftr by lia. f_equal. lia.
  - pose proof (iter_shr_1_bounds n _ H) as H2.
    rewrite IH by apply H2. rewrite IH by exact H.
    rewrite !Z.shiftr_shiftr by lia. f_equal. lia.
  - rewrite shr_1_m by exact H. apply Z.div2_spec.
Qed.

Lemma shr_shiftr mrs e k :
  0 <= shr_m mrs ->
  shr_m (fst (shr mrs e k)) = Z.shiftr (shr_m mrs) (Z.max 0 k) /\
  snd (shr mrs e k) = e + Z.max 0 k.
Proof.
  intros H. destruct k as [| p | p]; simpl shr; simpl fst; simpl snd.
  - split; [now rewrite Z.shiftr_0_r | lia].
  - rewrite iter_shr_1_m by exact H. split; [f_equal; lia | lia].
  - split; [now rewrite Z.shiftr_0_r | lia].
Qed.

(** What rounding an exact positive value gives: the mantissa shifted to
    the format, plus at most one, and shifted once more after a carry. *)
Lemma binary_round_aux_shape n E :
  0 < n ->
  exists m1,
    Z.shiftr n (Z.max 0 (fexp prec emax (Zdigits2 n + E) - E)) <= m1 /\
    m1 <= Z.shiftr n (Z.max 0 (fexp prec emax (Zdigits2 n + E) - E)) + 1 /\
    binary_round_aux prec emax false n E loc_Exact =
    match Z.shiftr m1
            (Z.max 0 (fexp prec emax
                        (Zdigits2 m1 + (E + Z.max 0 (fexp prec emax (Zdigits2 n + E) - E)))
                      - (E + Z.max 0 (fexp prec emax (Zdigits2 n + E) - E)))) with
    | Z0 => S754_zero false
    | Z.pos m =>
      if E + Z.max 0 (fexp prec emax (Zdigits2 n + E) - E)
         + Z.max 0 (fexp prec emax
                      (Zdigits2 m1 + (E + Z.max 0 (fexp prec emax (Zdigits2 n + E) - E)))
                    - (E + Z.max 0 (fexp prec emax (Zdigits2 n + E) - E)))
         <=? emax - prec
      then S754_finite false m
             (E + Z.max 0 (fexp prec emax (Zdigits2 n + E) - E)
              + Z.max 0 (fexp prec emax
                           (Zdigits2 m1 + (E + Z.max 0 (fexp prec emax (Zdigits2 n + E) - E)))
                         - (E + Z.max 0 (fexp prec emax (Zdigits2 n + E) - E))))
      else S754_infinity false
    | Z.neg _ => S754_nan
    end.
Proof.
  intros Hn. unfold binary_round_aux, shr_fexp.
  set (k1 := fexp prec emax (Zdigits2 n + E) - E).
  assert (H0 : 0 <= shr_m (shr_record_of_loc n loc_Exact)) by (simpl; lia).
  destruct (shr_shiftr (shr_record_of_loc n loc_Exact) E k1 H0) as [M1 E1].
  destruct (shr (shr_record_of_loc n loc_Exact) E k1) as [mrs1 e1].
  simpl in M1, E1. subst e1.
  set (m1 := round_nearest_even (shr_m mrs1) (loc_of_shr_record mrs1)).
  pose proof (round_nearest_even_bounds (shr_m mrs1) (loc_of_shr_record mrs1)) as Hr.
  fold m1 in Hr. rewrite M1 in Hr.
  exists m1. split; [apply Hr |]. split; [apply Hr |].
  set (k2 := fexp prec emax (Zdigits2 m1 + (E + Z.max 0 k1)) - (E + Z.max 0 k1)).
  assert (Hs : 0 <= Z.shiftr n (Z.max 0 k1)) by (apply Z.shiftr_nonneg; lia).
  assert (H1 : 0 <= shr_m (shr_record_of_loc m1 loc_Exact)) by (simpl; lia).
  destruct (shr_shiftr (shr_record_of_loc m1 loc_Exact) (E + Z.max 0 k1) k2 H1)
    as [M2 E2].
  destruct (shr (shr_record_of_loc m1 loc_Exact) (E + Z.max 0 k1) k2) as [mrs2 e2].
  simpl in M2, E2. subst e2. rewrite M2. reflexivity.
Qed.


(** *** Digits *)

Lemma Zdigits2_spec x : 0 < x -> 2 ^ (Zdigits2 x - 1) <= x < 2 ^ Zdigits2 x.
Proof.
  intros H. rewrite Zdigits2_log2 by exact H.
  pose proof (Z.log2_spec x H) as L.
  replace (Z.succ (Z.log2 x)) with (Z.log2 x + 1) in L by lia.
  replace (Z.log2 x + 1 - 1) with (Z.log2 x) by lia. exact L.
Qed.

Lemma Zdigits2_unique x d : 2 ^ (d - 1) <= x < 2 ^ d -> 1 <= d -> Zdigits2 x = d.
Proof.
  intros H Hd.
  assert (Hx : 0 < x).
  { pose proof (Z.pow_pos_nonneg 2 (d - 1) ltac:(lia) ltac:(lia)). lia. }
  rewrite Zdigits2_log2 by exact Hx.
  rewrite (Z.log2_unique x (d - 1)); [lia | lia |].
  replace (Z.succ (d - 1)) with d by lia. exact H.
Qed.

Lemma Zdigits2_shiftr x k :
  0 < x -> 0 <= k -> Zdigits2 (Z.shiftr x k) = Z.max 0 (Zdigits2 x - k).
Proof.
  intros Hx Hk. pose proof (Z.shiftr_nonneg x k) as Hs.
  destruct (Z.eq_dec (Z.shiftr x k) 0) as [E | E].
  - rewrite E. simpl.
    apply Z.shiftr_eq_0_iff in E. destruct E as [E | [_ E]]; [lia |].
    rewrite Zdigits2_log2 by exact Hx. lia.
  - assert (Hl : ~ Z.log2 x < k).
    { intros Hl. apply E. apply Z.shiftr_eq_0; lia. }
    rewrite !Zdigits2_log2 by lia. rewrite Z.log2_shiftr by exact Hx. lia.
Qed.

Lemma Zdigits2_mul_pow2 x j :
  0 < x -> 0 <= j -> Zdigits2 (x * 2 ^ j) = Zdigits2 x + j.
Proof.
  intros Hx Hj.
  assert (0 < 2 ^ j) by (apply Z.pow_pos_nonneg; lia).
  rewrite !Zdigits2_log2 by nia. rewrite Z.log2_mul_pow2 by lia. lia.
Qed.

(** *** Exact results *)

Lemma shr_1_double w r :
  0 <= w ->
  shr_1 {| shr_m := 2 * w; shr_r := false; shr_s := r |} =
  {| shr_m := w; shr_r := false; shr_s := r |}.
Proof. intros H. destruct w as [| p | p]; [reflexivity | reflexivity | lia]. Qed.

Lemma iter_shr_1_exact n : forall w,
  0 <= w ->
  iter_pos shr_1 n {| shr_m := w * 2 ^ Z.pos n; shr_r := false; shr_s := false |} =
  {| shr_m := w; shr_r := false; shr_s := false |}.
Proof.
  induction n as [n IH | n IH |]; intros w Hw.
  - assert (Hp : 0 < 2 ^ Z.pos n) by (apply Z.pow_pos_nonneg; lia).
    replace (w * 2 ^ Z.pos n~1) with (2 * ((w * 2 ^ Z.pos n) * 2 ^ Z.pos n)).
    + cbn [iter_pos]. rewrite shr_1_double by nia. rewrite IH by nia. now apply IH.
    + assert (E : 2 ^ Z.pos n~1 = 2 * (2 ^ Z.pos n * 2 ^ Z.pos n)).
      { rewrite <- Z.pow_add_r, <- Z.pow_succ_r by lia. f_equal. lia. }
      rewrite E. ring.
  - assert (Hp : 0 < 2 ^ Z.pos n) by (apply Z.pow_pos_nonneg; lia).
    replace (w * 2 ^ Z.pos n~0) with ((w * 2 ^ Z.pos n) * 2 ^ Z.pos n).
    + cbn [iter_pos]. rewrite IH by nia. now apply IH.
    + assert (E : 2 ^ Z.pos n~0 = 2 ^ Z.pos n * 2 ^ Z.pos n).
      { rewrite <- Z.pow_add_r by lia. f_equal. lia. }
      rewrite E. ring.
  - rewrite Z.pow_1_r. replace (w * 2) with (2 * w) by ring.
    cbn [iter_pos]. now apply shr_1_double.
Qed.

(** Rounding a value that the format holds gives it back. *)
Lemma binary_round_aux_exact s m e j :
  valid_binary (S754_finite s m e) = true -> 0 <= j ->
  binary_round_aux prec emax s (Z.pos m * 2 ^ j) (e - j) loc_Exact =
  S754_finite s m e.
Proof.
  intros V Hj. pose proof V as V'. apply valid_finite_bounds in V'.
  unfold SpecFloat.valid_binary, bounded, canonical_mantissa in V.
  rewrite andb_true_iff, Z.eqb_eq, Z.leb_le in V. destruct V as [Hc He].
  change (Z.pos (digits2_pos m)) with (Zdigits2 (Z.pos m)) in Hc.
  unfold binary_round_aux, shr_fexp.
  rewrite Zdigits2_mul_pow2 by lia.
  replace (Zdigits2 (Z.pos m) + j + (e - j)) with (Zdigits2 (Z.pos m) + e) by lia.
  rewrite Hc. replace (e - (e - j)) with j by lia.
  assert (Hshr : shr (shr_record_of_loc (Z.pos m * 2 ^ j) loc_Exact) (e - j) j =
                 ({| shr_m := Z.pos m; shr_r := false; shr_s := false |}, e)).
  { destruct j as [| p | p]; [| | lia].
    - simpl. rewrite Pos.mul_1_r. f_equal. lia.
    - cbn [shr shr_record_of_loc]. rewrite iter_shr_1_exact by lia.
      f_equal. lia. }
  rewrite Hshr. cbn [shr_m loc_of_shr_record round_nearest_even].
  rewrite Hc, Z.sub_diag. cbn [shr shr_record_of_loc shr_m].
  destruct (Z.leb_spec e (emax - prec)); [reflexivity | lia].
Qed.


(** *** Upper bounds *)

Lemma SFin_of_leb mB eB x :
  SFleb (S754_zero false) x = true ->
  SFleb x (S754_finite false mB eB) = true ->
  SFin mB eB x.
Proof.
  destruct x as [s | s | | s m e]; cbn [SFin]; try discriminate; auto.
  - destruct s; discriminate.
  - destruct s; [discriminate |]. intros _. unfold SFleb, SFcompare.
    destruct (Z.compare_spec e eB) as [-> | Hlt | Hgt]; try discriminate.
    + intros H. right. split; [reflexivity |].
      change (Pos.compare_cont Eq m mB) with (Pos.compare m mB) in H.
      destruct (Pos.compare_spec m mB); try discriminate; lia.
    + intros _. now left.
Qed.

Lemma SFin_leb mB eB x :
  SFin mB eB x ->
  SFleb (S754_zero false) x = true /\ SFleb x (S754_finite false mB eB) = true.
Proof.
  destruct x as [s | s | | s m e]; cbn [SFin]; try contradiction.
  - intros _. now split.
  - destruct s; [contradiction |]. intros H. split; [reflexivity |].
    unfold SFleb, SFcompare. destruct H as [H | [-> H]].
    + destruct (Z.compare_spec e eB); try reflexivity; lia.
    + rewrite Z.compare_refl.
      change (Pos.compare_cont Eq m mB) with (Pos.compare m mB).
      destruct (Pos.compare_spec m mB); try reflexivity; lia.
Qed.

(** Twice a value that is at most [Math.PI / 2] is at most [Math.PI]:
    doubling is exact. *)
Lemma SFmul_two_in x :
  valid_binary x = true ->
  SFin 7074237752028440 (-52) x ->
  SFin 7074237752028440 (-51)
    (SFmul prec emax (S754_finite false 4503599627370496 (-51)) x).
Proof.
  intros V H. destruct x as [s | s | | s m e]; cbn [SFin SFmul] in *;
    try contradiction; [exact I |].
  destruct s; [contradiction |]. cbn [xorb].
  pose proof V as V'. apply valid_finite_bounds in V'. destruct V' as [Vd Ve].
  unfold SpecFloat.valid_binary, bounded, canonical_mantissa in V.
  rewrite andb_true_iff, Z.eqb_eq, Z.leb_le in V. destruct V as [Hc _].
  change (Z.pos (digits2_pos m)) with (Zdigits2 (Z.pos m)) in Hc.
  unfold fexp, SpecFloat.emin, emax, prec in Hc.
  change (Z.pos (4503599627370496 * m)) with (2 ^ 52 * Z.pos m).
  destruct (Z.eq_dec (Zdigits2 (Z.pos m)) 53) as [D53 | D53].
  - replace (2 ^ 52 * Z.pos m) with (Z.pos m * 2 ^ 52) by ring.
    replace (-51 + e) with (e + 1 - 52) by lia.
    rewrite binary_round_aux_exact; [cbn [SFin]; lia | | lia].
    unfold SpecFloat.valid_binary, bounded, canonical_mantissa.
    change (Z.pos (digits2_pos m)) with (Zdigits2 (Z.pos m)).
    rewrite andb_true_iff, Z.eqb_eq, Z.leb_le.
    unfold fexp, SpecFloat.emin, emax, prec. lia.
  - replace (2 ^ 52 * Z.pos m) with (Z.pos m~0 * 2 ^ 51)
      by (rewrite Pos2Z.inj_xO; change (2 ^ 52) with (2 * 2 ^ 51); ring).
    replace (-51 + e) with (e - 51) by lia.
    rewrite binary_round_aux_exact; [cbn [SFin]; lia | | lia].
    unfold SpecFloat.valid_binary, bounded, canonical_mantissa.
    cbn [digits2_pos]. rewrite Pos2Z.inj_succ.
    change (Z.pos (digits2_pos m)) with (Zdigits2 (Z.pos m)).
    rewrite andb_true_iff, Z.eqb_eq, Z.leb_le.
    unfold fexp, SpecFloat.emin, emax, prec. lia.
Qed.

(** 6371 times a value that is at most [Math.PI] is at most
    [6371 * Math.PI], which is rounded up. *)
Lemma SFmul_radius_in x :
  valid_binary x = true ->
  SFin 7074237752028440 (-51) x ->
  SFin 5501705165792626 (-38)
    (SFmul prec emax (S754_finite false 7004988580560896 (-40)) x).
Proof.
  intros V H. destruct x as [s | s | | s mc ec]; cbn [SFin SFmul] in *;
    try contradiction; [exact I |].
  destruct s; [contradiction |]. cbn [xorb].
  apply valid_finite_bounds in V. destruct V as [Vd Ve].
  change (Z.pos (7004988580560896 * mc)) with (7004988580560896 * Z.pos mc).
  set (n := 7004988580560896 * Z.pos mc).
  set (E := -40 + ec).
  assert (Hn : 0 < n) by (unfold n; lia).
  assert (Hhi : Zdigits2 n <= 53 + Zdigits2 (Z.pos mc)).
  { unfold n.
    pose proof (Zdigits2_mul 7004988580560896 (Z.pos mc) ltac:(lia) ltac:(lia)) as Hd.
    change (Zdigits2 7004988580560896) with 53 in Hd. exact Hd. }
  assert (Hlo : 53 <= Zdigits2 n).
  { change 53 with (Zdigits2 7004988580560896). apply Zdigits2_le. unfold n. lia. }
  destruct (binary_round_aux_shape n E Hn) as (m1 & L1 & L2 & ->).
  set (k1 := Z.max 0 (fexp prec emax (Zdigits2 n + E) - E)) in *.
  set (e1 := E + k1).
  set (k2 := Z.max 0 (fexp prec emax (Zdigits2 m1 + e1) - e1)).
  assert (Hk1 : 0 <= k1) by (unfold k1; lia).
  assert (He1 : e1 = Z.max E (Z.max (Zdigits2 n + E - 53) (-1074))).
  { unfold e1, k1, fexp, SpecFloat.emin, emax, prec. lia. }
  assert (Hk2 : e1 + k2 = Z.max e1 (Z.max (Zdigits2 m1 + e1 - 53) (-1074))).
  { unfold k2, fexp, SpecFloat.emin, emax, prec. lia. }
  assert (Hk2' : 0 <= k2) by (unfold k2; lia).
  pose proof (Z.shiftr_nonneg n k1) as Hs1.
  assert (Hm1 : 0 <= m1) by lia.
  pose proof (Z.shiftr_nonneg m1 k2) as Hs2.
  pose proof (Zdigits2_shiftr n k1 Hn Hk1) as Dn1.
  assert (D1 : Zdigits2 m1 <= Z.max 0 (Zdigits2 n - k1) + 1).
  { rewrite <- Dn1. transitivity (Zdigits2 (Z.shiftr n k1 + 1)).
    - apply Zdigits2_le. lia.
    - apply Zdigits2_succ. lia. }
  destruct (Z.eq_dec (Zdigits2 n + E) 15) as [E15 | NE15].
  - (* the largest binade: the mantissa is at most the one of Math.PI *)
    assert (Hec : ec = -51) by (unfold E in *; lia).
    assert (Hdn : Zdigits2 n = 106) by (unfold E in *; lia).
    assert (Hmc : Z.pos mc <= 7074237752028440) by lia.
    assert (K1 : k1 = 53).
    { unfold k1, fexp, SpecFloat.emin, emax, prec. lia. }
    rewrite K1 in L1, L2.
    assert (B1 : 2 ^ 52 <= Z.shiftr n 53 <= 5501705165792625).
    { rewrite Z.shiftr_div_pow2 by lia. split.
      - apply Z.div_le_lower_bound; [reflexivity |].
        pose proof (Zdigits2_spec n Hn) as Sp. rewrite Hdn in Sp.
        change (2 ^ 53 * 2 ^ 52) with (2 ^ (106 - 1)). lia.
      - change 5501705165792625
          with ((7004988580560896 * 7074237752028440) / 2 ^ 53).
        apply Z.div_le_mono; [reflexivity |]. unfold n. lia. }
    assert (Dm1 : Zdigits2 m1 = 53).
    { apply Zdigits2_unique; [| lia]. change (2 ^ (53 - 1)) with (2 ^ 52).
      change (2 ^ 53) with 9007199254740992. lia. }
    assert (K2 : k2 = 0).
    { unfold k2, e1, fexp, SpecFloat.emin, emax, prec. rewrite Dm1. unfold E. lia. }
    rewrite K2, Z.shiftr_0_r.
    destruct m1 as [| p | p]; [change (2 ^ 52) with 4503599627370496 in B1; lia | | lia].
    destruct (Z.leb_spec (e1 + 0) (emax - prec)) as [_ | Hbad];
      [| unfold emax, prec, E in *; lia].
    cbn [SFin]. right. unfold E in *. split; lia.
  - (* below 2 ^ 14 *)
    assert (Hsum : Zdigits2 n + E <= 14) by (unfold E in *; lia).
    assert (Hle1 : e1 <= -39) by (unfold E in *; lia).
    assert (Hle2 : e1 + k2 <= -38) by lia.
    destruct (Z.shiftr m1 k2) as [| p | p] eqn:Es; [exact I | | lia].
    destruct (Z.leb_spec (e1 + k2) (emax - prec)) as [_ | Hbad];
      [| unfold emax, prec in Hbad; lia].
    cbn [SFin]. destruct (Z.eq_dec (e1 + k2) (-38)) as [E38 | N38]; [| left; lia].
    right. split; [exact E38 |].
    (* a carry: the mantissa is a power of two *)
    assert (Hd1 : Zdigits2 m1 = 15 - e1) by lia.
    assert (Hdn1 : Zdigits2 (Z.shiftr n k1) = Zdigits2 m1 - 1) by lia.
    assert (Hpos1 : 0 < Z.shiftr n k1).
    { destruct (Z.eq_dec (Z.shiftr n k1) 0) as [Z0 | NZ]; [| lia].
      rewrite Z0 in Hdn1. simpl in Hdn1. lia. }
    assert (Hpos : 0 < m1) by lia.
    pose proof (Zdigits2_spec _ Hpos1) as Sp1. rewrite Hdn1 in Sp1.
    pose proof (Zdigits2_spec _ Hpos) as Sp.
    assert (Em1 : m1 = 2 ^ (Zdigits2 m1 - 1)) by lia.
    assert (Ek2 : k2 = Zdigits2 m1 - 53) by lia.
    assert (Ep : Z.pos p = 2 ^ 52).
    { rewrite <- Es, Z.shiftr_div_pow2 by lia. rewrite Em1 at 1.
      rewrite <- Z.pow_sub_r by lia. f_equal. lia. }
    rewrite Ep. change (2 ^ 52) with 4503599627370496. lia.
Qed.

End FloatBounds.

(** ** The distance in double arithmetic *)

Module DoubleFacts.
Import Floats.
Import Double FloatRange FloatFacts.

Section Facts.

Variable M : Engine.
Hypothesis HM : conforming M.

Local Abbreviation getDistance := (getDistanceFromLatLonInKm M).

(** The sine of half an angle given in degrees. *)
Local Abbreviation half_sin d := (sin M (deg2rad d / 2)).

Lemma half_sin_opp d : half_sin (- d) = (- half_sin d)%float.
Proof.
  destruct HM as (_ & Hodd & _).
  unfold deg2rad. now rewrite mul_opp_l, div_opp_l, Hodd.
Qed.

Lemma square_opp s : (- s * - s = s * s)%float.
Proof. now rewrite mul_opp_l, mul_opp_r, opp_involutive. Qed.

Lemma scaled_square_opp p s : (p * - s * - s = p * s * s)%float.
Proof. now rewrite !mul_opp_r, mul_opp_l, opp_involutive. Qed.

Lemma swap_terms p x y :
  (half_sin (x - y) * half_sin (x - y) = half_sin (y - x) * half_sin (y - x))%float /\
  (p * half_sin (x - y) * half_sin (x - y) =
   p * half_sin (y - x) * half_sin (y - x))%float.
Proof.
  destruct (sub_swap x y) as [-> | [-> ->]]; [| now split].
  rewrite half_sin_opp. split; [apply square_opp | apply scaled_square_opp].
Qed.

Lemma getDistance_swap lat1 lon1 lat2 lon2 :
  getDistance lat1 lon1 lat2 lon2 = getDistance lat2 lon2 lat1 lon1.
Proof.
  unfold getDistanceFromLatLonInKm.
  destruct (swap_terms 0 lat2 lat1) as [-> _].
  destruct (swap_terms (cos M (deg2rad lat1) * cos M (deg2rad lat2)) lon2 lon1)
    as [_ ->].
  now rewrite (mul_comm (cos M (deg2rad lat1))).
Qed.

Lemma zero_terms p :
  SFfinite (Prim2SF p) -> (0 * 0 + p * 0 * 0 = 0)%float.
Proof.
  intros H. apply Prim2SF_inj. rewrite add_spec, !mul_spec, Prim2SF_zero.
  destruct (Prim2SF p) as [s | s | | s m e]; try contradiction;
    now destruct s.
Qed.

Lemma cos_product_finite x y :
  is_finite x = true -> is_finite y = true ->
  SFfinite (Prim2SF (cos M x * cos M y)).
Proof.
  destruct HM as (_ & _ & Hcos & _). intros Hx Hy.
  pose proof (Hcos x Hx) as Cx. pose proof (Hcos y Hy) as Cy.
  rewrite leb_spec, abs_spec in Cx, Cy.
  change (Prim2SF 1) with (S754_finite false 4503599627370496 (-52)) in Cx, Cy.
  rewrite mul_spec. apply (SFmul_finite 1 1); try apply Prim2SF_valid; try lia.
  - apply (SFleb_below _ _ _ (Prim2SF_valid _) Cx).
  - apply (SFleb_below _ _ _ (Prim2SF_valid _) Cy).
Qed.

Lemma getDistance_identical lat lon :
  valid_lat lat = true -> valid_lon lon = true ->
  getDistance lat lon lat lon = 0%float.
Proof.
  intros Hlat Hlon. pose proof HM as (Hsin & _ & _ & Hatan & _).
  pose proof (valid_lat_below lat Hlat) as Blat.
  pose proof (valid_lon_below lon Hlon) as Blon.
  unfold getDistanceFromLatLonInKm.
  rewrite (sub_diag lat) by now apply SFbelow_finite with 7%Z.
  rewrite (sub_diag lon) by now apply SFbelow_finite with 8%Z.
  change (deg2rad 0 / 2)%float with 0%float. rewrite Hsin.
  rewrite zero_terms.
  - change (sqrt 0) with 0%float. change (sqrt (1 - 0)) with 1%float.
    rewrite Hatan. reflexivity.
  - apply cos_product_finite; now apply (deg2rad_finite 7).
Qed.

End Facts.

End DoubleFacts.

(** ** The range of the distance in double arithmetic *)

Module DoubleRange.
Import Floats.
Import Double FloatRange FloatFacts FloatBounds.

Lemma is_nan_SF x : is_nan x = true -> Prim2SF x = S754_nan.
Proof.
  unfold is_nan. rewrite eqb_spec.
  destruct (Prim2SF x) as [s | s | | s m e]; try reflexivity.
  - discriminate.
  - now destruct s.
  - unfold SFeqb. rewrite SFcompare_refl_finite. discriminate.
Qed.

Lemma SF_is_nan x : Prim2SF x = S754_nan -> is_nan x = true.
Proof. unfold is_nan. rewrite eqb_spec. now intros ->. Qed.

Lemma mul_nan_r x y : is_nan y = true -> is_nan (x * y)%float = true.
Proof.
  intros H. apply SF_is_nan. rewrite mul_spec, (is_nan_SF y H).
  now destruct (Prim2SF x).
Qed.

Section Facts.

Variable M : Engine.
Hypothesis HM : conforming M.

Local Abbreviation getDistance := (getDistanceFromLatLonInKm M).

Lemma scaled_angle v :
  (0 <=? v)%float = true -> (v <=? PI / 2)%float = true ->
  (0 <=? 6371 * (2 * v))%float = true /\
  (6371 * (2 * v) <=? 6371 * PI)%float = true.
Proof.
  rewrite !leb_spec, Prim2SF_zero.
  change (Prim2SF (PI / 2)) with (S754_finite false 7074237752028440 (-52)).
  change (Prim2SF (6371 * PI)) with (S754_finite false 5501705165792626 (-38)).
  intros H0 H1. apply SFin_leb.
  rewrite mul_spec.
  change (Prim2SF 6371) with (S754_finite false 7004988580560896 (-40)).
  apply SFmul_radius_in; [apply Prim2SF_valid |].
  rewrite mul_spec.
  change (Prim2SF 2) with (S754_finite false 4503599627370496 (-51)).
  apply SFmul_two_in; [apply Prim2SF_valid |].
  now apply SFin_of_leb.
Qed.

Lemma getDistance_number_range lat1 lon1 lat2 lon2 :
  is_nan (getDistance lat1 lon1 lat2 lon2) = true \/
  ((0 <=? getDistance lat1 lon1 lat2 lon2)%float = true /\
   (getDistance lat1 lon1 lat2 lon2 <=? 6371 * PI)%float = true).
Proof.
  destruct HM as (_ & _ & _ & _ & Hnan & Hrange).
  unfold getDistanceFromLatLonInKm.
  set (a := (_ + _)%float).
  pose proof (SFsqrt_sign (Prim2SF a)) as Hy.
  pose proof (SFsqrt_sign (Prim2SF (1 - a))) as Hx.
  rewrite <- !sqrt_spec in Hy, Hx.
  apply nan_or_ge0_SF in Hy, Hx.
  destruct Hy as [Hy | Hy].
  - left. apply mul_nan_r, mul_nan_r, Hnan. now rewrite Hy.
  - destruct Hx as [Hx | Hx].
    + left. apply mul_nan_r, mul_nan_r, Hnan. rewrite Hx. apply orb_true_r.
    + right. destruct (Hrange _ _ Hy Hx) as [R0 R1]. now apply scaled_angle.
Qed.

(** C4, as the code has it.  On an engine that is [conforming], for
    degrees that are a position on the globe: the distance of two points
    is the same number in either order; the distance of a point to itself
    is 0; and the distance, when it is a number, lies between 0 and
    [6371 * Math.PI].  (That it is a number is not claimed: the term [a]
    can be rounded above 1, and the result is then [NaN].  Nor is it
    claimed that a distance of 0 needs identical points.) *)
Theorem getDistanceFromLatLonInKm_double lat1 lon1 lat2 lon2 :
  valid_lat lat1 = true -> valid_lon lon1 = true ->
  valid_lat lat2 = true -> valid_lon lon2 = true ->
  getDistance lat1 lon1 lat2 lon2 = getDistance lat2 lon2 lat1 lon1 /\
  getDistance lat1 lon1 lat1 lon1 = 0%float /\
  (is_nan (getDistance lat1 lon1 lat2 lon2) = false ->
   (0 <=? getDistance lat1 lon1 lat2 lon2)%float = true /\
   (getDistance lat1 lon1 lat2 lon2 <=? 6371 * PI)%float = true).
Proof.
  intros V1 W1 V2 W2. split; [| split].
  - apply DoubleFacts.getDistance_swap, HM.
  - now apply DoubleFacts.getDistance_identical.
  - intros Hnum.
    destruct (getDistance_number_range lat1 lon1 lat2 lon2) as [Hnan | H];
      [| exact H].
    rewrite Hnan in Hnum. discriminate.
Qed.

End Facts.

(** *** The engine of the examples *)

Lemma ltb_zero_cases x :
  ((x <? 0)%float = true /\ (- x <? 0)%float = false) \/
  ((x <? 0)%float = false /\ (- x <? 0)%float = true) \/
  ((x <? 0)%float = false /\ (- x <? 0)%float = false /\
   forall c, (0 <? c)%float = true ->
             (x =? c)%float = false /\ (- x =? c)%float = false).
Proof.
  rewrite !ltb_spec, opp_spec, Prim2SF_zero.
  destruct (Prim2SF x) as [s | s | | s m e] eqn:E.
  - right. right. repeat split; intros; rewrite eqb_spec, ?opp_spec, E;
      revert H; rewrite ltb_spec, Prim2SF_zero;
      destruct (Prim2SF c) as [sc | sc | | sc mc ec]; try discriminate;
      destruct sc; try discriminate; reflexivity.
  - destruct s; [left | right; left]; now split.
  - right. right. repeat split; intros; now rewrite eqb_spec, ?opp_spec, E.
  - destruct s; [left | right; left]; now split.
Qed.

Lemma rounded_conforming : conforming rounded.
Proof.
  unfold conforming. split; [reflexivity |]. split; [| split; [| split; [| split]]].
  - intros x. cbn [sin rounded].
    destruct (ltb_zero_cases x) as [[-> ->] | [[-> ->] | (-> & -> & H)]].
    + now rewrite opp_involutive.
    + now rewrite opp_involutive.
    + destruct (H 0x1.acee9f37bebd6p-3%float eq_refl) as [-> ->].
      destruct (H 0x1.921fb54442d18p+0%float eq_refl) as [-> ->].
      reflexivity.
  - intros x Hx. cbn [cos rounded]. unfold is_finite in Hx.
    apply negb_true_iff in Hx. rewrite Hx.
    now destruct (abs x =? 0x1.acee9f37bebd6p-3)%float.
  - reflexivity.
  - intros y x H. cbn [atan2 rounded]. now rewrite H.
  - intros y x Hy Hx. cbn [atan2 rounded].
    assert (Ny : is_nan y = false).
    { destruct (is_nan y) eqn:N; [| reflexivity].
      apply is_nan_SF in N. rewrite leb_spec, N in Hy. discriminate. }
    assert (Nx : is_nan x = false).
    { destruct (is_nan x) eqn:N; [| reflexivity].
      apply is_nan_SF in N. rewrite leb_spec, N in Hx. destruct (Prim2SF 0); discriminate. }
    rewrite Ny, Nx. cbn [orb].
    destruct (y <=? PI / 2)%float eqn:L; now split.
Qed.

(** From France (46, 2) to Germany (51, 9), on the engine of the
    examples. *)
Lemma getDistanceFromLatLonInKm_double_witness :
  getDistanceFromLatLonInKm rounded 46 2 51 9 =
    getDistanceFromLatLonInKm rounded 51 9 46 2 /\
  getDistanceFromLatLonInKm rounded 46 2 46 2 = 0%float /\
  (0 <=? getDistanceFromLatLonInKm rounded 46 2 51 9)%float = true /\
  (getDistanceFromLatLonInKm rounded 46 2 51 9 <=? 6371 * PI)%float = true.
Proof.
  destruct (getDistanceFromLatLonInKm_double rounded rounded_conforming
              46 2 51 9 eq_refl eq_refl eq_refl eq_refl) as (H1 & H2 & H3).
  split; [exact H1 |]. split; [exact H2 |]. apply H3. reflexivity.
Defined.

End DoubleRange.

(** ** Where the distance in double arithmetic leaves its range *)

Module DoubleExamples.
Import Floats.
Import Double.

(** Whatever the engine, if its sine and cosine return the correctly rounded
    values at the four arguments below, the distance between (-12, -180)
    and (12, 0) is not a number: the term [a] is rounded above 1. *)
Lemma getDistance_nan_antipodal (M : Engine) :
  conforming M ->
  sin M 0x1.acee9f37bebd6p-3 = 0x1.a9cd9ac4258f6p-3%float ->
  sin M 0x1.921fb54442d18p+0 = 1%float ->
  cos M (-0x1.acee9f37bebd6p-3) = 0x1.f4cfc327a0080p-1%float ->
  cos M 0x1.acee9f37bebd6p-3 = 0x1.f4cfc327a0080p-1%float ->
  is_nan (getDistanceFromLatLonInKm M (-12) (-180) 12 0) = true.
Proof.
  intros (_ & _ & _ & _ & Hnan & _) S1 S2 C1 C2.
  unfold getDistanceFromLatLonInKm.
  change (deg2rad (12 - -12) / 2)%float with 0x1.acee9f37bebd6p-3%float.
  change (deg2rad (0 - -180) / 2)%float with 0x1.921fb54442d18p+0%float.
  change (deg2rad (-12)) with (-0x1.acee9f37bebd6p-3)%float.
  change (deg2rad 12) with 0x1.acee9f37bebd6p-3%float.
  rewrite S1, S2, C1, C2.
  apply DoubleRange.mul_nan_r, DoubleRange.mul_nan_r, Hnan. reflexivity.
Qed.

(** C4 as stated fails in two ways.  (-12, -180) and (12, 0) are valid
    degrees, and their distance is not a number, so it is not in
    [0, pi * 6371]: with the correctly rounded sines and cosines the term
    [a] is 0x1.0000000000001p+0, above 1, and [Math.sqrt(1 - a)] is [NaN].
    And (0, 0) and (0, 0x1.87e92154ef7acp-665), that is (0, 1e-200), are
    two different pairs of valid degrees at distance 0: the square of the
    sine of half the difference underflows to 0. *)
Lemma getDistance_nan_and_zero :
  valid_lat (-12) = true /\ valid_lon (-180) = true /\
  valid_lat 12 = true /\ valid_lon 0 = true /\
  is_nan (getDistanceFromLatLonInKm rounded (-12) (-180) 12 0) = true /\
  valid_lat 0 = true /\ valid_lon 0x1.87e92154ef7acp-665 = true /\
  (0 =? 0x1.87e92154ef7acp-665)%float = false /\
  getDistanceFromLatLonInKm rounded 0 0 0 0x1.87e92154ef7acp-665 = 0%float.
Proof. repeat split. Qed.

End DoubleExamples.

(** ** The feedback tiers *)

Module FeedbackFacts.
Import Feedback.

Lemma texts_distinct :
  CORRECT <> HOT /\ CORRECT <> WARM /\ CORRECT <> COOL /\ CORRECT <> COLD /\
  HOT <> WARM /\ HOT <> COOL /\ HOT <> COLD /\
  WARM <> COOL /\ WARM <> COLD /\ COOL <> COLD.
Proof. unfold CORRECT, HOT, WARM, COOL, COLD. repeat split; discriminate. Qed.

Ltac tier_cases d :=
  unfold getHotColdText;
  destruct (Req_dec_T d 0); [|
  destruct (Rlt_dec d 1000); [|
  destruct (Rlt_dec d 3000); [|
  destruct (Rlt_dec d 8000)]]].

Lemma getHotColdText_at (d : R) :
  (d = 0 -> getHotColdText d = CORRECT) /\
  (d <> 0 -> d < 1000 -> getHotColdText d = HOT) /\
  (1000 <= d < 3000 -> getHotColdText d = WARM) /\
  (3000 <= d < 8000 -> getHotColdText d = COOL) /\
  (8000 <= d -> getHotColdText d = COLD).
Proof.
  repeat split; intros; tier_cases d; (reflexivity || lra).
Qed.

(** The texts of [src/app/page.tsx] are pairwise distinct too. *)
Lemma session_texts_distinct :
  Colors.CORRECT <> Colors.HOT /\ Colors.CORRECT <> Colors.WARM /\
  Colors.CORRECT <> Colors.COOL /\ Colors.CORRECT <> Colors.COLD /\
  Colors.HOT <> Colors.WARM /\ Colors.HOT <> Colors.COOL /\
  Colors.HOT <> Colors.COLD /\ Colors.WARM <> Colors.COOL /\
  Colors.WARM <> Colors.COLD /\ Colors.COOL <> Colors.COLD.
Proof.
  unfold Colors.CORRECT, Colors.HOT, Colors.WARM, Colors.COOL, Colors.COLD.
  repeat split; discriminate.
Qed.

Ltac session_tier_cases d :=
  unfold Colors.getHotColdText;
  destruct (Req_dec_T d 0); [|
  destruct (Rlt_dec d 1000); [|
  destruct (Rlt_dec d 3000); [|
  destruct (Rlt_dec d 8000)]]].

Lemma session_getHotColdText_at (d : R) :
  (d = 0 -> Colors.getHotColdText d = Colors.CORRECT) /\
  (d <> 0 -> d < 1000 -> Colors.getHotColdText d = Colors.HOT) /\
  (1000 <= d < 3000 -> Colors.getHotColdText d = Colors.WARM) /\
  (3000 <= d < 8000 -> Colors.getHotColdText d = Colors.COOL) /\
  (8000 <= d -> Colors.getHotColdText d = Colors.COLD).
Proof.
  repeat split; intros; session_tier_cases d; (reflexivity || lra).
Qed.

(** The tiers of the single-round page ([src/unnamed/part_000]). *)
Lemma part000_tiers (d : R) :
  0 <= d ->
  (getHotColdText d = CORRECT <-> d = 0) /\
  (getHotColdText d = HOT <-> 0 < d < 1000) /\
  (getHotColdText d = WARM <-> 1000 <= d < 3000) /\
  (getHotColdText d = COOL <-> 3000 <= d < 8000) /\
  (getHotColdText d = COLD <-> 8000 <= d) /\
  getHotColdText 0 = CORRECT /\
  getHotColdText 999 = HOT /\
  getHotColdText 1000 = WARM /\
  getHotColdText 7999 = COOL /\
  getHotColdText 7999 <> WARM.
Proof.
  intros Hd.
  destruct texts_distinct as (D1 & D2 & D3 & D4 & D5 & D6 & D7 & D8 & D9 & D10).
  assert (T999 : getHotColdText 999 = HOT) by (apply getHotColdText_at; lra).
  assert (T1000 : getHotColdText 1000 = WARM) by (apply getHotColdText_at; lra).
  assert (T7999 : getHotColdText 7999 = COOL) by (apply getHotColdText_at; lra).
  assert (T0 : getHotColdText 0 = CORRECT) by (now apply getHotColdText_at).
  repeat match goal with |- _ /\ _ => split end;
    try assumption;
    try (rewrite T7999; congruence);
    tier_cases d; split; intros H; try lra; try reflexivity;
    try congruence; exfalso; lra.
Qed.

(** The tiers of the session page ([src/app/page.tsx]). *)
Lemma session_tiers (d : R) :
  0 <= d ->
  (Colors.getHotColdText d = Colors.CORRECT <-> d = 0) /\
  (Colors.getHotColdText d = Colors.HOT <-> 0 < d < 1000) /\
  (Colors.getHotColdText d = Colors.WARM <-> 1000 <= d < 3000) /\
  (Colors.getHotColdText d = Colors.COOL <-> 3000 <= d < 8000) /\
  (Colors.getHotColdText d = Colors.COLD <-> 8000 <= d) /\
  Colors.getHotColdText 0 = Colors.CORRECT /\
  Colors.getHotColdText 999 = Colors.HOT /\
  Colors.getHotColdText 1000 = Colors.WARM /\
  Colors.getHotColdText 7999 = Colors.COOL /\
  Colors.getHotColdText 7999 <> Colors.WARM.
Proof.
  intros Hd.
  destruct session_texts_distinct
    as (D1 & D2 & D3 & D4 & D5 & D6 & D7 & D8 & D9 & D10).
  assert (T999 : Colors.getHotColdText 999 = Colors.HOT)
    by (apply session_getHotColdText_at; lra).
  assert (T1000 : Colors.getHotColdText 1000 = Colors.WARM)
    by (apply session_getHotColdText_at; lra).
  assert (T7999 : Colors.getHotColdText 7999 = Colors.COOL)
    by (apply session_getHotColdText_at; lra).
  assert (T0 : Colors.getHotColdText 0 = Colors.CORRECT)
    by (now apply session_getHotColdText_at).
  repeat match goal with |- _ /\ _ => split end;
    try assumption;
    try (rewrite T7999; congruence);
    session_tier_cases d; split; intros H; try lra; try reflexivity;
    try congruence; exfalso; lra.
Qed.

(** C2.  For a distance [d >= 0] the text is CORRECT iff [d = 0], HOT iff
    [0 < d < 1000], WARM iff [1000 <= d < 3000], COOL iff
    [3000 <= d < 8000] and COLD iff [8000 <= d]; 999 is HOT, 1000 is WARM
    and 7999 is COOL, not WARM.  This holds of both functions of that
    name, each with its own five texts: [getHotColdText] of
    [src/unnamed/part_000] and [getHotColdText] of [src/app/page.tsx]. *)
Theorem getHotColdText_tiers (d : R) :
  0 <= d ->
  ((getHotColdText d = CORRECT <-> d = 0) /\
   (getHotColdText d = HOT <-> 0 < d < 1000) /\
   (getHotColdText d = WARM <-> 1000 <= d < 3000) /\
   (getHotColdText d = COOL <-> 3000 <= d < 8000) /\
   (getHotColdText d = COLD <-> 8000 <= d) /\
   getHotColdText 0 = CORRECT /\
   getHotColdText 999 = HOT /\
   getHotColdText 1000 = WARM /\
   getHotColdText 7999 = COOL /\
   getHotColdText 7999 <> WARM) /\
  ((Colors.getHotColdText d = Colors.CORRECT <-> d = 0) /\
   (Colors.getHotColdText d = Colors.HOT <-> 0 < d < 1000) /\
   (Colors.getHotColdText d = Colors.WARM <-> 1000 <= d < 3000) /\
   (Colors.getHotColdText d = Colors.COOL <-> 3000 <= d < 8000) /\
   (Colors.getHotColdText d = Colors.COLD <-> 8000 <= d) /\
   Colors.getHotColdText 0 = Colors.CORRECT /\
   Colors.getHotColdText 999 = Colors.HOT /\
   Colors.getHotColdText 1000 = Colors.WARM /\
   Colors.getHotColdText 7999 = Colors.COOL /\
   Colors.getHotColdText 7999 <> Colors.WARM).
Proof.
  intros Hd. split; [now apply part000_tiers | now apply session_tiers].
Qed.

Lemma getHotColdText_tiers_witness :
  (getHotColdText 2500 = WARM <-> 1000 <= 2500 < 3000) /\
  (Colors.getHotColdText 2500 = Colors.WARM <-> 1000 <= 2500 < 3000).
Proof.
  destruct (getHotColdText_tiers 2500 ltac:(lra)) as [H1 H2].
  split; [apply H1 | apply H2].
Defined.

(** The colour of a guess row follows the same cascade as the text. *)
Lemma getColor_same_cascade (d d' : R) :
  getHotColdText d = getHotColdText d' <-> getColor d = getColor d'.
Proof.
  destruct texts_distinct as (D1 & D2 & D3 & D4 & D5 & D6 & D7 & D8 & D9 & D10).
  unfold getColor; tier_cases d;
    (destruct (Req_dec_T d' 0); [|
     destruct (Rlt_dec d' 1000); [|
     destruct (Rlt_dec d' 3000); [|
     destruct (Rlt_dec d' 8000)]]]);
    split; intros H; try reflexivity; try congruence; try discriminate H.
Qed.

End FeedbackFacts.

(** ** Lists of guesses *)

(** [gs.some((g) => f(g) === c)] holds exactly when [c] is among the [f(g)]. *)
Lemma existsb_code_In {G : Type} (f : G -> string) (c : string) (gs : list G) :
  existsb (fun g => String.eqb (f g) c) gs = true <-> In c (map f gs).
Proof.
  rewrite existsb_exists, in_map_iff. split.
  - intros [g [Hin He]]. apply String.eqb_eq in He. now exists g.
  - intros [g [He Hin]]. exists g. split; [exact Hin |]. now apply String.eqb_eq.
Qed.

Lemma existsb_code_not_In {G : Type} (f : G -> string) (c : string) (gs : list G) :
  existsb (fun g => String.eqb (f g) c) gs = false <-> ~ In c (map f gs).
Proof.
  rewrite <- existsb_code_In. split.
  - intros H1 H2. congruence.
  - intros H. destruct (existsb _ gs); [exfalso; now apply H | reflexivity].
Qed.

(** In a table with pairwise distinct codes an entry is known by its code. *)
Lemma code_unique (countries : list Country.t) (c c' : Country.t) :
  NoDup (map Country.code countries) ->
  In c countries -> In c' countries ->
  Country.code c = Country.code c' -> c = c'.
Proof.
  induction countries as [| x xs IH]; intros Hnd Hc Hc' He; [contradiction |].
  simpl in Hnd. inversion Hnd as [| ? ? Hx Hxs]; subst.
  destruct Hc as [-> | Hc], Hc' as [-> | Hc'].
  - reflexivity.
  - exfalso. apply Hx. rewrite He. now apply in_map.
  - exfalso. apply Hx. rewrite <- He. now apply in_map.
  - now apply IH.
Qed.

(** What [find] returns is the first entry that passes the test. *)
Lemma candidate_typed toLowerCase countries (v : string) (c : Country.t) :
  candidate toLowerCase countries None v = Some c ->
  In c countries /\ toLowerCase (Country.name c) = toLowerCase v.
Proof.
  unfold candidate. intros H. apply find_some in H. destruct H as [Hin He].
  now apply String.eqb_eq in He.
Qed.

Lemma candidate_unmatched toLowerCase countries (v : string) :
  candidate toLowerCase countries None v = None <->
  (forall c, In c countries -> toLowerCase (Country.name c) <> toLowerCase v).
Proof.
  unfold candidate. split.
  - intros H c Hin He.
    pose proof (find_none _ _ H c Hin) as Hn. simpl in Hn.
    apply String.eqb_neq in Hn. contradiction.
  - intros H.
    destruct (find _ countries) as [c |] eqn:Hf; [| reflexivity].
    apply find_some in Hf. destruct Hf as [Hin He].
    apply String.eqb_eq in He. exfalso. now apply (H c).
Qed.

Lemma candidate_matched toLowerCase countries (v : string) (c : Country.t) :
  In c countries -> toLowerCase (Country.name c) = toLowerCase v ->
  exists c', candidate toLowerCase countries None v = Some c'.
Proof.
  intros Hin He.
  destruct (candidate toLowerCase countries None v) as [c' |] eqn:Hc;
    [now exists c' |].
  exfalso. rewrite candidate_unmatched in Hc. now apply (Hc c).
Qed.

(** A typed text stands for the first entry whose name equals it up to
    letter case. *)
Lemma candidate_first toLowerCase countries (v : string) (c : Country.t) :
  candidate toLowerCase countries None v = Some c <->
  exists before after,
    countries = before ++ c :: after /\
    toLowerCase (Country.name c) = toLowerCase v /\
    forall c', In c' before -> toLowerCase (Country.name c') <> toLowerCase v.
Proof.
  unfold candidate. induction countries as [| x xs IH]; simpl.
  - split; [discriminate |].
    intros (before & after & E & _). now destruct before.
  - destruct (String.eqb (toLowerCase (Country.name x)) (toLowerCase v)) eqn:Hx.
    + apply String.eqb_eq in Hx. split.
      * intros E. injection E as <-. exists [], xs. now repeat split.
      * intros (before & after & E & Hc & Hb). destruct before as [| b bs].
        -- simpl in E. injection E as -> _. reflexivity.
        -- simpl in E. injection E as -> _. exfalso.
           apply (Hb b); [now left | exact Hx].
    + apply String.eqb_neq in Hx. rewrite IH. split.
      * intros (before & after & E & Hc & Hb).
        exists (x :: before), after. subst xs. repeat split; [exact Hc |].
        intros c' [<- | Hin]; [exact Hx | now apply Hb].
      * intros (before & after & E & Hc & Hb). destruct before as [| b bs].
        -- simpl in E. injection E as -> _. contradiction.
        -- simpl in E. injection E as -> ->. exists bs, after.
           repeat split; [exact Hc |]. intros c' Hin. apply Hb. now right.
Qed.

(** ** The single-round page *)

Module Part000Facts.
Import Part000.

Section Facts.

Variable toLowerCase : string -> string.
Variable countries : list Country.t.

Local Abbreviation submitGuess := (Part000.submitGuess toLowerCase countries).
Local Abbreviation candidate := (candidate toLowerCase countries).
Local Abbreviation reachable := (Part000.reachable toLowerCase countries).
Local Abbreviation handle := (Part000.handle toLowerCase countries).
Local Abbreviation handler := (Part000.handler toLowerCase countries).

Lemma some_code_In_000 (c : Country.t) (gs : list Guess.t) :
  existsb (fun g => String.eqb (Country.code (Guess.country g)) (Country.code c)) gs
    = true <->
  In (Country.code c) (map (fun g => Country.code (Guess.country g)) gs).
Proof. apply (existsb_code_In (fun g => Country.code (Guess.country g))). Qed.

Lemma some_code_not_In_000 (c : Country.t) (gs : list Guess.t) :
  existsb (fun g => String.eqb (Country.code (Guess.country g)) (Country.code c)) gs
    = false <->
  ~ In (Country.code c) (map (fun g => Country.code (Guess.country g)) gs).
Proof. apply (existsb_code_not_In (fun g => Country.code (Guess.country g))). Qed.

Lemma submitGuess_gameOver sel s : gameOver s = true -> submitGuess sel s = s.
Proof. intros H. unfold Part000.submitGuess. now rewrite H. Qed.

Lemma submitGuess_no_target_000 sel s : targetCountry s = None -> submitGuess sel s = s.
Proof.
  intros H. unfold Part000.submitGuess. rewrite H. now destruct (gameOver s).
Qed.

Lemma submitGuess_not_found_000 sel s target :
  gameOver s = false -> targetCountry s = Some target ->
  candidate sel (inputValue s) = None ->
  submitGuess sel s =
  {| error := notFoundMessage;
     targetCountry := targetCountry s; inputValue := inputValue s;
     guesses := guesses s; gameOver := gameOver s; win := win s;
     showSuggestions := showSuggestions s |}.
Proof.
  intros Hg Ht Hc. unfold Part000.submitGuess. now rewrite Hg, Ht, Hc.
Qed.

Lemma submitGuess_duplicate_000 sel s target g :
  gameOver s = false -> targetCountry s = Some target ->
  candidate sel (inputValue s) = Some g ->
  In (Country.code g) (guessedCodes s) ->
  submitGuess sel s =
  {| error := duplicateMessage;
     targetCountry := targetCountry s; inputValue := inputValue s;
     guesses := guesses s; gameOver := gameOver s; win := win s;
     showSuggestions := showSuggestions s |}.
Proof.
  intros Hg Ht Hc Hin. apply some_code_In_000 in Hin.
  unfold Part000.submitGuess. now rewrite Hg, Ht, Hc, Hin.
Qed.

Lemma submitGuess_accepted_000 sel s target g :
  gameOver s = false -> targetCountry s = Some target ->
  candidate sel (inputValue s) = Some g ->
  ~ In (Country.code g) (guessedCodes s) ->
  submitGuess sel s =
  {| guesses :=
       {| Guess.country := g;
          Guess.distance :=
            Utils.getDistanceFromLatLonInKm
              (Country.latitude g) (Country.longitude g)
              (Country.latitude target) (Country.longitude target);
          Guess.direction :=
            Utils.getDirection
              (Country.latitude g) (Country.longitude g)
              (Country.latitude target) (Country.longitude target) |}
       :: guesses s;
     inputValue := ""; showSuggestions := false; error := "";
     win := if String.eqb (Country.code g) (Country.code target)
            then true else win s;
     gameOver := String.eqb (Country.code g) (Country.code target);
     targetCountry := targetCountry s |}.
Proof.
  intros Hg Ht Hc Hin. apply some_code_not_In_000 in Hin.
  unfold Part000.submitGuess. rewrite Hg, Ht, Hc, Hin.
  now destruct (String.eqb (Country.code g) (Country.code target)).
Qed.

(** The four ways [submitGuess] ends. *)
Lemma submitGuess_cases_000 sel s :
  submitGuess sel s = s \/
  (exists target, gameOver s = false /\ targetCountry s = Some target /\
     candidate sel (inputValue s) = None) \/
  (exists target g, gameOver s = false /\ targetCountry s = Some target /\
     candidate sel (inputValue s) = Some g /\
     In (Country.code g) (guessedCodes s)) \/
  (exists target g, gameOver s = false /\ targetCountry s = Some target /\
     candidate sel (inputValue s) = Some g /\
     ~ In (Country.code g) (guessedCodes s)).
Proof.
  destruct (gameOver s) eqn:Hg; [left; now apply submitGuess_gameOver |].
  destruct (targetCountry s) as [target |] eqn:Ht;
    [| left; now apply submitGuess_no_target_000].
  right. destruct (candidate sel (inputValue s)) as [g |] eqn:Hc.
  - right. destruct (in_dec string_dec (Country.code g) (guessedCodes s)).
    + left. now exists target, g.
    + right. now exists target, g.
  - left. now exists target.
Qed.

Lemma invariant_submitGuess_000 sel s : invariant s -> invariant (submitGuess sel s).
Proof.
  intros [Hnd Hw].
  destruct (submitGuess_cases_000 sel s)
    as [E | [(t & Hg & Ht & Hc) | [(t & g & Hg & Ht & Hc & Hin)
                                   | (t & g & Hg & Ht & Hc & Hin)]]].
  - rewrite E. now split.
  - rewrite (submitGuess_not_found_000 _ _ _ Hg Ht Hc). now split.
  - rewrite (submitGuess_duplicate_000 _ _ _ _ Hg Ht Hc Hin). now split.
  - rewrite (submitGuess_accepted_000 _ _ _ _ Hg Ht Hc Hin). split.
    + unfold guessedCodes. simpl. constructor; assumption.
    + simpl. destruct (String.eqb (Country.code g) (Country.code t));
        [reflexivity | congruence].
Qed.

(** The effect touches the suggestions only. *)
Lemma invariant_inputEffect_000 before s :
  invariant s -> invariant (inputEffect before s).
Proof.
  unfold inputEffect. now destruct (String.eqb before (inputValue s)).
Qed.

Lemma invariant_handler_000 e s : invariant s -> invariant (handler e s).
Proof.
  intros IH. destruct e; simpl.
  - split; [constructor | reflexivity].
  - now apply invariant_submitGuess_000.
  - exact IH.
  - exact IH.
  - exact IH.
  - exact IH.
Qed.

Lemma reachable_invariant_000 s : reachable s -> invariant s.
Proof.
  induction 1 as [| e s Hr IH].
  - split; [constructor | reflexivity].
  - now apply invariant_inputEffect_000, invariant_handler_000.
Qed.


(** C3.  In every reachable state of the page the guess list holds pairwise
    distinct country codes; a submission whose candidate's code is already
    in the list only sets the duplicate-guess message: the guess list, the
    target, the flags, the input and the suggestions stay as they were. *)
Theorem guesses_distinct_codes (s : State) :
  reachable s ->
  NoDup (guessedCodes s) /\
  (forall sel target g,
     inProgress s target ->
     candidate sel (inputValue s) = Some g ->
     In (Country.code g) (guessedCodes s) ->
     submitGuess sel s =
     {| error := duplicateMessage;
        targetCountry := targetCountry s; inputValue := inputValue s;
        guesses := guesses s; gameOver := gameOver s; win := win s;
        showSuggestions := showSuggestions s |}).
Proof.
  intros Hr. split.
  - now apply reachable_invariant_000.
  - intros sel target g [Ht Hg] Hc Hin.
    now apply (submitGuess_duplicate_000 sel s target g).
Qed.

(** C6.  When the typed text matches the name of no table entry up to letter
    case, a submission without a picked suggestion leaves the guess list,
    the target and the flags as they were, and in a game in progress it
    sets the not-found message and nothing else.  A typed text stands for
    the first table entry whose name equals it up to letter case. *)
Theorem submitGuess_unmatched_name (s : State) :
  (forall c, In c countries ->
             toLowerCase (Country.name c) <> toLowerCase (inputValue s)) ->
  guesses (submitGuess None s) = guesses s /\
  gameOver (submitGuess None s) = gameOver s /\
  win (submitGuess None s) = win s /\
  targetCountry (submitGuess None s) = targetCountry s /\
  (forall target,
     inProgress s target ->
     submitGuess None s =
     {| error := notFoundMessage;
        targetCountry := targetCountry s; inputValue := inputValue s;
        guesses := guesses s; gameOver := gameOver s; win := win s;
        showSuggestions := showSuggestions s |}) /\
  (forall v c,
     candidate None v = Some c <->
     exists before after,
       countries = before ++ c :: after /\
       toLowerCase (Country.name c) = toLowerCase v /\
       forall c', In c' before ->
                  toLowerCase (Country.name c') <> toLowerCase v).
Proof.
  intros Hno. apply candidate_unmatched in Hno.
  assert (Hnf : forall target, inProgress s target ->
            submitGuess None s =
            {| error := notFoundMessage;
               targetCountry := targetCountry s; inputValue := inputValue s;
               guesses := guesses s; gameOver := gameOver s; win := win s;
               showSuggestions := showSuggestions s |}).
  { intros target [Ht Hg]. now apply (submitGuess_not_found_000 None s target). }
  assert (Hsame : submitGuess None s = s \/ exists target, inProgress s target).
  { destruct (gameOver s) eqn:Hg; [left; now apply submitGuess_gameOver |].
    destruct (targetCountry s) as [target |] eqn:Ht;
      [| left; now apply submitGuess_no_target_000].
    right. exists target. now split. }
  repeat split.
  - destruct Hsame as [E | [target Hp]]; [now rewrite E |].
    now rewrite (Hnf target Hp).
  - destruct Hsame as [E | [target Hp]]; [now rewrite E |].
    now rewrite (Hnf target Hp).
  - destruct Hsame as [E | [target Hp]]; [now rewrite E |].
    now rewrite (Hnf target Hp).
  - destruct Hsame as [E | [target Hp]]; [now rewrite E |].
    now rewrite (Hnf target Hp).
  - exact Hnf.
  - apply candidate_first.
  - apply candidate_first.
Qed.

End Facts.

(** The page after Germany was guessed against the target France: a
    reachable state with one guess. *)
Lemma germany_guessed_reachable :
  Part000.reachable ascii_toLowerCase Sample.table
    (Part000.submitGuess ascii_toLowerCase Sample.table (Some Sample.germany)
       Sample.franceGame).
Proof.
  change (Part000.submitGuess ascii_toLowerCase Sample.table
            (Some Sample.germany) Sample.franceGame)
    with (Part000.handle ascii_toLowerCase Sample.table
            (Part000.Submit (Some Sample.germany)) Sample.franceGame).
  apply Part000.reach_step.
  change Sample.franceGame
    with (Part000.handle ascii_toLowerCase Sample.table
            (Part000.StartNewGame 0) Part000.initial).
  apply Part000.reach_step, Part000.reach_initial.
Qed.

Lemma guesses_distinct_codes_witness :
  NoDup (guessedCodes
           (Part000.submitGuess ascii_toLowerCase Sample.table
              (Some Sample.germany) Sample.franceGame)) /\
  Part000.guesses
    (Part000.submitGuess ascii_toLowerCase Sample.table (Some Sample.germany)
       (Part000.submitGuess ascii_toLowerCase Sample.table
          (Some Sample.germany) Sample.franceGame)) =
  Part000.guesses
    (Part000.submitGuess ascii_toLowerCase Sample.table
       (Some Sample.germany) Sample.franceGame).
Proof.
  destruct (guesses_distinct_codes ascii_toLowerCase Sample.table _
              germany_guessed_reachable) as [Hnd Hdup].
  split; [exact Hnd |].
  rewrite (Hdup (Some Sample.germany) Sample.france Sample.germany).
  - reflexivity.
  - split; reflexivity.
  - reflexivity.
  - left. reflexivity.
Defined.

Lemma submitGuess_unmatched_name_witness :
  Part000.submitGuess ascii_toLowerCase Sample.table None
    (Part000.handle ascii_toLowerCase Sample.table (Part000.Change "Atlantis")
       Sample.franceGame) =
  {| error := notFoundMessage;
     targetCountry := Some Sample.france; inputValue := "Atlantis";
     guesses := []; gameOver := false; win := false;
     showSuggestions := true |}.
Proof.
  refine (proj1 (proj2 (proj2 (proj2 (proj2
    (submitGuess_unmatched_name ascii_toLowerCase Sample.table
       (Part000.handle ascii_toLowerCase Sample.table (Part000.Change "Atlantis")
          Sample.franceGame) _))))) Sample.france _).
  - intros c [<- | [<- | [<- | []]]]; discriminate.
  - split; reflexivity.
Defined.

End Part000Facts.

(** ** The session page *)

Module PageFacts.
Import Page.

Section Facts.

Variable toLowerCase : string -> string.
Variable countries : list Country.t.

Local Abbreviation submitGuess := (Page.submitGuess toLowerCase countries).
Local Abbreviation candidate := (candidate toLowerCase countries).
Local Abbreviation reachable := (Page.reachable toLowerCase countries).
Local Abbreviation handle := (Page.handle toLowerCase countries).
Local Abbreviation handler := (Page.handler toLowerCase countries).
Local Abbreviation startNewRound := (Page.startNewRound countries).
Local Abbreviation startGame := (Page.startGame countries).
Local Abbreviation nextRound := (Page.nextRound countries).
Local Abbreviation getTodaysCountry := (Page.getTodaysCountry countries).

Lemma submitGuess_roundOver sel s : roundOver s = true -> submitGuess sel s = s.
Proof. intros H. unfold Page.submitGuess. now rewrite H. Qed.

Lemma submitGuess_no_target sel s : targetCountry s = None -> submitGuess sel s = s.
Proof.
  intros H. unfold Page.submitGuess. rewrite H. now destruct (roundOver s).
Qed.

Lemma submitGuess_not_found sel s target :
  roundOver s = false -> targetCountry s = Some target ->
  candidate sel (inputValue s) = None ->
  submitGuess sel s =
  {| error := notFoundMessage;
     gameScreen := gameScreen s; gameMode := gameMode s;
     totalRounds := totalRounds s; currentRound := currentRound s;
     roundResults := roundResults s; targetCountry := targetCountry s;
     inputValue := inputValue s; guesses := guesses s;
     roundOver := roundOver s; win := win s;
     showSuggestions := showSuggestions s |}.
Proof.
  intros Hg Ht Hc. unfold Page.submitGuess. now rewrite Hg, Ht, Hc.
Qed.

Lemma submitGuess_duplicate sel s target g :
  roundOver s = false -> targetCountry s = Some target ->
  candidate sel (inputValue s) = Some g ->
  In (Country.code g) (guessedCodes s) ->
  submitGuess sel s =
  {| error := duplicateMessage;
     gameScreen := gameScreen s; gameMode := gameMode s;
     totalRounds := totalRounds s; currentRound := currentRound s;
     roundResults := roundResults s; targetCountry := targetCountry s;
     inputValue := inputValue s; guesses := guesses s;
     roundOver := roundOver s; win := win s;
     showSuggestions := showSuggestions s |}.
Proof.
  intros Hg Ht Hc Hin.
  apply (existsb_code_In (fun x => Country.code (Guess.country x))) in Hin.
  unfold Page.submitGuess. now rewrite Hg, Ht, Hc, Hin.
Qed.

Lemma submitGuess_accepted sel s target g :
  roundOver s = false -> targetCountry s = Some target ->
  candidate sel (inputValue s) = Some g ->
  ~ In (Country.code g) (guessedCodes s) ->
  submitGuess sel s =
  {| guesses :=
       {| Guess.country := g;
          Guess.distance :=
            Utils.getDistanceFromLatLonInKm
              (Country.latitude g) (Country.longitude g)
              (Country.latitude target) (Country.longitude target) |}
       :: guesses s;
     inputValue := ""; showSuggestions := false; error := "";
     win := if String.eqb (Country.code g) (Country.code target)
            then true else win s;
     roundOver := String.eqb (Country.code g) (Country.code target);
     roundResults :=
       if String.eqb (Country.code g) (Country.code target)
       then roundResults s ++
            [{| RoundResult.country := target;
                RoundResult.guesses := S (List.length (guesses s));
                RoundResult.won := true |}]
       else roundResults s;
     gameScreen := gameScreen s; gameMode := gameMode s;
     totalRounds := totalRounds s; currentRound := currentRound s;
     targetCountry := targetCountry s |}.
Proof.
  intros Hg Ht Hc Hin.
  apply (existsb_code_not_In (fun x => Country.code (Guess.country x))) in Hin.
  unfold Page.submitGuess. rewrite Hg, Ht, Hc, Hin.
  now destruct (String.eqb (Country.code g) (Country.code target)).
Qed.

Lemma submitGuess_cases sel s :
  submitGuess sel s = s \/
  (exists target, roundOver s = false /\ targetCountry s = Some target /\
     candidate sel (inputValue s) = None) \/
  (exists target g, roundOver s = false /\ targetCountry s = Some target /\
     candidate sel (inputValue s) = Some g /\
     In (Country.code g) (guessedCodes s)) \/
  (exists target g, roundOver s = false /\ targetCountry s = Some target /\
     candidate sel (inputValue s) = Some g /\
     ~ In (Country.code g) (guessedCodes s)).
Proof.
  destruct (roundOver s) eqn:Hg; [left; now apply submitGuess_roundOver |].
  destruct (targetCountry s) as [target |] eqn:Ht;
    [| left; now apply submitGuess_no_target].
  right. destruct (candidate sel (inputValue s)) as [g |] eqn:Hc.
  - right. destruct (in_dec string_dec (Country.code g) (guessedCodes s)).
    + left. now exists target, g.
    + right. now exists target, g.
  - left. now exists target.
Qed.

Lemma skipRound_roundOver s : roundOver s = true -> skipRound s = s.
Proof.
  intros H. unfold skipRound. rewrite H. now destruct (targetCountry s).
Qed.

Lemma skipRound_no_target s : targetCountry s = None -> skipRound s = s.
Proof. intros H. unfold skipRound. now rewrite H. Qed.

Lemma skipRound_in_progress s target :
  targetCountry s = Some target -> roundOver s = false ->
  skipRound s =
  {| roundOver := true;
     roundResults := roundResults s ++
       [{| RoundResult.country := target; RoundResult.guesses := 0;
           RoundResult.won := false |}];
     gameScreen := gameScreen s; gameMode := gameMode s;
     totalRounds := totalRounds s; currentRound := currentRound s;
     targetCountry := targetCountry s; inputValue := inputValue s;
     guesses := guesses s; win := win s;
     showSuggestions := showSuggestions s; error := error s |}.
Proof. intros Ht Hr. unfold skipRound. now rewrite Ht, Hr. Qed.

(** A round that [startNewRound] opens is empty and in progress. *)
Lemma startNewRound_fresh mode today draws s s' :
  startNewRound mode today draws s = Some s' ->
  guesses s' = [] /\ roundOver s' = false /\ win s' = false /\
  roundResults s' = roundResults s.
Proof.
  unfold Page.startNewRound. intros H.
  destruct (match match mode with Some m => Some m | None => gameMode s end with
            | Some daily => Some (getTodaysCountry today)
            | _ => pickRandom countries (targetCountry s) draws
            end) as [random |]; [| discriminate].
  injection H as <-. now repeat split.
Qed.

Lemma invariant_submitGuess sel s : invariant s -> invariant (submitGuess sel s).
Proof.
  intros [Hnd Hw].
  destruct (submitGuess_cases sel s)
    as [E | [(t & Hg & Ht & Hc) | [(t & g & Hg & Ht & Hc & Hin)
                                   | (t & g & Hg & Ht & Hc & Hin)]]].
  - rewrite E. now split.
  - rewrite (submitGuess_not_found _ _ _ Hg Ht Hc). now split.
  - rewrite (submitGuess_duplicate _ _ _ _ Hg Ht Hc Hin). now split.
  - rewrite (submitGuess_accepted _ _ _ _ Hg Ht Hc Hin). split.
    + unfold guessedCodes. simpl. constructor; assumption.
    + simpl. destruct (String.eqb (Country.code g) (Country.code t));
        [reflexivity | intros Hwin; apply Hw in Hwin; congruence].
Qed.

Lemma invariant_skipRound s : invariant s -> invariant (skipRound s).
Proof.
  intros [Hnd Hw]. unfold skipRound.
  destruct (targetCountry s); [| now split].
  destruct (roundOver s) eqn:Hr; split; simpl; auto.
Qed.

(** The effect touches the suggestions only. *)
Lemma inputEffect_frame before s :
  guesses (inputEffect before s) = guesses s /\
  roundOver (inputEffect before s) = roundOver s /\
  win (inputEffect before s) = win s.
Proof.
  unfold inputEffect. now destruct (String.eqb before (inputValue s)).
Qed.

Lemma invariant_inputEffect before s :
  invariant s -> invariant (inputEffect before s).
Proof.
  unfold inputEffect. now destruct (String.eqb before (inputValue s)).
Qed.

Lemma invariant_handler e s s' :
  invariant s -> handler e s = Some s' -> invariant s'.
Proof.
  intros Hi H. destruct e; simpl in H.
  - unfold Page.startGame in H.
    destruct (startNewRound mode today draws s) as [s1 |] eqn:E; [| discriminate].
    apply startNewRound_fresh in E. destruct E as (E1 & E2 & E3 & _).
    injection H as <-. unfold invariant, guessedCodes. simpl.
    rewrite E1, E3. split; [constructor | discriminate].
  - injection H as <-. now apply invariant_submitGuess.
  - injection H as <-. now apply invariant_skipRound.
  - unfold Page.nextRound in H.
    destruct (currentRound s <? totalRounds s)%Z.
    + destruct (startNewRound None today draws s) as [s1 |] eqn:E; [| discriminate].
      apply startNewRound_fresh in E. destruct E as (E1 & E2 & E3 & _).
      injection H as <-. unfold invariant, guessedCodes. simpl.
      rewrite E1, E3. split; [constructor | discriminate].
    + injection H as <-. exact Hi.
  - injection H as <-. exact Hi.
  - injection H as <-. exact Hi.
  - injection H as <-. exact Hi.
  - injection H as <-. exact Hi.
  - injection H as <-. exact Hi.
  - injection H as <-. exact Hi.
  - injection H as <-. exact Hi.
Qed.

Lemma invariant_step e s s' : invariant s -> handle e s = Some s' -> invariant s'.
Proof.
  unfold Page.handle. intros Hi H.
  destruct (handler e s) as [s1 |] eqn:E; [| discriminate].
  injection H as <-. apply invariant_inputEffect.
  now apply (invariant_handler e s s1).
Qed.

Lemma reachable_invariant s : reachable s -> invariant s.
Proof.
  induction 1 as [| e s s' Hr IH Hs].
  - split; [constructor | discriminate].
  - now apply (invariant_step e s s').
Qed.

(** Once a round is over no event adds a guess to it: the list stays as it
    is, or a new round empties it. *)
Lemma roundOver_guesses_frozen e s s' :
  roundOver s = true -> handle e s = Some s' ->
  guesses s' = guesses s \/ guesses s' = [].
Proof.
  unfold Page.handle. intros Hr H.
  destruct (handler e s) as [s1 |] eqn:E; [| discriminate].
  injection H as <-.
  destruct (inputEffect_frame (inputValue s) s1) as (-> & _).
  destruct e; simpl in E.
  - unfold Page.startGame in E.
    destruct (startNewRound mode today draws s) as [s2 |] eqn:E2; [| discriminate].
    apply startNewRound_fresh in E2. destruct E2 as (E2 & _).
    injection E as <-. now right.
  - injection E as <-. left. now rewrite submitGuess_roundOver.
  - injection E as <-. left. now rewrite skipRound_roundOver.
  - unfold Page.nextRound in E.
    destruct (currentRound s <? totalRounds s)%Z.
    + destruct (startNewRound None today draws s) as [s2 |] eqn:E2; [| discriminate].
      apply startNewRound_fresh in E2. destruct E2 as (E2 & _).
      injection E as <-. now right.
    + injection E as <-. now left.
  - injection E as <-. now left.
  - injection E as <-. now left.
  - injection E as <-. now left.
  - injection E as <-. now left.
  - injection E as <-. now left.
  - injection E as <-. now left.
  - injection E as <-. now left.
Qed.

Local Abbreviation distanceBetween g target :=
  (Utils.getDistanceFromLatLonInKm
     (Country.latitude g) (Country.longitude g)
     (Country.latitude target) (Country.longitude target)).

(** C1, as the code has it.  In a round in progress, a submission whose
    candidate is resolved and is no duplicate puts the guess, with its
    computed distance, at the head of the list, and the round becomes Won
    exactly when the candidate's code is the target's; otherwise it stays
    in progress.  This holds on both pages.  The recorded distance is 0
    when the candidate has the target's coordinates, so whenever the codes
    are equal and both are entries of a table with pairwise distinct
    codes. *)
Theorem submitGuess_won_iff_code :
  (forall sel s target g,
     reachable s -> inProgress s target ->
     candidate sel (inputValue s) = Some g ->
     ~ In (Country.code g) (guessedCodes s) ->
     guesses (submitGuess sel s) =
       {| Guess.country := g; Guess.distance := distanceBetween g target |}
       :: guesses s /\
     (roundOver (submitGuess sel s) = true /\ win (submitGuess sel s) = true <->
      Country.code g = Country.code target) /\
     (Country.code g <> Country.code target ->
      roundOver (submitGuess sel s) = false /\ win (submitGuess sel s) = false)) /\
  (forall sel s target g,
     Part000.reachable toLowerCase countries s -> Part000.inProgress s target ->
     candidate sel (Part000.inputValue s) = Some g ->
     ~ In (Country.code g) (Part000.guessedCodes s) ->
     Part000.guesses (Part000.submitGuess toLowerCase countries sel s) =
       {| Part000.Guess.country := g;
          Part000.Guess.distance := distanceBetween g target;
          Part000.Guess.direction :=
            Utils.getDirection (Country.latitude g) (Country.longitude g)
              (Country.latitude target) (Country.longitude target) |}
       :: Part000.guesses s /\
     (Part000.gameOver (Part000.submitGuess toLowerCase countries sel s) = true /\
      Part000.win (Part000.submitGuess toLowerCase countries sel s) = true <->
      Country.code g = Country.code target) /\
     (Country.code g <> Country.code target ->
      Part000.gameOver (Part000.submitGuess toLowerCase countries sel s) = false /\
      Part000.win (Part000.submitGuess toLowerCase countries sel s) = false)) /\
  (forall g target,
     (Country.latitude g = Country.latitude target ->
      Country.longitude g = Country.longitude target ->
      distanceBetween g target = 0) /\
     (NoDup (map Country.code countries) ->
      In g countries -> In target countries ->
      Country.code g = Country.code target ->
      distanceBetween g target = 0)).
Proof.
  split; [| split].
  - intros sel s target g Hr [Ht Hg] Hc Hin.
    assert (Hw : win s = false).
    { destruct (reachable_invariant s Hr) as [_ Hw].
      destruct (win s); [rewrite Hw in Hg by reflexivity; discriminate | reflexivity]. }
    rewrite (submitGuess_accepted sel s target g Hg Ht Hc Hin). simpl. rewrite Hw.
    split; [reflexivity |].
    destruct (String.eqb (Country.code g) (Country.code target)) eqn:He.
    + apply String.eqb_eq in He. split.
      * split; [intros _; exact He | intros _; now split].
      * intros Hne. contradiction.
    + apply String.eqb_neq in He. split.
      * split; [intros [H _]; discriminate | intros E; contradiction].
      * intros _. now split.
  - intros sel s target g Hr [Ht Hg] Hc Hin.
    assert (Hw : Part000.win s = false).
    { destruct (Part000Facts.reachable_invariant_000 _ _ s Hr) as [_ Hw]. congruence. }
    rewrite (Part000Facts.submitGuess_accepted_000 _ _ sel s target g Hg Ht Hc Hin).
    simpl. rewrite Hw. split; [reflexivity |].
    destruct (String.eqb (Country.code g) (Country.code target)) eqn:He.
    + apply String.eqb_eq in He. split.
      * split; [intros _; exact He | intros _; now split].
      * intros Hne. contradiction.
    + apply String.eqb_neq in He. split.
      * split; [intros [H _]; discriminate | intros E; contradiction].
      * intros _. now split.
  - intros g target. split.
    + intros -> ->. apply UtilsFacts.getDistance_same.
    + intros Hnd Hg Ht He.
      rewrite (code_unique countries g target Hnd Hg Ht He).
      apply UtilsFacts.getDistance_same.
Qed.

(** C7.  On a round that is over, won or lost, [submitGuess] and
    [skipRound] change nothing at all, and no event appends a guess: the
    list stays as it is until a new round empties it.  The same holds for
    [submitGuess] on the single-round page. *)
Theorem terminal_round_frozen :
  (forall sel s,
     roundOver s = true -> submitGuess sel s = s /\ skipRound s = s) /\
  (forall e s s',
     roundOver s = true -> handle e s = Some s' ->
     guesses s' = guesses s \/ guesses s' = []) /\
  (forall sel s,
     Part000.gameOver s = true ->
     Part000.submitGuess toLowerCase countries sel s = s).
Proof.
  split; [| split].
  - intros sel s H. split;
      [now apply submitGuess_roundOver | now apply skipRound_roundOver].
  - apply roundOver_guesses_frozen.
  - intros sel s H. now apply Part000Facts.submitGuess_gameOver.
Qed.

(** The remainder moves when a day passes, for a table of two or more. *)
Lemma next_day_rem (d n : Z) :
  (0 <= d)%Z -> (2 <= n)%Z -> Z.rem (d + 1) n <> Z.rem d n.
Proof.
  intros Hd Hn. rewrite !Z.rem_mod_nonneg by lia.
  pose proof (Z.mod_pos_bound d n ltac:(lia)) as Hr.
  rewrite Z.add_mod by lia. rewrite (Z.mod_small 1 n) by lia.
  destruct (Z.eq_dec (d mod n + 1) n) as [E | E].
  - rewrite E, Z.mod_same by lia. lia.
  - rewrite Z.mod_small by lia. lia.
Qed.

Lemma getTodaysCountry_nth (today : Z) :
  (0 <= today)%Z -> countries <> [] ->
  getTodaysCountry today =
  nth_error countries
    (Z.to_nat ((today / 86400000) mod Z.of_nat (List.length countries))).
Proof.
  intros Ht Hne. unfold Page.getTodaysCountry, js_rem, array_get, Utils.array_get.
  change (1000 * 60 * 60 * 24)%Z with 86400000%Z.
  assert (Hlen : (0 < Z.of_nat (List.length countries))%Z).
  { destruct countries; [contradiction | simpl; lia]. }
  assert (Hd : (0 <= today / 86400000)%Z) by (apply Z.div_pos; lia).
  destruct (Z.eqb_spec (Z.of_nat (List.length countries)) 0) as [E | _]; [lia |].
  rewrite Z.rem_mod_nonneg by lia.
  pose proof (Z.mod_pos_bound (today / 86400000) _ Hlen) as Hb.
  destruct (Z.ltb_spec ((today / 86400000) mod Z.of_nat (List.length countries)) 0);
    [lia | reflexivity].
Qed.

Lemma startNewRound_daily today draws s :
  startNewRound (Some daily) today draws s =
  Some {| targetCountry := getTodaysCountry today; guesses := [];
          roundOver := false; win := false; inputValue := ""; error := "";
          gameScreen := gameScreen s; gameMode := gameMode s;
          totalRounds := totalRounds s; currentRound := currentRound s;
          roundResults := roundResults s;
          showSuggestions := showSuggestions s |}.
Proof. reflexivity. Qed.

(** C8.  The daily target depends on the clock only through the number of
    whole days since the epoch: two readings of the clock on the same day
    give the same entry, and so the same target to any two daily rounds.
    For a clock after the epoch and a table that is not empty the entry is
    the one at index (days since epoch) mod (table length).  One day later
    the index is another one when the table has two entries or more, and
    the country is another one when, besides, the codes of the table are
    pairwise distinct. *)
Theorem getTodaysCountry_daily (today today' : Z) :
  (0 <= today)%Z ->
  (today / 86400000 = today' / 86400000)%Z ->
  getTodaysCountry today = getTodaysCountry today' /\
  (forall draws draws' s s',
     option_map targetCountry (startNewRound (Some daily) today draws s) =
     option_map targetCountry (startNewRound (Some daily) today' draws' s') /\
     option_map targetCountry (startNewRound (Some daily) today draws s) =
     Some (getTodaysCountry today)) /\
  (countries <> [] ->
   getTodaysCountry today =
   nth_error countries
     (Z.to_nat ((today / 86400000) mod Z.of_nat (List.length countries)))) /\
  ((2 <= List.length countries)%nat ->
   js_rem ((today + 86400000) / 86400000) (Z.of_nat (List.length countries)) <>
   js_rem (today / 86400000) (Z.of_nat (List.length countries))) /\
  ((2 <= List.length countries)%nat -> NoDup (map Country.code countries) ->
   getTodaysCountry (today + 86400000) <> getTodaysCountry today).
Proof.
  intros Ht Hday.
  assert (Hsame : getTodaysCountry today = getTodaysCountry today').
  { unfold Page.getTodaysCountry.
    change (1000 * 60 * 60 * 24)%Z with 86400000%Z. now rewrite Hday. }
  assert (Hd : (0 <= today / 86400000)%Z) by (apply Z.div_pos; lia).
  assert (Hnext : ((today + 86400000) / 86400000 = today / 86400000 + 1)%Z).
  { replace (today + 86400000)%Z with (today + 1 * 86400000)%Z by lia.
    apply Z.div_add. lia. }
  split; [exact Hsame |]. split; [| split; [| split]].
  - intros draws draws' s s'. rewrite !startNewRound_daily. simpl.
    now rewrite Hsame.
  - now apply getTodaysCountry_nth.
  - intros Hlen. unfold js_rem.
    destruct (Z.eqb_spec (Z.of_nat (List.length countries)) 0) as [E | _]; [lia |].
    rewrite Hnext. intros E. injection E as E. revert E.
    apply next_day_rem; lia.
  - intros Hlen Hnd.
    assert (Hne : countries <> []).
    { intros E. rewrite E in Hlen. simpl in Hlen. lia. }
    rewrite !getTodaysCountry_nth by (assumption || lia).
    rewrite Hnext.
    set (n := Z.of_nat (List.length countries)).
    pose proof (Z.mod_pos_bound (today / 86400000) n ltac:(lia)) as B1.
    pose proof (Z.mod_pos_bound (today / 86400000 + 1) n ltac:(lia)) as B2.
    intros E. apply NoDup_map_inv in Hnd.
    rewrite NoDup_nth_error in Hnd. apply Hnd in E; [| lia].
    apply (next_day_rem (today / 86400000) n); [lia | lia |].
    rewrite !Z.rem_mod_nonneg by lia. lia.
Qed.

(** C10.  [skipRound] on a round in progress ends it as lost: the round is
    over and not won, the guess list is untouched, and a summary with the
    round's target, 0 guesses and [won = false] is added to the results;
    nothing else changes. *)
Theorem skipRound_lost (s : State) (target : Country.t) :
  reachable s -> inProgress s target ->
  roundOver (skipRound s) = true /\
  win (skipRound s) = false /\
  guesses (skipRound s) = guesses s /\
  roundResults (skipRound s) =
    roundResults s ++
    [{| RoundResult.country := target; RoundResult.guesses := 0;
        RoundResult.won := false |}] /\
  skipRound s =
    {| roundOver := true; roundResults := roundResults (skipRound s);
       gameScreen := gameScreen s; gameMode := gameMode s;
       totalRounds := totalRounds s; currentRound := currentRound s;
       targetCountry := targetCountry s; inputValue := inputValue s;
       guesses := guesses s; win := win s;
       showSuggestions := showSuggestions s; error := error s |}.
Proof.
  intros Hr [Ht Hg].
  assert (Hw : win s = false).
  { destruct (reachable_invariant s Hr) as [_ Hw].
    destruct (win s); [rewrite Hw in Hg by reflexivity; discriminate | reflexivity]. }
  rewrite (skipRound_in_progress s target Ht Hg). simpl. now repeat split.
Qed.

End Facts.

Lemma franceRound_reachable :
  Page.reachable ascii_toLowerCase Sample.table Sample.franceRound.
Proof.
  apply (Page.reach_step _ _ (Page.StartGame (Some practice) 3 0 [0%nat])
           Page.initial).
  - apply Page.reach_initial.
  - reflexivity.
Qed.

Lemma twinsRound_reachable :
  Page.reachable ascii_toLowerCase Sample.twins Sample.twinsRound.
Proof.
  apply (Page.reach_step _ _ (Page.Change "ALPHA")
           (Page.mkState playing (Some practice) 3 1 [] (Some Sample.beta)
              "" [] false false false "")).
  - apply (Page.reach_step _ _ (Page.StartGame (Some practice) 3 0 [1%nat])
             Page.initial).
    + apply Page.reach_initial.
    + reflexivity.
  - reflexivity.
Qed.

(** C1 as stated fails on a table with two entries at one position: with
    target Beta, the guess Alpha (typed in capitals) is accepted with a
    recorded distance of 0, and the round is not won. *)
Lemma submitGuess_distance_0_not_won :
  Page.reachable ascii_toLowerCase Sample.twins Sample.twinsRound /\
  Page.inProgress Sample.twinsRound Sample.beta /\
  candidate ascii_toLowerCase Sample.twins None
    (Page.inputValue Sample.twinsRound) = Some Sample.alpha /\
  ~ In (Country.code Sample.alpha) (Page.guessedCodes Sample.twinsRound) /\
  Page.guesses
    (Page.submitGuess ascii_toLowerCase Sample.twins None Sample.twinsRound) =
    [{| Guess.country := Sample.alpha; Guess.distance := 0 |}] /\
  Page.roundOver
    (Page.submitGuess ascii_toLowerCase Sample.twins None Sample.twinsRound) =
    false /\
  Page.win
    (Page.submitGuess ascii_toLowerCase Sample.twins None Sample.twinsRound) =
    false.
Proof.
  split; [apply twinsRound_reachable |].
  split; [split; reflexivity |].
  split; [reflexivity |].
  split; [intros [] |].
  rewrite (submitGuess_accepted ascii_toLowerCase Sample.twins None
             Sample.twinsRound Sample.beta Sample.alpha);
    try reflexivity; [| intros []].
  simpl. rewrite UtilsFacts.getDistance_same. now repeat split.
Qed.

Lemma submitGuess_won_iff_code_witness :
  Page.roundOver
    (Page.submitGuess ascii_toLowerCase Sample.table (Some Sample.france)
       Sample.franceRound) = true /\
  Page.win
    (Page.submitGuess ascii_toLowerCase Sample.table (Some Sample.france)
       Sample.franceRound) = true.
Proof.
  apply (proj1 (proj2 (proj1 (submitGuess_won_iff_code ascii_toLowerCase
                                Sample.table)
                         (Some Sample.france) Sample.franceRound
                         Sample.france Sample.france
                         franceRound_reachable (conj eq_refl eq_refl) eq_refl
                         (fun H : False => H)))).
  reflexivity.
Defined.

Lemma terminal_round_frozen_witness :
  Page.submitGuess ascii_toLowerCase Sample.table (Some Sample.germany)
    (Page.skipRound Sample.franceRound) = Page.skipRound Sample.franceRound.
Proof.
  apply (proj1 (terminal_round_frozen ascii_toLowerCase Sample.table)).
  reflexivity.
Defined.

Lemma skipRound_lost_witness :
  Page.roundOver (Page.skipRound Sample.franceRound) = true /\
  Page.win (Page.skipRound Sample.franceRound) = false /\
  Page.guesses (Page.skipRound Sample.franceRound) = [] /\
  Page.roundResults (Page.skipRound Sample.franceRound) =
    [{| RoundResult.country := Sample.france; RoundResult.guesses := 0;
        RoundResult.won := false |}].
Proof.
  destruct (skipRound_lost ascii_toLowerCase Sample.table Sample.franceRound
              Sample.france franceRound_reachable (conj eq_refl eq_refl))
    as (H1 & H2 & H3 & H4 & _).
  repeat split; assumption.
Defined.

(** 2026-11-03 at noon and at 23:59:59.999 UTC are day 20760 since the
    epoch; the table of three gives index 0 that day and 1 the next. *)
Lemma getTodaysCountry_daily_witness :
  Page.getTodaysCountry Sample.table 1793707200000 =
    Page.getTodaysCountry Sample.table 1793750399999 /\
  Page.getTodaysCountry Sample.table 1793707200000 = Some Sample.france /\
  Page.getTodaysCountry Sample.table (1793707200000 + 86400000) <>
    Page.getTodaysCountry Sample.table 1793707200000.
Proof.
  destruct (getTodaysCountry_daily Sample.table 1793707200000 1793750399999
              ltac:(lia) eq_refl) as (H1 & _ & H3 & _ & H5).
  split; [exact H1 |]. split.
  - rewrite H3 by discriminate. reflexivity.
  - apply H5.
    + simpl. lia.
    + repeat constructor; simpl; intuition discriminate.
Defined.

(** On the session page too, the codes of the guess list are pairwise
    distinct in every reachable state, and a round that is won is over. *)
Lemma page_guesses_distinct_codes toLowerCase countries (s : State) :
  Page.reachable toLowerCase countries s ->
  NoDup (guessedCodes s) /\ (win s = true -> roundOver s = true).
Proof. apply reachable_invariant. Qed.

(** The round with the guesses Germany and France, won at the second one,
    is reached from the initial state by starting a practice session,
    typing GERMANY, submitting, typing france and submitting. *)
Lemma afterFrance_reachable :
  Page.reachable ascii_toLowerCase Sample.table Sample.afterFrance.
Proof.
  apply (Page.reach_step _ _ (Page.Submit None)
           (Page.inputEffect "" (Page.setInputValue "france" Sample.afterGermany)));
    [| reflexivity].
  apply (Page.reach_step _ _ (Page.Change "france") Sample.afterGermany);
    [| reflexivity].
  apply (Page.reach_step _ _ (Page.Submit None)
           (Page.inputEffect "" (Page.setInputValue "GERMANY" Sample.franceRound)));
    [| reflexivity].
  apply (Page.reach_step _ _ (Page.Change "GERMANY") Sample.franceRound);
    [| reflexivity].
  apply franceRound_reachable.
Qed.

Lemma page_guesses_distinct_codes_witness :
  guessedCodes Sample.afterFrance = ["FR"; "DE"]%string /\
  win Sample.afterFrance = true /\
  NoDup (guessedCodes Sample.afterFrance) /\
  roundOver Sample.afterFrance = true.
Proof.
  split; [reflexivity |]. split; [reflexivity |].
  destruct (page_guesses_distinct_codes ascii_toLowerCase Sample.table
              Sample.afterFrance afterFrance_reachable) as [Hd Hw].
  split; [exact Hd |]. apply Hw. reflexivity.
Defined.

(** The scenario of a round with target France: Germany is accepted at a
    positive distance and the round goes on; France then wins it in two
    guesses, latest first. *)
Lemma scenario_germany_then_france :
  exists d, 0 < d /\
    Page.guesses Sample.afterGermany =
      [{| Guess.country := Sample.germany; Guess.distance := d |}] /\
    Page.roundOver Sample.afterGermany = false /\
    Page.guesses Sample.afterFrance =
      [{| Guess.country := Sample.france; Guess.distance := 0 |};
       {| Guess.country := Sample.germany; Guess.distance := d |}] /\
    Page.roundOver Sample.afterFrance = true /\
    Page.win Sample.afterFrance = true /\
    Page.roundResults Sample.afterFrance =
      [{| RoundResult.country := Sample.france; RoundResult.guesses := 2;
          RoundResult.won := true |}].
Proof.
  exists (Utils.getDistanceFromLatLonInKm 51 9 46 2).
  assert (V : Utils.valid_lat 51 /\ Utils.valid_lon 9 /\
              Utils.valid_lat 46 /\ Utils.valid_lon 2).
  { unfold Utils.valid_lat, Utils.valid_lon. lra. }
  destruct V as (V1 & W1 & V2 & W2).
  split.
  - pose proof (UtilsFacts.getDistance_range 51 9 46 2 V1 V2) as [Hge _].
    destruct Hge as [Hgt | Heq]; [exact Hgt |].
    symmetry in Heq. apply (UtilsFacts.getDistance_eq_0 _ _ _ _ V1 W1 V2 W2) in Heq.
    destruct Heq as [E _]. lra.
  - assert (E1 : Sample.afterGermany =
                 Page.mkState playing (Some practice) 3 1 [] (Some Sample.france) ""
                   [{| Guess.country := Sample.germany;
                       Guess.distance :=
                         Utils.getDistanceFromLatLonInKm 51 9 46 2 |}]
                   false false false "").
    { unfold Sample.afterGermany.
      rewrite (submitGuess_accepted ascii_toLowerCase Sample.table None _
                 Sample.france Sample.germany);
        try reflexivity. intros []. }
    assert (E2 : Sample.afterFrance =
                 Page.mkState playing (Some practice) 3 1
                   [{| RoundResult.country := Sample.france;
                       RoundResult.guesses := 2; RoundResult.won := true |}]
                   (Some Sample.france) ""
                   [{| Guess.country := Sample.france;
                       Guess.distance :=
                         Utils.getDistanceFromLatLonInKm 46 2 46 2 |};
                    {| Guess.country := Sample.germany;
                       Guess.distance :=
                         Utils.getDistanceFromLatLonInKm 51 9 46 2 |}]
                   true true false "").
    { unfold Sample.afterFrance. rewrite E1.
      rewrite (submitGuess_accepted ascii_toLowerCase Sample.table None _
                 Sample.france Sample.france);
        try reflexivity.
      simpl. intros [H | []]. discriminate. }
    rewrite E2, E1. simpl. rewrite UtilsFacts.getDistance_same.
    now repeat split.
Qed.

(** The two pages play the same round: [submitGuess] takes states that
    show the same thing to states that show the same thing. *)
Lemma submitGuess_sameRound toLowerCase countries sel p q :
  sameRound p q ->
  sameRound (Part000.submitGuess toLowerCase countries sel p)
            (Page.submitGuess toLowerCase countries sel q).
Proof.
  intros H. pose proof H as (Ht & Hi & Hg & Ho & Hw & Hs & He).
  unfold Part000.submitGuess, Page.submitGuess.
  rewrite <- Ho, <- Ht, <- Hi.
  destruct (Part000.gameOver p) eqn:Eo; [exact H |].
  destruct (Part000.targetCountry p) as [target |] eqn:Et; [| exact H].
  destruct (candidate toLowerCase countries sel (Part000.inputValue p)) as [g |].
  - assert (Hex : existsb (fun x => String.eqb (Country.code (Guess.country x))
                                      (Country.code g)) (Page.guesses q) =
                  existsb (fun x => String.eqb
                                      (Country.code (Part000.Guess.country x))
                                      (Country.code g)) (Part000.guesses p)).
    { rewrite <- Hg. clear. induction (Part000.guesses p) as [| x xs IH];
        simpl; [reflexivity | now rewrite IH]. }
    rewrite Hex.
    destruct (existsb _ (Part000.guesses p)).
    + unfold sameRound. simpl. repeat split; assumption.
    + unfold sameRound. simpl. rewrite Hg, Hw. now repeat split.
  - unfold sameRound. simpl. repeat split; assumption.
Qed.

Lemma submitGuess_sameRound_witness :
  sameRound
    (Part000.submitGuess ascii_toLowerCase Sample.table (Some Sample.germany)
       Sample.franceGame)
    (Page.submitGuess ascii_toLowerCase Sample.table (Some Sample.germany)
       Sample.franceRound).
Proof.
  apply submitGuess_sameRound. unfold sameRound. simpl. now repeat split.
Defined.

End PageFacts.

(** ** Integers in doubles *)

Module NumberFacts.
Import Floats.
Import FloatRange FloatFacts FloatBounds.
Local Open Scope Z_scope.

Lemma iter_xO_pow2 d : forall m, Z.pos (Pos.iter xO m d) = Z.pos m * 2 ^ Z.pos d.
Proof.
  induction d as [| d IH] using Pos.peano_ind; intros m.
  - cbn [Pos.iter]. lia.
  - rewrite Pos.iter_succ, Pos2Z.inj_succ, Z.pow_succ_r by lia.
    rewrite Pos2Z.inj_xO, IH. ring.
Qed.

Lemma shl_align_down m e e' :
  e' <= e ->
  Z.pos (fst (shl_align m e e')) = Z.pos m * 2 ^ (e - e') /\
  snd (shl_align m e e') = e'.
Proof.
  intros H. unfold shl_align.
  destruct (e' - e) as [| d | d] eqn:E; cbn [fst snd].
  - replace (e - e') with 0 by lia. split; lia.
  - lia.
  - rewrite iter_xO_pow2. replace (e - e') with (Z.pos d) by lia. split; lia.
Qed.

Lemma binary_round_aux_scaled s m e j n E :
  valid_binary (S754_finite s m e) = true -> 0 <= j ->
  n = Z.pos m * 2 ^ j -> E = e - j ->
  binary_round_aux prec emax s n E loc_Exact = S754_finite s m e.
Proof. intros V Hj -> ->. now apply binary_round_aux_exact. Qed.

(** A positive value [M * 2 ^ E] that a mantissa and exponent in canonical
    form hold is normalized to them. *)
Lemma binary_normalize_exact (M : positive) (E : Z) (m0 : positive) (e0 : Z) :
  valid_binary (S754_finite false m0 e0) = true ->
  (E <= e0 /\ Z.pos M = Z.pos m0 * 2 ^ (e0 - E)) \/
  (e0 <= E /\ Z.pos m0 = Z.pos M * 2 ^ (E - e0)) ->
  binary_normalize prec emax (Z.pos M) E false = S754_finite false m0 e0.
Proof.
  intros V H. pose proof V as V'.
  unfold SpecFloat.valid_binary, bounded, canonical_mantissa in V'.
  apply andb_true_iff in V'. destruct V' as [C _]. apply Z.eqb_eq in C.
  change (Z.pos (digits2_pos m0)) with (Zdigits2 (Z.pos m0)) in C.
  cbn [binary_normalize]. unfold binary_round.
  change (Z.pos (digits2_pos M)) with (Zdigits2 (Z.pos M)).
  assert (D : Zdigits2 (Z.pos M) + E = Zdigits2 (Z.pos m0) + e0).
  { destruct H as [[H1 H2] | [H1 H2]].
    - rewrite H2, Zdigits2_mul_pow2 by lia. lia.
    - rewrite H2, Zdigits2_mul_pow2 by lia. lia. }
  rewrite D, C.
  destruct H as [[H1 H2] | [H1 H2]].
  - unfold shl_align. destruct (e0 - E) as [| d | d] eqn:Ed.
    + apply (binary_round_aux_scaled _ _ _ 0); try assumption; lia.
    + apply (binary_round_aux_scaled _ _ _ (Z.pos d)); try assumption; lia.
    + lia.
  - pose proof (shl_align_down M E e0 H1) as [S1 S2].
    destruct (shl_align M E e0) as [mz ez]. cbn [fst snd] in S1, S2. subst ez.
    apply (binary_round_aux_scaled _ _ _ 0); try assumption; lia.
Qed.

(** An integer below [2 ^ 53] is a double: its mantissa and exponent. *)
Lemma integer_canonical N :
  0 < N < 2 ^ 53 ->
  exists m0,
    Z.pos m0 = N * 2 ^ (53 - Zdigits2 N) /\
    valid_binary (S754_finite false m0 (Zdigits2 N - 53)) = true.
Proof.
  intros HN. pose proof (Zdigits2_spec N (proj1 HN)) as Hd.
  assert (D1 : 1 <= Zdigits2 N).
  { destruct (Z_lt_le_dec (Zdigits2 N) 1) as [L | L]; [| exact L].
    exfalso. assert (Zdigits2 N <= 0) by lia.
    pose proof (Zdigits2_nonneg N). assert (E : Zdigits2 N = 0) by lia.
    rewrite E in Hd. simpl in Hd. lia. }
  assert (D2 : Zdigits2 N <= 53).
  { destruct (Z_le_gt_dec (Zdigits2 N) 53) as [L | L]; [exact L |].
    exfalso. assert (2 ^ 53 <= 2 ^ (Zdigits2 N - 1))
      by (apply Z.pow_le_mono_r; lia). lia. }
  assert (P : 0 < 2 ^ (53 - Zdigits2 N)) by (apply Z.pow_pos_nonneg; lia).
  exists (Z.to_pos (N * 2 ^ (53 - Zdigits2 N))).
  rewrite Z2Pos.id by nia. split; [reflexivity |].
  unfold SpecFloat.valid_binary, bounded, canonical_mantissa.
  change (Z.pos (digits2_pos ?p)) with (Zdigits2 (Z.pos p)).
  rewrite Z2Pos.id by nia.
  rewrite Zdigits2_mul_pow2 by lia.
  apply andb_true_iff. rewrite Z.eqb_eq, Z.leb_le.
  unfold fexp, SpecFloat.emin, emax, prec. lia.
Qed.

Lemma Prim2SF_of_Z N :
  0 <= N < 2 ^ 53 ->
  Prim2SF (Number.of_Z N) = binary_normalize prec emax N 0 false.
Proof.
  intros H. unfold Number.of_Z. rewrite of_uint63_spec, Uint63.of_Z_spec.
  rewrite Z.mod_small; [reflexivity |].
  change Uint63.wB with (2 ^ 63). lia.
Qed.

(** The double of an integer below [2 ^ 53], in canonical form. *)
Lemma Prim2SF_of_Z_pos N :
  0 < N < 2 ^ 53 ->
  exists m0,
    Z.pos m0 = N * 2 ^ (53 - Zdigits2 N) /\
    valid_binary (S754_finite false m0 (Zdigits2 N - 53)) = true /\
    Prim2SF (Number.of_Z N) = S754_finite false m0 (Zdigits2 N - 53).
Proof.
  intros HN. destruct (integer_canonical N HN) as (m0 & E & V).
  exists m0. split; [exact E |]. split; [exact V |].
  rewrite Prim2SF_of_Z by lia.
  destruct N as [| M | M]; try lia.
  apply binary_normalize_exact; [exact V |]. right.
  pose proof (Zdigits2_spec (Z.pos M) (proj1 HN)) as Hd.
  assert (D2 : Zdigits2 (Z.pos M) <= 53).
  { destruct (Z_le_gt_dec (Zdigits2 (Z.pos M)) 53) as [L | L]; [exact L |].
    exfalso. assert (2 ^ 53 <= 2 ^ (Zdigits2 (Z.pos M) - 1))
      by (apply Z.pow_le_mono_r; lia). lia. }
  split; [lia |]. rewrite E. f_equal. f_equal. lia.
Qed.

(** Integers add without rounding as long as the sum is below [2 ^ 53]. *)
Lemma of_Z_add a b :
  0 <= a -> 0 <= b -> a + b < 2 ^ 53 ->
  (Number.of_Z a + Number.of_Z b)%float = Number.of_Z (a + b).
Proof.
  intros Ha Hb Hab. apply Prim2SF_inj. rewrite add_spec.
  destruct (Z.eq_dec a 0) as [-> | Na].
  { change (Prim2SF (Number.of_Z 0)) with (S754_zero false).
    rewrite Z.add_0_l.
    destruct (Z.eq_dec b 0) as [-> | Nb]; [reflexivity |].
    destruct (Prim2SF_of_Z_pos b ltac:(lia)) as (mb & _ & _ & ->).
    reflexivity. }
  destruct (Prim2SF_of_Z_pos a ltac:(lia)) as (ma & Ea & Va & Pa).
  destruct (Z.eq_dec b 0) as [-> | Nb].
  { change (Prim2SF (Number.of_Z 0)) with (S754_zero false).
    rewrite Z.add_0_r, Pa. reflexivity. }
  destruct (Prim2SF_of_Z_pos b ltac:(lia)) as (mb & Eb & Vb & Pb).
  destruct (Prim2SF_of_Z_pos (a + b) ltac:(lia)) as (mc & Ec & Vc & Pc).
  rewrite Pa, Pb, Pc. unfold SF64add. cbn [SFadd cond_Zopp].
  set (ea := Zdigits2 a - 53) in *. set (eb := Zdigits2 b - 53) in *.
  set (ec := Zdigits2 (a + b) - 53) in *.
  set (ez := Z.min ea eb).
  pose proof (Zdigits2_le a (a + b) ltac:(lia)) as La.
  pose proof (Zdigits2_le b (a + b) ltac:(lia)) as Lb.
  pose proof (Zdigits2_spec (a + b) ltac:(lia)) as Hd.
  assert (D2 : Zdigits2 (a + b) <= 53).
  { destruct (Z_le_gt_dec (Zdigits2 (a + b)) 53) as [L | L]; [exact L |].
    exfalso. assert (2 ^ 53 <= 2 ^ (Zdigits2 (a + b) - 1))
      by (apply Z.pow_le_mono_r; lia). lia. }
  pose proof (Zdigits2_nonneg a) as Na0. pose proof (Zdigits2_nonneg b) as Nb0.
  destruct (shl_align_down ma ea ez ltac:(lia)) as [Sa _].
  destruct (shl_align_down mb eb ez ltac:(lia)) as [Sb _].
  rewrite Sa, Sb, Ea, Eb.
  assert (Fa : a * 2 ^ (53 - Zdigits2 a) * 2 ^ (ea - ez) = a * 2 ^ (- ez)).
  { rewrite <- Z.mul_assoc, <- Z.pow_add_r by lia. f_equal. f_equal. lia. }
  assert (Fb : b * 2 ^ (53 - Zdigits2 b) * 2 ^ (eb - ez) = b * 2 ^ (- ez)).
  { rewrite <- Z.mul_assoc, <- Z.pow_add_r by lia. f_equal. f_equal. lia. }
  rewrite Fa, Fb, <- Z.mul_add_distr_r.
  assert (P : 0 < 2 ^ (- ez)) by (apply Z.pow_pos_nonneg; lia).
  destruct ((a + b) * 2 ^ (- ez)) as [| M | M] eqn:EM; try nia.
  apply binary_normalize_exact; [exact Vc |]. left.
  split; [lia |]. rewrite Ec, <- EM.
  rewrite <- Z.mul_assoc, <- Z.pow_add_r by lia. f_equal. f_equal. lia.
Qed.

End NumberFacts.

(** ** The tenths of a quotient of counts *)

Module ScoreCheckFacts.
Import Floats.
Import ScoreCheck.
Local Open Scope Z_scope.

Lemma all_from_spec f n : forall z k,
  all_from f n z = true -> z <= k < z + Z.of_nat n -> f k = true.
Proof.
  induction n as [| n IH]; intros z k H Hk; [lia |].
  cbn [all_from] in H. apply andb_true_iff in H. destruct H as [H1 H2].
  destruct (Z.eq_dec k z) as [-> | Hne]; [exact H1 |].
  apply (IH (z + 1)); [exact H2 | lia].
Qed.

(** By evaluation, over the 55010 pairs. *)
Lemma agree_all_true : agree_all = true.
Proof. vm_compute. reflexivity. Qed.

Lemma Qfloor_tenths_Z (N : Z) : Qfloor (inject_Z N * 10 + (1 # 2)) = 10 * N.
Proof.
  unfold Qfloor, inject_Z, Qmult, Qplus. cbn [Qnum Qden].
  change (Z.pos (1 * 1 * 2)) with 2. change (Z.pos (1 * 1)) with 1.
  symmetry. apply (Z.div_unique _ 2 _ 1); lia.
Qed.

Lemma Qfloor_tenths_frac (m p : positive) :
  Qfloor ((Z.pos m # 2 ^ p) * 10 + (1 # 2)) =
  Z.shiftr (20 * Z.pos m + Z.shiftl 1 (Z.pos p)) (Z.pos p + 1).
Proof.
  unfold Qfloor, Qmult, Qplus. cbn [Qnum Qden].
  rewrite Z.shiftr_div_pow2, Z.shiftl_mul_pow2 by lia.
  rewrite !Pos2Z.inj_mul, Pos2Z.inj_pow.
  rewrite Z.pow_add_r by lia.
  f_equal; lia.
Qed.

(** [tenths] is the tenths of the exact value. *)
Lemma tenths_value x n :
  tenths x = Some n ->
  exists v, Number.value x = Some v /\ (0 <= v)%Q /\
            Qfloor (v * 10 + (1 # 2)) = n.
Proof.
  unfold tenths, Number.value.
  destruct (Prim2SF x) as [s | s | | s m e]; try discriminate.
  - intros H. injection H as <-. exists 0%Q. now repeat split.
  - destruct s; [discriminate |].
    destruct e as [| p | p]; intros H; injection H as <-; eexists;
      (split; [reflexivity |]); split.
    + now unfold Qle.
    + apply Qfloor_tenths_Z.
    + unfold Qle, inject_Z. cbn [Qnum Qden]. lia.
    + apply Qfloor_tenths_Z.
    + now unfold Qle.
    + apply Qfloor_tenths_frac.
Qed.

End ScoreCheckFacts.

(** ** The results screen *)

Module ScoreFacts.
Import Page.

(** The sum of the guesses in doubles is the double of their sum, as long
    as that is below 2 ^ 53. *)
Lemma fold_left_guesses (rs : list RoundResult.t) : forall acc : nat,
  (Z.of_nat (acc + list_sum (map RoundResult.guesses rs)) < 2 ^ 53)%Z ->
  fold_left
    (fun sum r => PrimFloat.add sum (Number.of_nat (RoundResult.guesses r)))
    rs (Number.of_nat acc) =
  Number.of_nat (acc + list_sum (map RoundResult.guesses rs)).
Proof.
  induction rs as [| r rs IH]; intros acc H; cbn [fold_left map list_sum fold_right].
  - now rewrite Nat.add_0_r.
  - cbn [map list_sum fold_right] in H.
    change (fold_right Nat.add 0%nat (map RoundResult.guesses rs))
      with (list_sum (map RoundResult.guesses rs)) in *.
    change (PrimFloat.add (Number.of_nat acc) (Number.of_nat (RoundResult.guesses r)))
      with (PrimFloat.add (Number.of_Z (Z.of_nat acc))
              (Number.of_Z (Z.of_nat (RoundResult.guesses r)))).
    rewrite NumberFacts.of_Z_add by lia.
    rewrite <- Nat2Z.inj_add.
    change (Number.of_Z (Z.of_nat (acc + RoundResult.guesses r)))
      with (Number.of_nat (acc + RoundResult.guesses r)).
    rewrite IH by lia. f_equal. lia.
Qed.

Lemma filter_won_count (rs : list RoundResult.t) :
  List.length (filter RoundResult.won rs) =
  count_occ Bool.bool_dec (map RoundResult.won rs) true.
Proof.
  induction rs as [| r rs IH]; simpl; [reflexivity |].
  destruct (RoundResult.won r); simpl; now rewrite IH.
Qed.

Lemma filter_won_idem (rs : list RoundResult.t) :
  filter RoundResult.won (filter RoundResult.won rs) = filter RoundResult.won rs.
Proof.
  induction rs as [| r rs IH]; simpl; [reflexivity |].
  destruct (RoundResult.won r) eqn:E; simpl; [rewrite E |]; now rewrite ?IH.
Qed.

(** Won rounds of at most 1000 guesses each. *)
Lemma won_guesses_bound (rs : list RoundResult.t) :
  Forall (fun r => (RoundResult.guesses r <= 1000)%nat) rs ->
  (list_sum (map RoundResult.guesses (filter RoundResult.won rs)) <=
   1000 * List.length (filter RoundResult.won rs))%nat.
Proof.
  induction 1 as [| r rs Hr _ IH]; cbn [filter]; [simpl; lia |].
  destruct (RoundResult.won r); [| exact IH].
  cbn [map list_sum fold_right List.length].
  change (fold_right Nat.add 0%nat ?l) with (list_sum l). lia.
Qed.

(** [toFixed1] of a number that is not negative: no sign, and the tenths
    are the number rounded to the nearest tenth. *)
Lemma toFixed1_nonneg (x : Q) :
  (0 <= x)%Q ->
  exists n : Z,
    toFixed1 x = (digits (n / 10) ++ "." ++ digits (n mod 10))%string /\
    (0 <= n)%Z /\
    (inject_Z n <= x * 10 + (1 # 2))%Q /\ (x * 10 + (1 # 2) < inject_Z n + 1)%Q.
Proof.
  intros Hx. exists (Qfloor (x * 10 + (1 # 2))). unfold toFixed1.
  destruct (Qlt_le_dec x 0) as [Hneg | _].
  - exfalso. apply (Qlt_not_le _ _ Hneg Hx).
  - split; [reflexivity |]. split; [| split].
    + change 0%Z with (Qfloor 0). apply Qfloor_resp_le.
      assert (H : (0 <= x * 10)%Q) by (apply Qmult_le_0_compat; [exact Hx | discriminate]).
      apply Qle_trans with (x * 10)%Q; [exact H |].
      rewrite <- (Qplus_0_r (x * 10)) at 1. apply Qplus_le_r. discriminate.
    + apply Qfloor_le.
    + rewrite <- (inject_Z_plus _ 1). apply Qlt_floor.
Qed.

(** Two numbers that are not negative and have the same tenths read the
    same. *)
Lemma toFixed1_tenths (x y : Q) :
  (0 <= x)%Q -> (0 <= y)%Q ->
  Qfloor (x * 10 + (1 # 2)) = Qfloor (y * 10 + (1 # 2)) ->
  toFixed1 x = toFixed1 y.
Proof.
  intros Hx Hy E. unfold toFixed1.
  destruct (Qlt_le_dec x 0) as [Hneg | _];
    [exfalso; apply (Qlt_not_le _ _ Hneg Hx) |].
  destruct (Qlt_le_dec y 0) as [Hneg | _];
    [exfalso; apply (Qlt_not_le _ _ Hneg Hy) |].
  now rewrite E.
Qed.

(** The tenths of an exact quotient of counts. *)
Lemma Qfloor_quotient (S : Z) (w : positive) :
  Qfloor (inject_Z S / inject_Z (Z.pos w) * 10 + (1 # 2)) =
  ((20 * S + Z.pos w) / (2 * Z.pos w))%Z.
Proof.
  unfold Qfloor, Qdiv, Qinv, Qmult, Qplus, inject_Z. cbn [Qnum Qden].
  f_equal; lia.
Qed.

(** For 1 to 10 won rounds of at most 1000 guesses each, the quotient in
    doubles reads as the exact quotient does. *)
Lemma quotient_toFixed1 (W S : Z) :
  (1 <= W <= 10)%Z -> (0 <= S <= 1000 * W)%Z ->
  Number_toFixed1 (PrimFloat.div (Number.of_Z S) (Number.of_Z W)) =
  toFixed1 (inject_Z S / inject_Z W).
Proof.
  intros HW HS.
  pose proof (ScoreCheckFacts.all_from_spec _ _ _ W
                ScoreCheckFacts.agree_all_true ltac:(simpl; lia)) as H1.
  cbv beta in H1.
  pose proof (ScoreCheckFacts.all_from_spec _ _ _ S H1 ltac:(lia)) as H2.
  unfold ScoreCheck.agree in H2.
  destruct (ScoreCheck.tenths _) as [n |] eqn:T; [| discriminate].
  apply Z.eqb_eq in H2.
  destruct (ScoreCheckFacts.tenths_value _ _ T) as (v & Ev & Hv & Fv).
  unfold Number_toFixed1. rewrite Ev.
  destruct W as [| w | w]; try lia.
  apply toFixed1_tenths; [exact Hv | |].
  - apply Qle_shift_div_l; [reflexivity |]. rewrite Qmult_0_l.
    change 0%Q with (inject_Z 0). rewrite <- Zle_Qle. lia.
  - now rewrite Fv, H2, Qfloor_quotient.
Qed.

(** C9.  The win count of the results screen is the number of rounds with
    [won = true].  The average is the number 0 when no round was won;
    otherwise, in a session of at most 10 won rounds of at most 1000
    guesses each, it is the text of the mean number of guesses of the won
    rounds, rounded to the nearest tenth (the sum and the quotient are
    taken in doubles, and within these bounds their rounding does not
    show).  Rounds that were not won do not count.  For the session won
    in 2 guesses, skipped, won in 4 guesses, the win count is 2 and the
    average reads 3.0. *)
Theorem calculateAverageScore_mean (roundResults : list RoundResult.t) :
  wonRounds roundResults =
    count_occ Bool.bool_dec (map RoundResult.won roundResults) true /\
  (wonRounds roundResults = 0%nat ->
   calculateAverageScore roundResults = ScoreNumber 0) /\
  (wonRounds roundResults <> 0%nat ->
   (wonRounds roundResults <= 10)%nat ->
   Forall (fun r => (RoundResult.guesses r <= 1000)%nat) roundResults ->
   exists n : Z,
     calculateAverageScore roundResults =
       ScoreText (digits (n / 10) ++ "." ++ digits (n mod 10)) /\
     (0 <= n)%Z /\
     (inject_Z n - (1 # 2) <=
      10 * (inject_Z (Z.of_nat (list_sum (map RoundResult.guesses
                                   (filter RoundResult.won roundResults)))) /
            inject_Z (Z.of_nat (wonRounds roundResults))))%Q /\
     (10 * (inject_Z (Z.of_nat (list_sum (map RoundResult.guesses
                                   (filter RoundResult.won roundResults)))) /
            inject_Z (Z.of_nat (wonRounds roundResults))) <
      inject_Z n + (1 # 2))%Q) /\
  calculateAverageScore roundResults =
    calculateAverageScore (filter RoundResult.won roundResults) /\
  wonRounds Sample.session = 2%nat /\
  calculateAverageScore Sample.session = ScoreText "3.0".
Proof.
  split; [apply filter_won_count |].
  split; [| split; [| split; [| split]]].
  - unfold wonRounds, calculateAverageScore. intros H. now rewrite H.
  - unfold wonRounds, calculateAverageScore. intros H Hten Hguesses.
    destruct (Nat.eqb_spec (List.length (filter RoundResult.won roundResults)) 0)
      as [E | _]; [contradiction |].
    pose proof (won_guesses_bound roundResults Hguesses) as Hsum.
    change PrimFloat.zero with (Number.of_nat 0).
    rewrite fold_left_guesses by (simpl (0 + _)%nat; lia).
    simpl (0 + _)%nat.
    set (total := list_sum _) in *. set (len := List.length _) in *.
    unfold Number.of_nat. rewrite quotient_toFixed1 by lia.
    assert (Hlen : (0 < inject_Z (Z.of_nat len))%Q).
    { change 0%Q with (inject_Z 0). rewrite <- Zlt_Qlt. lia. }
    assert (Hmean : (0 <= inject_Z (Z.of_nat total) / inject_Z (Z.of_nat len))%Q).
    { apply Qle_shift_div_l; [exact Hlen |]. rewrite Qmult_0_l.
      change 0%Q with (inject_Z 0). rewrite <- Zle_Qle. lia. }
    destruct (toFixed1_nonneg _ Hmean) as (n & E & Hn & Hlo & Hhi).
    exists n. rewrite E. split; [reflexivity |]. split; [exact Hn |].
    set (mean := (inject_Z (Z.of_nat total) / inject_Z (Z.of_nat len))%Q) in *.
    split; Lqa.lra.
  - unfold calculateAverageScore. now rewrite filter_won_idem.
  - reflexivity.
  - vm_compute. reflexivity.
Qed.

End ScoreFacts.

(** ** Substrings *)

Module StringFacts.

Lemma startsWith_spec (s sub : string) :
  startsWith s sub = true <-> exists post, s = (sub ++ post)%string.
Proof.
  revert s. induction sub as [| b sub IH]; intros s.
  - split; [intros _; now exists s | intros _; now destruct s].
  - destruct s as [| a s]; simpl.
    + split; [discriminate | intros [post H]; discriminate].
    + rewrite andb_true_iff, Ascii.eqb_eq, IH. split.
      * intros [-> [post ->]]. now exists post.
      * intros [post H]. injection H as -> ->. split; [reflexivity | now exists post].
Qed.

(** [s.includes(sub)] holds exactly when [sub] occurs in [s]. *)
Lemma includes_spec (s sub : string) :
  includes s sub = true <-> exists pre post, s = (pre ++ sub ++ post)%string.
Proof.
  induction s as [| a s IH].
  - change (includes "" sub) with (startsWith "" sub || false).
    rewrite orb_false_r, startsWith_spec. split.
    + intros [post H]. now exists EmptyString, post.
    + intros [pre [post H]]. destruct pre as [| c pre]; [| discriminate].
      now exists post.
  - change (includes (String a s) sub)
      with (startsWith (String a s) sub || includes s sub).
    rewrite orb_true_iff, startsWith_spec, IH. split.
    + intros [[post H] | [pre [post H]]].
      * now exists EmptyString, post.
      * exists (String a pre), post. simpl. now rewrite H.
    + intros [pre [post H]]. destruct pre as [| c pre].
      * left. now exists post.
      * right. simpl in H. injection H as _ H. now exists pre, post.
Qed.

Lemma append_empty_r (s : string) : (s ++ "")%string = s.
Proof. induction s as [| a s IH]; simpl; [reflexivity | now rewrite IH]. Qed.

Lemma includes_refl (s : string) : includes s s = true.
Proof.
  apply includes_spec. exists EmptyString, EmptyString. simpl.
  now rewrite append_empty_r.
Qed.

Lemma includes_empty (s : string) : includes s "" = true.
Proof. apply includes_spec. now exists EmptyString, s. Qed.

End StringFacts.

(** ** Colours of a guess *)

Module ColorsFacts.
Import Colors.

Lemma page_texts_distinct :
  CORRECT <> HOT /\ CORRECT <> WARM /\ CORRECT <> COOL /\ CORRECT <> COLD /\
  HOT <> WARM /\ HOT <> COOL /\ HOT <> COLD /\
  WARM <> COOL /\ WARM <> COLD /\ COOL <> COLD.
Proof. unfold CORRECT, HOT, WARM, COOL, COLD. repeat split; discriminate. Qed.

Ltac cascade d :=
  destruct (Req_dec_T d 0); [|
  destruct (Rlt_dec d 1000); [|
  destruct (Rlt_dec d 3000); [|
  destruct (Rlt_dec d 8000)]]].

(** The point colour, the feedback text and the row colour of
    [src/app/page.tsx] split the distances in the same five classes, the
    dark text goes with the last of them (the grey row) and with no other,
    and a point is drawn large and high exactly for the distance 0. *)
Theorem colours_agree (d d' : R) :
  (getPointColor d = getPointColor d' <-> getHotColdText d = getHotColdText d') /\
  (getPointColor d = getPointColor d' <-> Feedback.getColor d = Feedback.getColor d') /\
  (getTextColor d = "text-gray-900"%string <-> getHotColdText d = COLD) /\
  (getTextColor d = "text-gray-900"%string <->
   Feedback.getColor d = "from-gray-400 to-gray-500"%string) /\
  (forall c, PageUI.GlobePoint.size (PageUI.newPoint c d) = 1.5 <-> d = 0) /\
  (forall c, PageUI.GlobePoint.size (PageUI.newPoint c d) = 1.5 <-> PageUI.GlobePoint.color (PageUI.newPoint c d) = "#10b981"%string).
Proof.
  destruct page_texts_distinct as (D1 & D2 & D3 & D4 & D5 & D6 & D7 & D8 & D9 & D10).
  unfold PageUI.newPoint. simpl.
  unfold getPointColor, getHotColdText, getTextColor, Feedback.getColor.
  split; [| split; [| split; [| split; [| split]]]].
  - cascade d; cascade d'; split; intros H;
      try reflexivity; try congruence; try discriminate H.
  - cascade d; cascade d'; split; intros H;
      try reflexivity; try congruence; try discriminate H.
  - cascade d; split; intros H;
      try reflexivity; try congruence; try discriminate H;
      destruct (Rlt_dec d 8000); try reflexivity; try discriminate; try lra;
      try congruence.
  - cascade d; split; intros H;
      try reflexivity; try congruence; try discriminate H;
      destruct (Rlt_dec d 8000); try reflexivity; try discriminate; try lra.
  - intros _. destruct (Req_dec_T d 0); split; intros H; try assumption;
      try reflexivity; try lra; contradiction.
  - intros _. cascade d; split; intros H; try reflexivity;
      try discriminate H; try lra.
Qed.

End ColorsFacts.

(** ** Polygons of the globe *)

Module PolygonsFacts.
Import Polygons.

Section Facts.

Variable toLowerCase : string -> string.

Local Abbreviation getPolygonColor := (Polygons.getPolygonColor toLowerCase).
Local Abbreviation matches := (Polygons.matches toLowerCase).

Lemma guess_colour_not_unguessed (distance : R) :
  (if Req_dec_T distance 0 then "rgba(16, 185, 129, 0.8)"
   else if Rlt_dec distance 1000 then "rgba(239, 68, 68, 0.8)"
   else if Rlt_dec distance 3000 then "rgba(249, 115, 22, 0.8)"
   else if Rlt_dec distance 8000 then "rgba(250, 204, 21, 0.8)"
   else "rgba(156, 163, 175, 0.8)")%string <> unguessed.
Proof.
  unfold unguessed.
  destruct (Req_dec_T distance 0); [discriminate |].
  destruct (Rlt_dec distance 1000); [discriminate |].
  destruct (Rlt_dec distance 3000); [discriminate |].
  destruct (Rlt_dec distance 8000); discriminate.
Qed.

Lemma first_match_decides (target : Country.t)
    (guesses : list Page.Guess.t) (polygon : Polygon.t) before g after :
  guesses = before ++ g :: after ->
  (forall g', In g' before -> matches polygon g' = false) ->
  matches polygon g = true ->
  getPolygonColor (Some target) guesses polygon =
    getPolygonColor (Some target) [g] polygon /\
  getPolygonColor (Some target) guesses polygon <> unguessed.
Proof.
  intros -> Hb Hg.
  assert (E : find (matches polygon) (before ++ g :: after) = Some g).
  { induction before as [| b bs IH]; simpl.
    - now rewrite Hg.
    - rewrite (Hb b) by now left. apply IH. intros g' Hin. apply Hb. now right. }
  unfold Polygons.getPolygonColor. rewrite E. simpl. rewrite Hg. split.
  - reflexivity.
  - apply guess_colour_not_unguessed.
Qed.

(** Without a target every polygon has the colour of the unguessed.  With
    one, a polygon has that colour exactly when no guess matches it, where
    a guess matches when its country's name occurs in the polygon's name or
    the polygon's name occurs in the country's name, letter case apart;
    otherwise the colour is decided by the first guess of the list that
    matches, whatever the guesses before it are. *)
Theorem getPolygonColor_first_match (target : Country.t)
    (guesses : list Page.Guess.t) (polygon : Polygon.t) :
  getPolygonColor None guesses polygon = unguessed /\
  (getPolygonColor (Some target) guesses polygon = unguessed <->
   forall g, In g guesses -> matches polygon g = false) /\
  (forall before g after,
     guesses = before ++ g :: after ->
     (forall g', In g' before -> matches polygon g' = false) ->
     matches polygon g = true ->
     getPolygonColor (Some target) guesses polygon =
       getPolygonColor (Some target) [g] polygon /\
     getPolygonColor (Some target) guesses polygon <> unguessed).
Proof.
  split; [reflexivity |]. split.
  - unfold Polygons.getPolygonColor.
    destruct (find (matches polygon) guesses) as [m |] eqn:E.
    + split.
      * intros H. exfalso. revert H. apply guess_colour_not_unguessed.
      * intros H. apply find_some in E. destruct E as [Hin Hm].
        rewrite (H m Hin) in Hm. discriminate.
    + split; [| reflexivity]. intros _ g Hin. exact (find_none _ _ E g Hin).
  - intros before g after. apply first_match_decides.
Qed.

(** A polygon of the atlas that has no name (no [properties], no [name] or
    an empty one) matches every guess, because the empty text occurs in
    every name: as soon as there is a guess, such a polygon is painted in
    the colour of the latest one. *)
Theorem nameless_polygon_latest_guess (target : Country.t) (g : Page.Guess.t)
    (rest : list Page.Guess.t) (polygon : Polygon.t) :
  toLowerCase "" = ""%string ->
  polygonName polygon = ""%string ->
  getPolygonColor (Some target) (g :: rest) polygon =
    getPolygonColor (Some target) [g] polygon /\
  getPolygonColor (Some target) (g :: rest) polygon <> unguessed.
Proof.
  intros Hlow Hname.
  assert (Hm : matches polygon g = true).
  { unfold Polygons.matches. rewrite Hname, Hlow.
    rewrite StringFacts.includes_empty. apply orb_true_r. }
  destruct (first_match_decides target (g :: rest) polygon [] g rest)
    as [H1 H2]; try reflexivity; try assumption; [intros g' [] |]; now split.
Qed.

End Facts.

End PolygonsFacts.

Module PolygonsExamples.

Lemma getPolygonColor_first_match_witness :
  Polygons.getPolygonColor ascii_toLowerCase (Some Sample.france)
    [Atlas.guineaGuess] Atlas.guineaBissau <> Polygons.unguessed.
Proof.
  apply (proj2 (proj2 (PolygonsFacts.getPolygonColor_first_match
                         ascii_toLowerCase Sample.france [Atlas.guineaGuess]
                         Atlas.guineaBissau))
           [] Atlas.guineaGuess []).
  - reflexivity.
  - intros g' [].
  - reflexivity.
Defined.

Lemma nameless_polygon_latest_guess_witness :
  Polygons.getPolygonColor ascii_toLowerCase (Some Sample.france)
    [Atlas.guineaGuess] Atlas.nameless <> Polygons.unguessed.
Proof.
  apply (PolygonsFacts.nameless_polygon_latest_guess ascii_toLowerCase
           Sample.france Atlas.guineaGuess [] Atlas.nameless);
    reflexivity.
Defined.

End PolygonsExamples.

(** ** Arrows of the single-round page *)

Module ArrowsFacts.
Import Arrows.

Lemma arrow_of_label (l : string) :
  In l Utils.labels ->
  exists arrow, getDirectionArrow (Some l) = Some (Text arrow) /\
                In arrow (map snd arrows).
Proof.
  unfold Utils.labels. simpl.
  intros [<- | [<- | [<- | [<- | [<- | [<- | [<- | [<- | []]]]]]]]];
    (eexists; split; [reflexivity | simpl; tauto]).
Qed.

(** The arrow shown for a guess is always one of the eight arrows: what
    [getDirection] returns is a key of the literal, so the fallback to the
    label itself is never taken and nothing inherited is read.  Different
    labels have different arrows.  A text that is no key and no inherited
    name comes back as it is, and an [undefined] direction stays
    [undefined]. *)
Theorem getDirectionArrow_of_getDirection (lat1 lon1 lat2 lon2 : R) :
  (exists arrow,
     getDirectionArrow (Utils.getDirection lat1 lon1 lat2 lon2) =
       Some (Text arrow) /\
     In arrow (map snd arrows)) /\
  (forall l l', In l Utils.labels -> In l' Utils.labels ->
     getDirectionArrow (Some l) = getDirectionArrow (Some l') -> l = l') /\
  (forall d, lookup d arrows = None -> ~ In d inherited ->
     getDirectionArrow (Some d) = Some (Text d)) /\
  getDirectionArrow None = None.
Proof.
  split; [| split; [| split]].
  - destruct (UtilsFacts.getDirection_total lat1 lon1 lat2 lon2) as [l [-> Hl]].
    now apply arrow_of_label.
  - unfold Utils.labels. simpl. intros l l' Hl Hl'.
    repeat (destruct Hl as [<- | Hl]); try contradiction;
      repeat (destruct Hl' as [<- | Hl']); try contradiction;
      intros H; try reflexivity; discriminate H.
  - intros d Hd Hi. unfold getDirectionArrow. rewrite Hd.
    destruct (existsb (String.eqb d) inherited) eqn:E; [| reflexivity].
    exfalso. apply Hi. apply existsb_exists in E. destruct E as [k [Hk He]].
    apply String.eqb_eq in He. now subst k.
  - reflexivity.
Qed.

End ArrowsFacts.

(** ** What a game of the single-round page keeps *)

Module Part000Rounds.
Import Part000 Rounds.

Section Facts.

Variable toLowerCase : string -> string.
Variable countries : list Country.t.

Local Abbreviation submitGuess := (Part000.submitGuess toLowerCase countries).
Local Abbreviation candidate := (candidate toLowerCase countries).
Local Abbreviation reachable := (Part000.reachable toLowerCase countries).
Local Abbreviation handler := (Part000.handler toLowerCase countries).

Lemma part000Game_submitGuess sel s :
  invariant s -> part000Game s -> part000Game (submitGuess sel s).
Proof.
  intros [Hnd Hgw] (Ht & Hd & Hr).
  destruct (Part000Facts.submitGuess_cases_000 toLowerCase countries sel s)
    as [E | [(t & Hg & Htg & Hc) | [(t & g & Hg & Htg & Hc & Hin)
                                    | (t & g & Hg & Htg & Hc & Hin)]]].
  - rewrite E. split; [exact Ht |]. split; [exact Hd |]. exact Hr.
  - rewrite (Part000Facts.submitGuess_not_found_000 _ _ _ _ _ Hg Htg Hc).
    split; [exact Ht |]. split; [exact Hd |]. exact Hr.
  - rewrite (Part000Facts.submitGuess_duplicate_000 _ _ _ _ _ _ Hg Htg Hc Hin).
    split; [exact Ht |]. split; [exact Hd |]. exact Hr.
  - rewrite (Part000Facts.submitGuess_accepted_000 _ _ _ _ _ _ Hg Htg Hc Hin).
    destruct (Hr t Htg) as (H1 & H2 & H3).
    split; [| split].
    + simpl. intros _. now exists t.
    + simpl. constructor; [| exact Hd].
      destruct (UtilsFacts.getDirection_total
                  (Country.latitude g) (Country.longitude g)
                  (Country.latitude t) (Country.longitude t)) as [l Hl].
      now exists l.
    + simpl. intros t' Et. rewrite Htg in Et. injection Et as <-.
      split; [| split].
      * intros He. apply String.eqb_neq in He.
        unfold guessedCodes. simpl. intros [Hh | Hh].
        -- now apply He.
        -- now apply (H1 Hg).
      * intros He. apply String.eqb_eq in He. now eexists; eexists.
      * constructor; [now split | exact H3].
Qed.

Lemma part000Game_handler e s :
  invariant s -> part000Game s -> part000Game (handler e s).
Proof.
  intros Hi Hp. destruct e; simpl.
  - split; [discriminate |]. split; [constructor |].
    intros target _. simpl. split; [intros _ [] |].
    split; [discriminate | constructor].
  - now apply part000Game_submitGuess.
  - exact Hp.
  - exact Hp.
  - exact Hp.
  - exact Hp.
Qed.

Lemma part000Game_inputEffect before s :
  part000Game s -> part000Game (inputEffect before s).
Proof.
  unfold inputEffect. now destruct (String.eqb before (inputValue s)).
Qed.

Lemma reachable_part000Game s : reachable s -> part000Game s.
Proof.
  induction 1 as [| e s Hr IH].
  - split; [discriminate |]. split; [constructor |]. intros target H. discriminate.
  - apply part000Game_inputEffect, part000Game_handler; [| exact IH].
    now apply (Part000Facts.reachable_invariant_000 toLowerCase countries).
Qed.

(** On the single-round page a game that is over is a game that is won: its
    target is defined and is the country of the latest guess, so the
    attempt count shown is at least 1 and the text for a lost game is never
    shown.  While the game goes on, the target's code is not among the
    guessed codes. *)
Theorem gameOver_is_won (s : State) :
  reachable s ->
  (gameOver s = true ->
   win s = true /\
   exists target g rest,
     targetCountry s = Some target /\ guesses s = g :: rest /\
     Country.code (Guess.country g) = Country.code target) /\
  (forall target, inProgress s target ->
     ~ In (Country.code target) (guessedCodes s)).
Proof.
  intros Hr.
  destruct (reachable_part000Game s Hr) as (Ht & _ & Hrel).
  destruct (Part000Facts.reachable_invariant_000 _ _ s Hr) as [_ Hgw].
  split.
  - intros Hg. split; [congruence |].
    destruct (Ht Hg) as [target Htg]. destruct (Hrel target Htg) as (_ & H2 & _).
    destruct (H2 Hg) as (g & rest & E1 & E2). now exists target, g, rest.
  - intros target [Htg Hg]. now apply (Hrel target Htg).
Qed.

(** Every guess the single-round page shows carries the distance and the
    direction from its country to the target of the game in progress, and
    its direction is shown as one of the eight arrows. *)
Theorem guesses_relative_to_target (s : State) :
  reachable s ->
  Forall (fun g => exists arrow,
            Arrows.getDirectionArrow (Guess.direction g) =
              Some (Arrows.Text arrow) /\
            In arrow (map snd Arrows.arrows))
         (guesses s) /\
  (forall target, targetCountry s = Some target ->
     Forall (fun g =>
               Guess.distance g = distanceTo target (Guess.country g) /\
               Guess.direction g =
                 Utils.getDirection
                   (Country.latitude (Guess.country g))
                   (Country.longitude (Guess.country g))
                   (Country.latitude target) (Country.longitude target))
            (guesses s)).
Proof.
  intros Hr. destruct (reachable_part000Game s Hr) as (_ & Hd & Hrel). split.
  - apply Forall_impl with (2 := Hd). intros g [l [-> Hl]].
    now apply ArrowsFacts.arrow_of_label.
  - intros target Htg. now apply (Hrel target Htg).
Qed.

End Facts.

Lemma gameOver_is_won_witness :
  Part000.win
    (Part000.submitGuess ascii_toLowerCase Sample.table (Some Sample.france)
       Sample.franceGame) = true.
Proof.
  assert (Hr : Part000.reachable ascii_toLowerCase Sample.table
                 (Part000.submitGuess ascii_toLowerCase Sample.table
                    (Some Sample.france) Sample.franceGame)).
  { change (Part000.submitGuess ascii_toLowerCase Sample.table
              (Some Sample.france) Sample.franceGame)
      with (Part000.handle ascii_toLowerCase Sample.table
              (Part000.Submit (Some Sample.france)) Sample.franceGame).
    apply Part000.reach_step.
    change Sample.franceGame
      with (Part000.handle ascii_toLowerCase Sample.table
              (Part000.StartNewGame 0) Part000.initial).
    apply Part000.reach_step, Part000.reach_initial. }
  apply (proj1 (gameOver_is_won ascii_toLowerCase Sample.table _ Hr)).
  reflexivity.
Defined.

Lemma guesses_relative_to_target_witness :
  Forall (fun g => exists arrow,
            Arrows.getDirectionArrow (Part000.Guess.direction g) =
              Some (Arrows.Text arrow) /\
            In arrow (map snd Arrows.arrows))
         (Part000.guesses
            (Part000.submitGuess ascii_toLowerCase Sample.table
               (Some Sample.germany) Sample.franceGame)).
Proof.
  apply (guesses_relative_to_target ascii_toLowerCase Sample.table).
  apply Part000Facts.germany_guessed_reachable.
Defined.

End Part000Rounds.

(** ** What a round of the session page keeps *)

Module PageRounds.
Import Page Rounds.

Section Facts.

Variable toLowerCase : string -> string.
Variable countries : list Country.t.

Local Abbreviation submitGuess := (Page.submitGuess toLowerCase countries).
Local Abbreviation candidate := (candidate toLowerCase countries).
Local Abbreviation reachable := (Page.reachable toLowerCase countries).
Local Abbreviation handler := (Page.handler toLowerCase countries).
Local Abbreviation startNewRound := (Page.startNewRound countries).

Lemma pageRound_fresh s :
  guesses s = [] -> roundOver s = false -> win s = false ->
  Forall wellFormed (roundResults s) -> pageRound s.
Proof.
  intros Hg Hr Hw Hf. split; [exact Hf |]. intros target _.
  unfold guessedCodes. rewrite Hg, Hr, Hw. simpl.
  split; [intros _ [] |]. split; [discriminate |]. split; [constructor | discriminate].
Qed.

Lemma pageRound_frame s s' :
  targetCountry s' = targetCountry s -> guesses s' = guesses s ->
  roundOver s' = roundOver s -> win s' = win s ->
  roundResults s' = roundResults s ->
  pageRound s -> pageRound s'.
Proof.
  unfold pageRound, guessedCodes, summary.
  intros -> -> -> -> ->. exact (fun H => H).
Qed.

Lemma pageRound_submitGuess sel s :
  invariant s -> pageRound s -> pageRound (submitGuess sel s).
Proof.
  intros [Hnd Hwr] [Hf Hr].
  destruct (PageFacts.submitGuess_cases toLowerCase countries sel s)
    as [E | [(t & Hg & Htg & Hc) | [(t & g & Hg & Htg & Hc & Hin)
                                    | (t & g & Hg & Htg & Hc & Hin)]]].
  - rewrite E. now split.
  - rewrite (PageFacts.submitGuess_not_found _ _ _ _ _ Hg Htg Hc).
    apply (pageRound_frame s); try reflexivity. now split.
  - rewrite (PageFacts.submitGuess_duplicate _ _ _ _ _ _ Hg Htg Hc Hin).
    apply (pageRound_frame s); try reflexivity. now split.
  - rewrite (PageFacts.submitGuess_accepted _ _ _ _ _ _ Hg Htg Hc Hin).
    assert (Hw : win s = false).
    { destruct (win s); [rewrite Hwr in Hg by reflexivity; discriminate | reflexivity]. }
    destruct (Hr t Htg) as (H1 & H2 & H3 & H4).
    unfold pageRound, guessedCodes, summary. simpl. rewrite Hw.
    destruct (String.eqb (Country.code g) (Country.code t)) eqn:He.
    + apply String.eqb_eq in He. split.
      * apply Forall_app. split; [exact Hf |].
        constructor; [| constructor]. unfold wellFormed. simpl. lia.
      * intros t' Et. rewrite Htg in Et. injection Et as <-.
        split; [discriminate |]. split; [intros _; now eexists; eexists |].
        split; [constructor; [reflexivity | exact H3] |].
        intros _. now exists (roundResults s).
    + apply String.eqb_neq in He. split; [exact Hf |].
      intros t' Et. rewrite Htg in Et. injection Et as <-.
      split.
      * intros _ [Hh | Hh]; [now apply He | now apply (H1 Hw)].
      * split; [discriminate |].
        split; [constructor; [reflexivity | exact H3] | discriminate].
Qed.

Lemma pageRound_skipRound s :
  invariant s -> pageRound s -> pageRound (skipRound s).
Proof.
  intros [Hnd Hwr] Hp. pose proof Hp as [Hf Hr]. unfold skipRound.
  destruct (targetCountry s) as [t |] eqn:Htg; [| exact Hp].
  destruct (roundOver s) eqn:Hg; [exact Hp |].
  assert (Hw : win s = false).
  { destruct (win s); [discriminate (Hwr eq_refl) | reflexivity]. }
  destruct (Hr t eq_refl) as (H1 & H2 & H3 & H4).
  unfold pageRound, guessedCodes, summary. simpl. rewrite Hw. split.
  - apply Forall_app. split; [exact Hf |].
    constructor; [reflexivity | constructor].
  - intros t' Et. injection Et as <-.
    split; [intros _; now apply H1 |]. split; [discriminate |].
    split; [exact H3 |]. intros _. now exists (roundResults s).
Qed.

Lemma pageRound_handler e s s' :
  invariant s -> pageRound s -> handler e s = Some s' -> pageRound s'.
Proof.
  intros Hi Hp H. destruct e; simpl in H.
  - unfold Page.startGame in H.
    destruct (startNewRound mode today draws s) as [s1 |] eqn:E; [| discriminate].
    apply PageFacts.startNewRound_fresh in E. destruct E as (E1 & E2 & E3 & _).
    injection H as <-. apply pageRound_fresh; simpl; auto.
  - injection H as <-. now apply pageRound_submitGuess.
  - injection H as <-. now apply pageRound_skipRound.
  - unfold Page.nextRound in H.
    destruct (currentRound s <? totalRounds s)%Z.
    + destruct (startNewRound None today draws s) as [s1 |] eqn:E; [| discriminate].
      apply PageFacts.startNewRound_fresh in E. destruct E as (E1 & E2 & E3 & E4).
      injection H as <-. apply pageRound_fresh; simpl; auto.
      rewrite E4. apply Hp.
    + injection H as <-. now apply (pageRound_frame s).
  - injection H as <-. split; [constructor |]. intros target Ht. discriminate.
  - injection H as <-. now apply (pageRound_frame s).
  - injection H as <-. now apply (pageRound_frame s).
  - injection H as <-. now apply (pageRound_frame s).
  - injection H as <-. now apply (pageRound_frame s).
  - injection H as <-. now apply (pageRound_frame s).
  - injection H as <-. now apply (pageRound_frame s).
Qed.

Lemma pageRound_inputEffect before s : pageRound s -> pageRound (inputEffect before s).
Proof.
  unfold inputEffect. destruct (String.eqb before (inputValue s)); [easy |].
  now apply pageRound_frame.
Qed.

Lemma reachable_pageRound s : reachable s -> pageRound s.
Proof.
  induction 1 as [| e s s' Hr IH Hs].
  - apply pageRound_fresh; try reflexivity. constructor.
  - unfold Page.handle in Hs.
    destruct (handler e s) as [s1 |] eqn:E; [| discriminate].
    injection Hs as <-. apply pageRound_inputEffect.
    apply (pageRound_handler e s s1); auto.
    now apply (PageFacts.reachable_invariant toLowerCase countries).
Qed.

(** While a round has a target, it is won exactly when the target's code
    is among the guessed codes, and then the target is the country of the
    latest guess: no guess is accepted after the winning one. *)
Theorem won_iff_target_guessed (s : State) (target : Country.t) :
  reachable s -> targetCountry s = Some target ->
  (win s = true <-> In (Country.code target) (guessedCodes s)) /\
  (win s = true ->
   exists g rest, guesses s = g :: rest /\
                  Country.code (Guess.country g) = Country.code target).
Proof.
  intros Hr Ht. destruct (reachable_pageRound s Hr) as [_ H].
  destruct (H target Ht) as (H1 & H2 & _). split; [| exact H2].
  split.
  - intros Hw. destruct (H2 Hw) as (g & rest & E1 & E2).
    unfold guessedCodes. rewrite E1. simpl. now left.
  - intros Hin. destruct (win s); [reflexivity |]. exfalso. now apply H1.
Qed.

(** Every recorded guess of a round carries the distance from its country
    to the round's target: the target never changes under a guess list
    that is not empty. *)
Theorem distances_to_target (s : State) (target : Country.t) :
  reachable s -> targetCountry s = Some target ->
  Forall (fun g => Guess.distance g = distanceTo target (Guess.country g))
         (guesses s).
Proof.
  intros Hr Ht. destruct (reachable_pageRound s Hr) as [_ H].
  now apply (H target Ht).
Qed.

(** The round summaries: when a round with a target is over, its summary
    is the last of the list, with the number of guesses of the round if it
    was won and 0 if it was skipped; and every summary of the list counts
    one guess or more when won and none when skipped. *)
Theorem roundResults_summaries (s : State) :
  reachable s ->
  Forall wellFormed (roundResults s) /\
  (forall target, targetCountry s = Some target -> roundOver s = true ->
     exists earlier, roundResults s = earlier ++ [summary s target]).
Proof.
  intros Hr. destruct (reachable_pageRound s Hr) as [Hf H]. split; [exact Hf |].
  intros target Ht Ho. now apply (H target Ht).
Qed.

End Facts.

Lemma franceWon_reachable :
  Page.reachable ascii_toLowerCase Sample.table
    (Page.submitGuess ascii_toLowerCase Sample.table (Some Sample.france)
       Sample.franceRound).
Proof.
  apply (Page.reach_step _ _ (Page.Submit (Some Sample.france)) Sample.franceRound).
  - apply PageFacts.franceRound_reachable.
  - reflexivity.
Qed.

Lemma won_iff_target_guessed_witness :
  In (Country.code Sample.france)
     (guessedCodes
        (Page.submitGuess ascii_toLowerCase Sample.table (Some Sample.france)
           Sample.franceRound)).
Proof.
  apply (proj1 (won_iff_target_guessed ascii_toLowerCase Sample.table _
                  Sample.france franceWon_reachable eq_refl)).
  reflexivity.
Defined.

Lemma distances_to_target_witness :
  Forall (fun g => Guess.distance g = distanceTo Sample.france (Guess.country g))
         (guesses
            (Page.submitGuess ascii_toLowerCase Sample.table (Some Sample.france)
               Sample.franceRound)).
Proof.
  apply (distances_to_target ascii_toLowerCase Sample.table _ Sample.france
           franceWon_reachable eq_refl).
Defined.

Lemma roundResults_summaries_witness :
  Forall wellFormed
    (roundResults
       (Page.submitGuess ascii_toLowerCase Sample.table (Some Sample.france)
          Sample.franceRound)).
Proof.
  apply (roundResults_summaries ascii_toLowerCase Sample.table _
           franceWon_reachable).
Defined.

End PageRounds.

(** ** The target of a practice round *)

Module TargetFacts.
Import Page.

Section Facts.

Variable countries : list Country.t.

Local Abbreviation pickRandom := (Page.pickRandom countries).
Local Abbreviation startNewRound := (Page.startNewRound countries).
Local Abbreviation nextRound := (Page.nextRound countries).

Local Abbreviation ends := (Rounds.ends countries).

Lemma pickRandom_result (target : option Country.t) (draws : list nat)
    (r : option Country.t) :
  pickRandom target draws = Some r ->
  exists draw, In draw draws /\ r = nth_error countries draw /\
    forall t, target = Some t ->
      exists r', r = Some r' /\ In r' countries /\
        ((1 < List.length countries)%nat -> Country.code r' <> Country.code t).
Proof.
  induction draws as [| d rest IH]; simpl; [discriminate |].
  destruct target as [t |].
  - destruct (nth_error countries d) as [c |] eqn:Ec; [| discriminate].
    destruct (String.eqb (Country.code c) (Country.code t)) eqn:He; simpl.
    + destruct (Nat.ltb_spec 1 (List.length countries)) as [Hl | Hl].
      * intros H. destruct (IH H) as (draw & Hin & E & Hp).
        exists draw. split; [now right |]. now split.
      * intros H. injection H as <-. exists d. split; [now left |].
        split; [now rewrite Ec |]. intros t' Et. injection Et as <-.
        exists c. split; [reflexivity |].
        split; [now apply nth_error_In with d | lia].
    + intros H. injection H as <-. exists d. split; [now left |].
      split; [now rewrite Ec |]. intros t' Et. injection Et as <-.
      exists c. split; [reflexivity |].
      split; [now apply nth_error_In with d |].
      intros _. now apply String.eqb_neq.
  - intros H. injection H as <-. exists d. split; [now left |].
    split; [reflexivity |]. intros t Et. discriminate.
Qed.

Lemma pickRandom_ends (target : option Country.t) (draws : list nat) :
  Forall (fun d => (d < List.length countries)%nat) draws ->
  Exists (ends target) draws ->
  exists r, pickRandom target draws = Some r.
Proof.
  intros Hrange Hex. induction draws as [| d rest IH]; [inversion Hex |].
  inversion Hrange as [| ? ? Hd Hrest]; subst. simpl.
  destruct target as [t |]; [| now eexists].
  destruct (nth_error countries d) as [c |] eqn:Ec.
  - destruct (String.eqb (Country.code c) (Country.code t)
              && (1 <? List.length countries)%nat) eqn:Hb; [| now eexists].
    apply IH; [exact Hrest |].
    inversion Hex as [? ? Hhere | ? ? Hlater]; subst; [| exact Hlater].
    exfalso. unfold Rounds.ends in Hhere. rewrite Ec in Hhere.
    apply andb_true_iff in Hb. destruct Hb as [Hb1 Hb2].
    apply String.eqb_eq in Hb1. apply Nat.ltb_lt in Hb2.
    destruct Hhere as [Hne | Hle]; [contradiction | lia].
  - exfalso. apply nth_error_None in Ec. lia.
Qed.

(** The loop of [startNewRound] in practice mode.  What it returns is the
    table entry of one of the draws; when there was a target before and
    the table has two entries or more, it is an entry with another code,
    so a practice round never repeats the target of the round before.  The
    loop returns as soon as a draw gives an entry with another code; with
    a table of one entry, or without a target before, the first draw ends
    it. *)
Theorem pickRandom_avoids_previous (target : option Country.t)
    (draws : list nat) :
  Forall (fun d => (d < List.length countries)%nat) draws ->
  (forall r, pickRandom target draws = Some r ->
     exists draw, In draw draws /\ r = nth_error countries draw /\
       forall t, target = Some t ->
         exists r', r = Some r' /\ In r' countries /\
           ((1 < List.length countries)%nat ->
            Country.code r' <> Country.code t)) /\
  (Exists (ends target) draws -> exists r, pickRandom target draws = Some r) /\
  (forall draw rest, draws = draw :: rest ->
     target = None \/ (List.length countries <= 1)%nat ->
     pickRandom target draws = Some (nth_error countries draw)).
Proof.
  intros Hrange. split; [| split].
  - intros r. apply pickRandom_result.
  - now apply pickRandom_ends.
  - intros draw rest -> H. simpl.
    destruct target as [t |]; [| reflexivity].
    destruct H as [H | H]; [discriminate |].
    inversion Hrange as [| ? ? Hd _]; subst.
    destruct (nth_error countries draw) as [c |] eqn:Ec.
    + destruct (Nat.ltb_spec 1 (List.length countries)); [lia |].
      now rewrite andb_false_r.
    + apply nth_error_None in Ec. lia.
Qed.

(** What [nextRound] leaves after a round with target [t]: a target of the
    table with another code, the round counter one up, an empty round in
    progress, and the summaries kept. *)
Lemma nextRound_opens (today : Z) (draws : list nat) (s s' : State)
    (t : Country.t) :
  (currentRound s < totalRounds s)%Z ->
  gameMode s <> Some daily ->
  targetCountry s = Some t ->
  (1 < List.length countries)%nat ->
  nextRound today draws s = Some s' ->
  (exists t', targetCountry s' = Some t' /\ In t' countries /\
              Country.code t' <> Country.code t) /\
  currentRound s' = (currentRound s + 1)%Z /\
  guesses s' = [] /\ roundOver s' = false /\ win s' = false /\
  roundResults s' = roundResults s.
Proof.
  intros Hlt Hmode Ht Hlen H. unfold Page.nextRound in H.
  destruct (Z.ltb_spec (currentRound s) (totalRounds s)) as [_ | Hge]; [| lia].
  unfold Page.startNewRound in H.
  assert (Hm : match gameMode s with
               | Some daily => Some (getTodaysCountry countries today)
               | _ => pickRandom (targetCountry s) draws
               end = pickRandom (targetCountry s) draws).
  { destruct (gameMode s) as [[|] |]; try reflexivity. contradiction. }
  rewrite Hm in H.
  destruct (pickRandom (targetCountry s) draws) as [r |] eqn:Ep; [| discriminate].
  injection H as <-. simpl.
  destruct (pickRandom_result _ _ _ Ep) as (draw & _ & _ & Hp).
  destruct (Hp t Ht) as (r' & -> & Hin & Hne).
  repeat split; try reflexivity. exists r'. repeat split; auto.
Qed.

(** [nextRound] returns when the loop of [startNewRound] ends: the draws
    are positions of the table and one of them gives an entry with another
    code than the target's. *)
Lemma nextRound_returns (today : Z) (draws : list nat) (s : State) :
  (currentRound s < totalRounds s)%Z ->
  gameMode s <> Some daily ->
  Forall (fun d => (d < List.length countries)%nat) draws ->
  Exists (ends (targetCountry s)) draws ->
  exists s', nextRound today draws s = Some s'.
Proof.
  intros Hlt Hmode Hrange Hex. unfold Page.nextRound.
  destruct (Z.ltb_spec (currentRound s) (totalRounds s)) as [_ | Hge]; [| lia].
  unfold Page.startNewRound.
  destruct (pickRandom_ends _ _ Hrange Hex) as [r Er].
  destruct (gameMode s) as [[|] |]; try contradiction;
    rewrite Er; eexists; reflexivity.
Qed.

(** The next practice round has another target.  In a session that is not
    at its last round and not in daily mode, after a round with target [t]
    and on a table of two entries or more: when the draws are positions of
    the table and one of them gives an entry with another code than [t]'s,
    [nextRound] returns, and what it returns has as target a table entry
    whose code is not [t]'s, the round counter one up, an empty round in
    progress and the summaries kept; and whatever draws make it return,
    the state returned is of that kind. *)
Theorem nextRound_new_target (today : Z) (draws : list nat) (s : State)
    (t : Country.t) :
  (currentRound s < totalRounds s)%Z ->
  gameMode s <> Some daily ->
  targetCountry s = Some t ->
  (1 < List.length countries)%nat ->
  (Forall (fun d => (d < List.length countries)%nat) draws ->
   Exists (ends (Some t)) draws ->
   exists s' t',
     nextRound today draws s = Some s' /\
     targetCountry s' = Some t' /\ In t' countries /\
     Country.code t' <> Country.code t /\
     currentRound s' = (currentRound s + 1)%Z /\
     guesses s' = [] /\ roundOver s' = false /\ win s' = false /\
     roundResults s' = roundResults s) /\
  (forall s', nextRound today draws s = Some s' ->
     (exists t', targetCountry s' = Some t' /\ In t' countries /\
                 Country.code t' <> Country.code t) /\
     currentRound s' = (currentRound s + 1)%Z /\
     guesses s' = [] /\ roundOver s' = false /\ win s' = false /\
     roundResults s' = roundResults s).
Proof.
  intros Hlt Hmode Ht Hlen. split.
  - intros Hrange Hex. rewrite <- Ht in Hex.
    destruct (nextRound_returns today draws s Hlt Hmode Hrange Hex) as [s' E].
    destruct (nextRound_opens today draws s s' t Hlt Hmode Ht Hlen E)
      as ((t' & H1 & H2 & H3) & H4 & H5 & H6 & H7 & H8).
    exists s', t'. repeat split; assumption.
  - intros s'. now apply nextRound_opens.
Qed.

End Facts.

Lemma pickRandom_avoids_previous_witness :
  exists r, Page.pickRandom Sample.table (Some Sample.france) [0; 0; 2; 1]%nat =
            Some r.
Proof.
  apply (proj1 (proj2 (pickRandom_avoids_previous Sample.table
                         (Some Sample.france) [0; 0; 2; 1]%nat
                         ltac:(repeat constructor)))).
  right. right. left. simpl. left. discriminate.
Defined.

(** After the skipped round with target France, on the table of three and
    with the draws 0 and 2: France is drawn and refused, Japan is drawn
    and the second round opens on it. *)
Lemma nextRound_new_target_witness :
  exists s' t',
    Page.nextRound Sample.table 0 [0; 2]%nat
      (Page.skipRound Sample.franceRound) = Some s' /\
    Page.targetCountry s' = Some t' /\ In t' Sample.table /\
    Country.code t' <> Country.code Sample.france /\
    Page.currentRound s' = 2%Z /\
    Page.guesses s' = [] /\ Page.roundOver s' = false /\
    Page.win s' = false /\
    Page.roundResults s' =
      Page.roundResults (Page.skipRound Sample.franceRound).
Proof.
  apply (proj1 (nextRound_new_target Sample.table 0 [0; 2]%nat
                  (Page.skipRound Sample.franceRound) Sample.france
                  ltac:(simpl; lia) ltac:(discriminate) eq_refl
                  ltac:(simpl; lia))).
  - repeat constructor.
  - right. left. simpl. left. discriminate.
Defined.

End TargetFacts.

(** ** The whole session page *)

Module PageUIFacts.
Import Page PageUI Rounds Screens.

Section Facts.

Variable toLowerCase : string -> string.
Variable countries : list Country.t.

Local Abbreviation reachable := (PageUI.reachable toLowerCase countries).
Local Abbreviation step := (PageUI.step toLowerCase countries).
Local Abbreviation handler := (PageUI.handler toLowerCase countries).
Local Abbreviation inputEffect := (PageUI.inputEffect toLowerCase countries).
Local Abbreviation submitGuess := (PageUI.submitGuess toLowerCase countries).
Local Abbreviation acceptedGuess := (PageUI.acceptedGuess toLowerCase countries).
Local Abbreviation handleKeyDown := (PageUI.handleKeyDown toLowerCase countries).
Local Abbreviation candidate := (candidate toLowerCase countries).
Local Abbreviation suggestions := (PageUI.suggestions toLowerCase countries).

Lemma step_inv e v v' :
  step e v = Some v' ->
  rendered e v = true /\
  exists v1, handler e v = Some v1 /\
             v' = inputEffect (Page.inputValue (page v)) v1.
Proof.
  unfold PageUI.step. destruct (rendered e v); [| discriminate].
  destruct (handler e v) as [v1 |]; [| discriminate].
  intros H. injection H as <-. split; [reflexivity |]. now exists v1.
Qed.

(** The effect of the whole page does to the cells of [Page.State] what
    [Page.inputEffect] says, and leaves the globe alone. *)
Lemma page_inputEffect before v :
  page (inputEffect before v) = Page.inputEffect before (page v) /\
  globePoints (inputEffect before v) = globePoints v.
Proof.
  unfold PageUI.inputEffect, Page.inputEffect.
  destruct (String.eqb before (Page.inputValue (page v))); [now split |].
  destruct (String.length (Page.inputValue (page v))); now split.
Qed.

Lemma inputEffect_same s : Page.inputEffect (Page.inputValue s) s = s.
Proof. unfold Page.inputEffect. now rewrite String.eqb_refl. Qed.

(** What a handler of the whole page does to the cells of [Page.State] is
    nothing, or what a handler of [Page] does. *)
Lemma handler_page e v v1 :
  handler e v = Some v1 ->
  page v1 = page v \/
  exists e', Page.handler toLowerCase countries e' (page v) = Some (page v1).
Proof.
  destruct e; simpl; intros H.
  - injection H as <-. right. now exists (Page.SetGameScreen setup).
  - unfold PageUI.startGame in H.
    destruct (Page.startGame countries (Some daily) 1 today [] (page v))
      as [s' |] eqn:E; [| discriminate].
    injection H as <-. right. now exists (Page.StartGame (Some daily) 1 today []).
  - injection H as <-. right. now exists (Page.SetGameScreen home).
  - injection H as <-. right. now exists (Page.SetTotalRounds num).
  - unfold PageUI.startGame in H.
    destruct (Page.startGame countries (Some practice) (totalRounds (page v))
                today draws (page v)) as [s' |] eqn:E; [| discriminate].
    injection H as <-. right.
    now exists (Page.StartGame (Some practice) (totalRounds (page v)) today draws).
  - unfold PageUI.startGame in H.
    destruct (Page.startGame countries (gameMode (page v)) (totalRounds (page v))
                today draws (page v)) as [s' |] eqn:E; [| discriminate].
    injection H as <-. right.
    now exists (Page.StartGame (gameMode (page v)) (totalRounds (page v))
                  today draws).
  - injection H as <-. right. now exists Page.ReturnToHome.
  - unfold PageUI.nextRound in H.
    destruct (Page.nextRound countries today draws (page v)) as [s' |] eqn:E;
      [| discriminate].
    injection H as <-. right. now exists (Page.NextRound today draws).
  - injection H as <-. right. now exists Page.SkipRound.
  - injection H as <-. right.
    now exists (Page.Submit (nth_error (firstn 8 (filteredCountries v)) index)).
  - injection H as <-. right. now exists (Page.Submit None).
  - injection H as <-. right. now exists (Page.Change value).
  - injection H as <-.
    destruct (String.length (inputValue (page v)) =? 0)%nat eqn:El;
      [now left |].
    right. exists Page.Focus. simpl. now rewrite El.
  - injection H as <-. unfold PageUI.handleKeyDown.
    destruct (negb (showSuggestions (page v))
              || (List.length (filteredCountries v) =? 0)%nat); [now left |].
    destruct key; simpl; try (now left).
    + destruct (0 <=? selectedIndex v)%Z; [| now left].
      right.
      now exists (Page.Submit (Utils.array_get (filteredCountries v)
                                 (selectedIndex v))).
    + right. now exists Page.Escape.
  - injection H as <-. right. now exists Page.ErrorTimeout.
Qed.

Lemma step_page e v v' :
  step e v = Some v' ->
  page v' = page v \/
  exists e', Page.handle toLowerCase countries e' (page v) = Some (page v').
Proof.
  intros H. apply step_inv in H. destruct H as (_ & v1 & Hh & ->).
  destruct (page_inputEffect (inputValue (page v)) v1) as [-> _].
  destruct (handler_page _ _ _ Hh) as [E | [e' He']].
  - left. rewrite E. apply inputEffect_same.
  - right. exists e'. unfold Page.handle. now rewrite He'.
Qed.

Lemma reachable_page (v : View) :
  reachable v -> Page.reachable toLowerCase countries (page v).
Proof.
  induction 1 as [| e v v' Hr IH Hp Hs].
  - apply Page.reach_initial.
  - destruct (step_page _ _ _ Hs) as [-> | [e' He']]; [exact IH |].
    now apply (Page.reach_step _ _ e' (page v)).
Qed.

Lemma reachable_run es v v' :
  reachable v -> Forall (plausible countries) es ->
  run toLowerCase countries es v = Some v' -> reachable v'.
Proof.
  revert v. induction es as [| e es IH]; simpl; intros v Hr Hp H.
  - now injection H as <-.
  - inversion Hp as [| ? ? He Hes]; subst.
    destruct (PageUI.step toLowerCase countries e v) as [v1 |] eqn:E;
      [| discriminate].
    apply (IH v1); auto. now apply (reach_step _ _ e v).
Qed.

(** The page with its screens is a restriction of the page of all
    handlers: whatever the cells of [Page.State] hold in a state the player
    can bring about is a state the handlers of [Page] reach, so what holds
    of every state of [Page] holds there. *)
Theorem screens_refine_page (v : View) :
  reachable v -> Page.reachable toLowerCase countries (page v).
Proof. apply reachable_page. Qed.

(** *** The guards of [submitGuess] *)

Lemma acceptedGuess_Some sel s g t :
  acceptedGuess sel s = Some (g, t) ->
  roundOver s = false /\ targetCountry s = Some t /\
  candidate sel (inputValue s) = Some g /\
  ~ In (Country.code g) (guessedCodes s).
Proof.
  unfold PageUI.acceptedGuess.
  destruct (roundOver s); [discriminate |].
  destruct (targetCountry s) as [t' |]; [| discriminate].
  destruct (candidate sel (inputValue s)) as [g' |]; [| discriminate].
  destruct (existsb _ (guesses s)) eqn:E; [discriminate |].
  intros H. injection H as <- <-. repeat split.
  now apply (existsb_code_not_In (fun x => Country.code (Guess.country x))).
Qed.

Lemma acceptedGuess_None sel s :
  acceptedGuess sel s = None ->
  guesses (Page.submitGuess toLowerCase countries sel s) = guesses s /\
  inputValue (Page.submitGuess toLowerCase countries sel s) = inputValue s /\
  showSuggestions (Page.submitGuess toLowerCase countries sel s) = showSuggestions s.
Proof.
  unfold PageUI.acceptedGuess, Page.submitGuess.
  destruct (roundOver s); [now repeat split |].
  destruct (targetCountry s) as [t' |]; [| now repeat split].
  destruct (candidate sel (inputValue s)) as [g' |]; [| now repeat split].
  destruct (existsb _ (guesses s)) eqn:E; [now repeat split | discriminate].
Qed.

Lemma acceptedGuess_guesses sel s g t :
  acceptedGuess sel s = Some (g, t) ->
  guesses (Page.submitGuess toLowerCase countries sel s) =
    {| Guess.country := g; Guess.distance := distanceTo t g |} :: guesses s /\
  inputValue (Page.submitGuess toLowerCase countries sel s) = ""%string /\
  showSuggestions (Page.submitGuess toLowerCase countries sel s) = false.
Proof.
  intros H. apply acceptedGuess_Some in H. destruct H as (Hr & Ht & Hc & Hin).
  rewrite (PageFacts.submitGuess_accepted _ _ _ _ _ _ Hr Ht Hc Hin).
  now repeat split.
Qed.

(** *** The globe *)

Lemma globe_inputEffect before v : globe v -> globe (inputEffect before v).
Proof.
  unfold globe. destruct (page_inputEffect before v) as [-> ->].
  now destruct (PageFacts.inputEffect_frame before (page v)) as (-> & _).
Qed.

Lemma globe_onPage f v :
  guesses (f (page v)) = guesses (page v) -> globe v -> globe (onPage f v).
Proof. unfold globe. simpl. now intros ->. Qed.

Lemma globe_submitGuess sel v : globe v -> globe (submitGuess sel v).
Proof.
  unfold globe. simpl. intros H.
  destruct (acceptedGuess sel (page v)) as [[g t] |] eqn:E.
  - destruct (acceptedGuess_guesses _ _ _ _ E) as (-> & _). simpl.
    now rewrite H.
  - destruct (acceptedGuess_None _ _ E) as (-> & _). exact H.
Qed.

Lemma globe_startGame mode rounds today draws v v1 :
  PageUI.startGame countries mode rounds today draws v = Some v1 -> globe v1.
Proof.
  unfold PageUI.startGame, Page.startGame.
  destruct (Page.startNewRound countries mode today draws (page v)) as [s1 |] eqn:E;
    [| discriminate].
  apply PageFacts.startNewRound_fresh in E. destruct E as (E1 & _).
  intros H. injection H as <-. unfold globe. simpl. now rewrite E1.
Qed.

Lemma globe_nextRound today draws v v1 :
  globe v -> PageUI.nextRound countries today draws v = Some v1 -> globe v1.
Proof.
  unfold PageUI.nextRound, Page.nextRound. intros Hg.
  destruct (currentRound (page v) <? totalRounds (page v))%Z.
  - destruct (Page.startNewRound countries None today draws (page v))
      as [s1 |] eqn:E; [| discriminate].
    apply PageFacts.startNewRound_fresh in E. destruct E as (E1 & _).
    intros H. injection H as <-. unfold globe. simpl. now rewrite E1.
  - intros H. injection H as <-. exact Hg.
Qed.

Lemma skipRound_guesses s : guesses (skipRound s) = guesses s.
Proof.
  unfold skipRound. destruct (targetCountry s); [| reflexivity].
  now destruct (roundOver s).
Qed.

Lemma globe_handleKeyDown key v : globe v -> globe (handleKeyDown key v).
Proof.
  intros H. unfold PageUI.handleKeyDown.
  destruct (negb (showSuggestions (page v))
            || (List.length (filteredCountries v) =? 0)%nat); [exact H |].
  destruct key; try exact H.
  destruct (0 <=? selectedIndex v)%Z; [now apply globe_submitGuess | exact H].
Qed.

Lemma globe_handler e v v1 : globe v -> handler e v = Some v1 -> globe v1.
Proof.
  intros Hg H. destruct e; simpl in H.
  - injection H as <-. now apply globe_onPage.
  - now apply globe_startGame in H.
  - injection H as <-. now apply globe_onPage.
  - injection H as <-. now apply globe_onPage.
  - now apply globe_startGame in H.
  - now apply globe_startGame in H.
  - injection H as <-. now apply globe_onPage.
  - now apply (globe_nextRound today draws v).
  - injection H as <-. apply globe_onPage; [apply skipRound_guesses | exact Hg].
  - injection H as <-. now apply globe_submitGuess.
  - injection H as <-. now apply globe_submitGuess.
  - injection H as <-. now apply globe_onPage.
  - injection H as <-.
    destruct (String.length (inputValue (page v)) =? 0)%nat; [exact Hg |].
    now apply globe_onPage.
  - injection H as <-. now apply globe_handleKeyDown.
  - injection H as <-. now apply globe_onPage.
Qed.

Lemma reachable_globe v : reachable v -> globe v.
Proof.
  induction 1 as [| e v v' Hr IH Hp Hs].
  - reflexivity.
  - apply step_inv in Hs. destruct Hs as (_ & v1 & Hh & ->).
    apply globe_inputEffect. now apply (globe_handler e v).
Qed.

(** The globe shows one point per guess of the round, oldest first, each at
    the place of the guessed country and in the colour of its distance; the
    points go when the guesses go. *)
Theorem globePoints_mirror_guesses (v : View) :
  reachable v ->
  globePoints v = rev (map pointOf (guesses (page v))) /\
  List.length (globePoints v) = List.length (guesses (page v)) /\
  Forall (fun p => exists g, In g (guesses (page v)) /\
                     GlobePoint.lat p = Country.latitude (Guess.country g) /\
                     GlobePoint.lng p = Country.longitude (Guess.country g) /\
                     GlobePoint.color p = Colors.getPointColor (Guess.distance g))
         (globePoints v).
Proof.
  intros Hr. pose proof (reachable_globe v Hr) as Hg. unfold globe in Hg.
  split; [exact Hg |]. split.
  - now rewrite Hg, length_rev, length_map.
  - rewrite Hg. apply Forall_forall. intros p Hin.
    apply in_rev in Hin. apply in_map_iff in Hin. destruct Hin as [g [<- Hin]].
    exists g. now repeat split.
Qed.

(** *** Suggestions and the keyboard *)

Local Abbreviation selection := (Screens.selection toLowerCase countries).

Lemma selection_frame v v1 :
  inputValue (page v1) = inputValue (page v) ->
  showSuggestions (page v1) = showSuggestions (page v) ->
  filteredCountries v1 = filteredCountries v ->
  selectedIndex v1 = selectedIndex v ->
  selection v -> selection v1.
Proof.
  unfold Screens.selection. now intros -> -> -> ->.
Qed.

(** After the effect the suggestions are right, provided the handler left
    them right when it left the input's value alone. *)
Lemma selection_inputEffect before v1 :
  (-1 <= selectedIndex v1)%Z ->
  (before = inputValue (page v1) -> selection v1) ->
  selection (inputEffect before v1).
Proof.
  intros Hi Hs. unfold PageUI.inputEffect.
  destruct (String.eqb_spec before (inputValue (page v1))) as [E | _];
    [now apply Hs |].
  unfold Screens.selection.
  destruct (0 <? String.length (inputValue (page v1)))%nat eqn:El; simpl;
    rewrite El.
  - apply Nat.ltb_lt in El. repeat split; intros; try lia.
  - apply Nat.ltb_ge in El. repeat split; intros; try lia; discriminate.
Qed.

Lemma selection_submitGuess sel v :
  selection v ->
  inputValue (page (submitGuess sel v)) = inputValue (page v) ->
  selection (submitGuess sel v).
Proof.
  intros Hs Hin. simpl in Hin.
  destruct (acceptedGuess sel (page v)) as [[g t] |] eqn:E.
  - destruct (acceptedGuess_guesses _ _ _ _ E) as (_ & Ei & Es).
    destruct Hs as (H1 & H2 & H3 & H4).
    unfold Screens.selection. simpl. rewrite Es, <- Hin, Ei in *.
    repeat split; auto; intros; discriminate.
  - destruct (acceptedGuess_None _ _ E) as (_ & Ei & Es).
    now apply (selection_frame v).
Qed.

Lemma selection_handleKeyDown key v :
  selection v ->
  inputValue (page (handleKeyDown key v)) = inputValue (page v) ->
  selection (handleKeyDown key v).
Proof.
  intros Hs. unfold PageUI.handleKeyDown.
  destruct (negb (showSuggestions (page v))
            || (List.length (filteredCountries v) =? 0)%nat) eqn:Eg;
    [intros _; exact Hs |].
  apply orb_false_iff in Eg. destruct Eg as [Eshow Elen].
  apply negb_false_iff in Eshow.
  pose proof Hs as (H1 & H2 & H3 & H4). specialize (H4 Eshow). specialize (H3 H4).
  destruct key; try (intros _; exact Hs).
  - intros _. unfold Screens.selection. simpl.
    destruct (Z.ltb_spec (selectedIndex v)
                (Z.of_nat (List.length (filteredCountries v)) - 1));
      repeat split; auto; intros; lia.
  - intros _. unfold Screens.selection. simpl.
    destruct (Z.ltb_spec 0 (selectedIndex v));
      repeat split; auto; intros; lia.
  - destruct (0 <=? selectedIndex v)%Z; [| intros _; exact Hs].
    now apply selection_submitGuess.
  - intros _. unfold Screens.selection. simpl.
    repeat split; auto; intros; discriminate.
Qed.

Lemma index_handleKeyDown key v :
  (-1 <= selectedIndex v)%Z -> (-1 <= selectedIndex (handleKeyDown key v))%Z.
Proof.
  intros H. unfold PageUI.handleKeyDown.
  destruct (negb (showSuggestions (page v))
            || (List.length (filteredCountries v) =? 0)%nat); [exact H |].
  destruct key; simpl; try exact H.
  - destruct (Z.ltb_spec (selectedIndex v)
                (Z.of_nat (List.length (filteredCountries v)) - 1)); lia.
  - destruct (Z.ltb_spec 0 (selectedIndex v)); lia.
  - now destruct (0 <=? selectedIndex v)%Z.
Qed.

Lemma startNewRound_cells mode today draws s s1 :
  Page.startNewRound countries mode today draws s = Some s1 ->
  inputValue s1 = ""%string /\ showSuggestions s1 = showSuggestions s /\
  gameScreen s1 = gameScreen s /\ gameMode s1 = gameMode s /\
  totalRounds s1 = totalRounds s /\ currentRound s1 = currentRound s.
Proof.
  intros H. unfold Page.startNewRound in H.
  destruct mode as [[|] |], (gameMode s) as [[|] |]; simpl in H;
    try (destruct (pickRandom countries (targetCountry s) draws);
         [| discriminate]);
    injection H as <-; simpl; now repeat split.
Qed.

Lemma startGame_fields mode rounds today draws v v1 :
  PageUI.startGame countries mode rounds today draws v = Some v1 ->
  filteredCountries v1 = filteredCountries v /\
  selectedIndex v1 = selectedIndex v /\
  showSuggestions (page v1) = showSuggestions (page v) /\
  inputValue (page v1) = ""%string.
Proof.
  unfold PageUI.startGame, Page.startGame.
  destruct (Page.startNewRound countries mode today draws (page v)) as [s1 |] eqn:E;
    [| discriminate].
  apply startNewRound_cells in E. destruct E as (E1 & E2 & _).
  intros H. injection H as <-. now repeat split.
Qed.

Lemma nextRound_fields today draws v v1 :
  PageUI.nextRound countries today draws v = Some v1 ->
  filteredCountries v1 = filteredCountries v /\
  selectedIndex v1 = selectedIndex v /\
  showSuggestions (page v1) = showSuggestions (page v) /\
  (inputValue (page v1) = ""%string \/
   inputValue (page v1) = inputValue (page v)).
Proof.
  unfold PageUI.nextRound, Page.nextRound.
  destruct (currentRound (page v) <? totalRounds (page v))%Z.
  - destruct (Page.startNewRound countries None today draws (page v))
      as [s1 |] eqn:E; [| discriminate].
    apply startNewRound_cells in E. destruct E as (E1 & E2 & _).
    intros H. injection H as <-. repeat split; auto.
  - intros H. injection H as <-. repeat split. now right.
Qed.

Lemma selection_handler e v v1 :
  selection v -> handler e v = Some v1 ->
  (-1 <= selectedIndex v1)%Z /\
  (inputValue (page v) = inputValue (page v1) -> selection v1).
Proof.
  intros Hs H. pose proof Hs as (_ & Hidx & _).
  destruct e; simpl in H.
  - injection H as <-. split; [exact Hidx |]. intros _. now apply (selection_frame v).
  - destruct (startGame_fields _ _ _ _ _ _ H) as (E1 & E2 & E3 & E4).
    split; [now rewrite E2 |]. intros E. now apply (selection_frame v).
  - injection H as <-. split; [exact Hidx |]. intros _. now apply (selection_frame v).
  - injection H as <-. split; [exact Hidx |]. intros _. now apply (selection_frame v).
  - destruct (startGame_fields _ _ _ _ _ _ H) as (E1 & E2 & E3 & E4).
    split; [now rewrite E2 |]. intros E. now apply (selection_frame v).
  - destruct (startGame_fields _ _ _ _ _ _ H) as (E1 & E2 & E3 & E4).
    split; [now rewrite E2 |]. intros E. now apply (selection_frame v).
  - injection H as <-. split; [exact Hidx |]. intros _. now apply (selection_frame v).
  - destruct (nextRound_fields _ _ _ _ H) as (E1 & E2 & E3 & E4).
    split; [now rewrite E2 |]. intros E. now apply (selection_frame v).
  - injection H as <-. split; [exact Hidx |]. intros _.
    apply (selection_frame v); try reflexivity; try exact Hs; simpl;
      unfold skipRound; destruct (targetCountry (page v)); try reflexivity;
      now destruct (roundOver (page v)).
  - injection H as <-. split; [exact Hidx |]. intros E.
    now apply selection_submitGuess.
  - injection H as <-. split; [exact Hidx |]. intros E.
    now apply selection_submitGuess.
  - injection H as <-. split; [exact Hidx |]. simpl. intros E.
    now apply (selection_frame v).
  - injection H as <-. split.
    + now destruct (String.length (inputValue (page v)) =? 0)%nat.
    + intros _. destruct (Nat.eqb_spec (String.length (inputValue (page v))) 0)
        as [El | El]; [exact Hs |].
      destruct Hs as (H1 & H2 & H3 & H4).
      unfold Screens.selection. simpl. repeat split; auto; intros; lia.
  - injection H as <-. split; [now apply index_handleKeyDown |].
    intros E. now apply selection_handleKeyDown.
  - injection H as <-. split; [exact Hidx |]. intros _. now apply (selection_frame v).
Qed.

Lemma reachable_selection v : reachable v -> selection v.
Proof.
  induction 1 as [| e v v' Hr IH Hp Hs].
  - unfold Screens.selection. simpl. repeat split; intros; try lia; discriminate.
  - apply step_inv in Hs. destruct Hs as (_ & v1 & Hh & ->).
    destruct (selection_handler e v v1 IH Hh) as [Hi Hsel].
    now apply selection_inputEffect.
Qed.

(** *** What the list and the keyboard submit *)

Lemma suggestions_In input c :
  In c (suggestions input) <->
  In c countries /\
  includes (toLowerCase (Country.name c)) (toLowerCase input) = true.
Proof. unfold PageUI.suggestions. apply filter_In. Qed.

Lemma array_get_Some {A : Type} (xs : list A) (i : Z) :
  (0 <= i < Z.of_nat (List.length xs))%Z ->
  exists x, Utils.array_get xs i = Some x /\ In x xs.
Proof.
  intros H. unfold Utils.array_get.
  destruct (Z.ltb_spec i 0); [lia |].
  destruct (nth_error xs (Z.to_nat i)) as [x |] eqn:E.
  - exists x. split; [reflexivity |]. now apply nth_error_In with (Z.to_nat i).
  - apply nth_error_None in E. lia.
Qed.

Lemma array_get_In {A : Type} (xs : list A) (i : Z) (x : A) :
  Utils.array_get xs i = Some x -> In x xs.
Proof.
  unfold Utils.array_get. destruct (i <? 0)%Z; [discriminate |].
  apply nth_error_In.
Qed.

Lemma firstn_In {A : Type} (n : nat) (xs : list A) (x : A) :
  In x (firstn n xs) -> In x xs.
Proof.
  intros H. rewrite <- (firstn_skipn n xs). apply in_or_app. now left.
Qed.

Lemma filtered_suggested v c :
  selection v -> In c (filteredCountries v) ->
  In c countries /\
  includes (toLowerCase (Country.name c))
           (toLowerCase (inputValue (page v))) = true.
Proof.
  intros (H1 & _) Hin. rewrite H1 in Hin.
  destruct (0 <? String.length (inputValue (page v)))%nat;
    [now apply suggestions_In | contradiction].
Qed.

Lemma rendered_ClickSuggestion index v :
  rendered (ClickSuggestion index) v = true ->
  gameScreen (page v) = playing /\ roundOver (page v) = false /\
  showSuggestions (page v) = true /\
  (index < List.length (firstn 8 (filteredCountries v)))%nat.
Proof.
  unfold rendered. destruct (gameScreen (page v)); try discriminate.
  rewrite !andb_true_iff, negb_true_iff.
  intros [[[H1 H2] _] H3]. apply Nat.ltb_lt in H3. now repeat split.
Qed.

(** The suggestions are those of the text in the input; the selected index
    is -1 or an index of the list while the list shows; and what Enter on a
    selection, or a click on a row of the list, submits is an entry of the
    table whose name contains the text, letter case apart: never
    [undefined], for which [submitGuess] would look the text up. *)
Theorem selected_is_suggested (v : View) :
  reachable v ->
  filteredCountries v =
    (if (0 <? String.length (inputValue (page v)))%nat
     then suggestions (inputValue (page v)) else []) /\
  (-1 <= selectedIndex v)%Z /\
  (showSuggestions (page v) = true ->
   inputValue (page v) <> ""%string /\
   (selectedIndex v < Z.of_nat (List.length (filteredCountries v)))%Z) /\
  (showSuggestions (page v) = true -> (0 <= selectedIndex v)%Z ->
   exists c, handleKeyDown Enter v = submitGuess (Some c) v /\
             In c countries /\
             includes (toLowerCase (Country.name c))
                      (toLowerCase (inputValue (page v))) = true) /\
  (forall index, rendered (ClickSuggestion index) v = true ->
   exists c, handler (ClickSuggestion index) v = Some (submitGuess (Some c) v) /\
             In c countries /\
             includes (toLowerCase (Country.name c))
                      (toLowerCase (inputValue (page v))) = true).
Proof.
  intros Hr. pose proof (reachable_selection v Hr) as Hs.
  pose proof Hs as (H1 & H2 & H3 & H4).
  split; [exact H1 |]. split; [exact H2 |]. split; [| split].
  - intros Hshow. specialize (H4 Hshow). split; [| now apply H3].
    intros E. rewrite E in H4. simpl in H4. lia.
  - intros Hshow Hidx. specialize (H4 Hshow). specialize (H3 H4).
    destruct (array_get_Some (filteredCountries v) (selectedIndex v))
      as (c & Ec & Hin); [lia |].
    exists c. split; [| now apply filtered_suggested].
    unfold PageUI.handleKeyDown. rewrite Hshow.
    destruct (Nat.eqb_spec (List.length (filteredCountries v)) 0) as [E | _];
      [lia |].
    simpl. destruct (Z.leb_spec 0 (selectedIndex v)); [| lia]. now rewrite Ec.
  - intros index Hren. apply rendered_ClickSuggestion in Hren.
    destruct Hren as (_ & _ & _ & Hlt).
    destruct (nth_error (firstn 8 (filteredCountries v)) index) as [c |] eqn:Ec.
    + exists c.
      change (handler (ClickSuggestion index) v)
        with (Some (submitGuess (nth_error (firstn 8 (filteredCountries v)) index) v)).
      rewrite Ec. split; [reflexivity |].
      apply filtered_suggested; [exact Hs |].
      apply firstn_In with 8%nat. now apply nth_error_In with index.
    + apply nth_error_None in Ec. lia.
Qed.

(** A text that [submitGuess] resolves names an entry that is among the
    suggestions of that text. *)
Theorem typed_guess_is_suggested (input : string) (c : Country.t) :
  candidate None input = Some c ->
  In c (suggestions input) /\ In c countries /\
  toLowerCase (Country.name c) = toLowerCase input.
Proof.
  intros H. apply candidate_typed in H. destruct H as [Hin He].
  split; [| now split]. apply suggestions_In. split; [exact Hin |].
  rewrite He. apply StringFacts.includes_refl.
Qed.

(** *** The arrow keys *)

Lemma arrowDown_open v :
  showSuggestions (page v) = true -> filteredCountries v <> [] ->
  handleKeyDown ArrowDown v =
  {| selectedIndex :=
       if (selectedIndex v <? Z.of_nat (List.length (filteredCountries v)) - 1)%Z
       then (selectedIndex v + 1)%Z else selectedIndex v;
     page := page v; filteredCountries := filteredCountries v;
     globePoints := globePoints v |}.
Proof.
  intros Hs Hf. unfold PageUI.handleKeyDown. rewrite Hs.
  now destruct (filteredCountries v).
Qed.

Lemma arrowUp_open v :
  showSuggestions (page v) = true -> filteredCountries v <> [] ->
  handleKeyDown ArrowUp v =
  {| selectedIndex :=
       if (0 <? selectedIndex v)%Z then (selectedIndex v - 1)%Z else (-1)%Z;
     page := page v; filteredCountries := filteredCountries v;
     globePoints := globePoints v |}.
Proof.
  intros Hs Hf. unfold PageUI.handleKeyDown. rewrite Hs.
  now destruct (filteredCountries v).
Qed.

Lemma arrowDown_iter v k :
  showSuggestions (page v) = true -> filteredCountries v <> [] ->
  (selectedIndex v <= Z.of_nat (List.length (filteredCountries v)) - 1)%Z ->
  page (Nat.iter k (handleKeyDown ArrowDown) v) = page v /\
  filteredCountries (Nat.iter k (handleKeyDown ArrowDown) v) = filteredCountries v /\
  globePoints (Nat.iter k (handleKeyDown ArrowDown) v) = globePoints v /\
  selectedIndex (Nat.iter k (handleKeyDown ArrowDown) v) =
    Z.min (selectedIndex v + Z.of_nat k)
          (Z.of_nat (List.length (filteredCountries v)) - 1).
Proof.
  intros Hs Hf Hi. induction k as [| k (Hp & Hfc & Hg & Hidx)].
  - simpl. repeat split. lia.
  - change (Nat.iter (S k) (handleKeyDown ArrowDown) v)
      with (handleKeyDown ArrowDown (Nat.iter k (handleKeyDown ArrowDown) v)).
    rewrite arrowDown_open by (rewrite ?Hp, ?Hfc; assumption).
    simpl. rewrite Hp, Hfc, Hg, Hidx. repeat split.
    destruct (Z.ltb_spec
                (Z.min (selectedIndex v + Z.of_nat k)
                       (Z.of_nat (List.length (filteredCountries v)) - 1))
                (Z.of_nat (List.length (filteredCountries v)) - 1)); lia.
Qed.

(** With the list showing, k presses of ArrowDown move the selection k rows
    down and stop at the last suggestion, whatever the number of rows the
    list displays; so every suggestion from the selected one on can be
    selected.  ArrowUp undoes ArrowDown, and goes no higher than -1. *)
Theorem arrow_keys (v : View) (k : nat) :
  showSuggestions (page v) = true -> filteredCountries v <> [] ->
  (-1 <= selectedIndex v <= Z.of_nat (List.length (filteredCountries v)) - 1)%Z ->
  selectedIndex (Nat.iter k (handleKeyDown ArrowDown) v) =
    Z.min (selectedIndex v + Z.of_nat k)
          (Z.of_nat (List.length (filteredCountries v)) - 1) /\
  (forall i, (selectedIndex v <= i < Z.of_nat (List.length (filteredCountries v)))%Z ->
     selectedIndex (Nat.iter (Z.to_nat (i - selectedIndex v))
                      (handleKeyDown ArrowDown) v) = i) /\
  selectedIndex (handleKeyDown ArrowUp v) = Z.max (selectedIndex v - 1) (-1) /\
  ((selectedIndex v < Z.of_nat (List.length (filteredCountries v)) - 1)%Z ->
   handleKeyDown ArrowUp (handleKeyDown ArrowDown v) = v).
Proof.
  intros Hs Hf Hi. split; [| split; [| split]].
  - now apply arrowDown_iter; try lia.
  - intros i Hrange.
    destruct (arrowDown_iter v (Z.to_nat (i - selectedIndex v)) Hs Hf)
      as (_ & _ & _ & ->); lia.
  - rewrite arrowUp_open by assumption. simpl.
    destruct (Z.ltb_spec 0 (selectedIndex v)); lia.
  - intros Hlt. rewrite (arrowDown_open v Hs Hf).
    rewrite arrowUp_open by assumption. simpl.
    destruct (Z.ltb_spec (selectedIndex v)
                (Z.of_nat (List.length (filteredCountries v)) - 1)); [| lia].
    destruct v as [p f i g]. simpl in *. f_equal.
    destruct (Z.ltb_spec 0 (i + 1)); lia.
Qed.

(** *** Guesses and targets come from the table *)

Local Abbreviation fromTable := (Screens.fromTable countries).
Local Abbreviation session := (Screens.session countries).

Lemma today_in_table today :
  countries <> [] -> (0 <= today)%Z ->
  exists target, getTodaysCountry countries today = Some target /\
                 In target countries.
Proof.
  intros Hne Ht. rewrite (PageFacts.getTodaysCountry_nth countries today Ht Hne).
  assert (Hlen : (0 < Z.of_nat (List.length countries))%Z).
  { destruct countries; [contradiction | simpl; lia]. }
  pose proof (Z.mod_pos_bound (today / 86400000) _ Hlen) as Hb.
  destruct (nth_error countries
              (Z.to_nat ((today / 86400000) mod Z.of_nat (List.length countries))))
    as [c |] eqn:E.
  - exists c. split; [reflexivity |]. eapply nth_error_In. exact E.
  - apply nth_error_None in E. lia.
Qed.

Lemma pick_in_table target draws random :
  Forall (fun d => (d < List.length countries)%nat) draws ->
  pickRandom countries target draws = Some random ->
  exists t, random = Some t /\ In t countries.
Proof.
  intros Hd H.
  destruct (TargetFacts.pickRandom_result countries _ _ _ H)
    as (draw & Hin & -> & _).
  rewrite Forall_forall in Hd. specialize (Hd draw Hin).
  destruct (nth_error countries draw) as [c |] eqn:E.
  - exists c. split; [reflexivity |]. eapply nth_error_In. exact E.
  - apply nth_error_None in E. lia.
Qed.

Lemma startNewRound_target mode today draws s s1 :
  countries <> [] -> (0 <= today)%Z ->
  Forall (fun d => (d < List.length countries)%nat) draws ->
  Page.startNewRound countries mode today draws s = Some s1 ->
  exists target, targetCountry s1 = Some target /\ In target countries.
Proof.
  intros Hne Ht Hd H. unfold Page.startNewRound in H.
  destruct mode as [[|] |], (gameMode s) as [[|] |]; cbv beta iota zeta in H;
    try (destruct (pickRandom countries (targetCountry s) draws)
           as [random |] eqn:E; [| discriminate]);
    injection H as <-; cbn [targetCountry];
    first [ now apply pick_in_table with (targetCountry s) draws
          | now apply today_in_table ].
Qed.

Lemma startGame_page mode rounds today draws v v1 :
  PageUI.startGame countries mode rounds today draws v = Some v1 ->
  Page.startGame countries mode rounds today draws (page v) = Some (page v1).
Proof.
  unfold PageUI.startGame.
  destruct (Page.startGame countries mode rounds today draws (page v));
    [| discriminate].
  intros H. now injection H as <-.
Qed.

Lemma nextRound_page today draws v v1 :
  PageUI.nextRound countries today draws v = Some v1 ->
  Page.nextRound countries today draws (page v) = Some (page v1).
Proof.
  unfold PageUI.nextRound.
  destruct (Page.nextRound countries today draws (page v)); [| discriminate].
  intros H. now injection H as <-.
Qed.

Lemma inputEffect_cells before s :
  gameScreen (Page.inputEffect before s) = gameScreen s /\
  gameMode (Page.inputEffect before s) = gameMode s /\
  totalRounds (Page.inputEffect before s) = totalRounds s /\
  currentRound (Page.inputEffect before s) = currentRound s /\
  roundResults (Page.inputEffect before s) = roundResults s /\
  targetCountry (Page.inputEffect before s) = targetCountry s /\
  guesses (Page.inputEffect before s) = guesses s /\
  roundOver (Page.inputEffect before s) = roundOver s.
Proof.
  unfold Page.inputEffect.
  destruct (String.eqb before (inputValue s)); now repeat split.
Qed.

Lemma skipRound_target s : targetCountry (skipRound s) = targetCountry s.
Proof.
  unfold skipRound. destruct (targetCountry s) eqn:E; [| exact E].
  now destruct (roundOver s).
Qed.

Lemma fromTable_frame s s' :
  guesses s' = guesses s -> targetCountry s' = targetCountry s ->
  fromTable s -> fromTable s'.
Proof. unfold Screens.fromTable. now intros -> ->. Qed.

Lemma fromTable_submitGuess sel s :
  (forall c, sel = Some c -> In c countries) ->
  fromTable s -> fromTable (Page.submitGuess toLowerCase countries sel s).
Proof.
  intros Hsel Hf.
  destruct (PageFacts.submitGuess_cases toLowerCase countries sel s)
    as [E | [(t & Hg & Htg & Hc) | [(t & g & Hg & Htg & Hc & Hin)
                                    | (t & g & Hg & Htg & Hc & Hin)]]].
  - now rewrite E.
  - rewrite (PageFacts.submitGuess_not_found _ _ _ _ _ Hg Htg Hc).
    now apply (fromTable_frame s).
  - rewrite (PageFacts.submitGuess_duplicate _ _ _ _ _ _ Hg Htg Hc Hin).
    now apply (fromTable_frame s).
  - rewrite (PageFacts.submitGuess_accepted _ _ _ _ _ _ Hg Htg Hc Hin).
    destruct Hf as [Hgs Ht]. split; [| exact Ht]. simpl.
    constructor; [| exact Hgs]. simpl.
    destruct sel as [c |].
    + simpl in Hc. injection Hc as <-. now apply Hsel.
    + now apply candidate_typed in Hc.
Qed.

Lemma fromTable_startNewRound mode today draws s s1 :
  countries <> [] -> (0 <= today)%Z ->
  Forall (fun d => (d < List.length countries)%nat) draws ->
  Page.startNewRound countries mode today draws s = Some s1 -> fromTable s1.
Proof.
  intros Hne Ht Hd H.
  destruct (startNewRound_target _ _ _ _ _ Hne Ht Hd H) as (t & Et & Hin).
  apply PageFacts.startNewRound_fresh in H. destruct H as (Eg & _).
  split.
  - rewrite Eg. constructor.
  - intros t' Et'. rewrite Et in Et'. now injection Et' as <-.
Qed.

Lemma fromTable_startGame mode rounds today draws s s1 :
  countries <> [] -> (0 <= today)%Z ->
  Forall (fun d => (d < List.length countries)%nat) draws ->
  Page.startGame countries mode rounds today draws s = Some s1 -> fromTable s1.
Proof.
  intros Hne Ht Hd. unfold Page.startGame.
  destruct (Page.startNewRound countries mode today draws s) as [s' |] eqn:E;
    [| discriminate].
  intros H. injection H as <-.
  now apply (fromTable_startNewRound _ _ _ _ _ Hne Ht Hd) in E.
Qed.

Lemma fromTable_nextRound today draws s s1 :
  countries <> [] -> (0 <= today)%Z ->
  Forall (fun d => (d < List.length countries)%nat) draws ->
  fromTable s ->
  Page.nextRound countries today draws s = Some s1 -> fromTable s1.
Proof.
  intros Hne Ht Hd Hf. unfold Page.nextRound.
  destruct (currentRound s <? totalRounds s)%Z.
  - destruct (Page.startNewRound countries None today draws s) as [s' |] eqn:E;
      [| discriminate].
    intros H. injection H as <-.
    now apply (fromTable_startNewRound _ _ _ _ _ Hne Ht Hd) in E.
  - intros H. injection H as <-. exact Hf.
Qed.

Lemma fromTable_handleKeyDown key v :
  selection v -> fromTable (page v) -> fromTable (page (handleKeyDown key v)).
Proof.
  intros Hs Hf. unfold PageUI.handleKeyDown.
  destruct (negb (showSuggestions (page v))
            || (List.length (filteredCountries v) =? 0)%nat); [exact Hf |].
  destruct key; try exact Hf.
  destruct (0 <=? selectedIndex v)%Z; [| exact Hf].
  simpl. apply fromTable_submitGuess; [| exact Hf].
  intros c Ec. apply array_get_In in Ec. now apply (filtered_suggested v).
Qed.

Lemma fromTable_handler e v v1 :
  countries <> [] -> plausible countries e -> selection v ->
  fromTable (page v) -> handler e v = Some v1 -> fromTable (page v1).
Proof.
  intros Hne Hp Hs Hf H. destruct e; simpl in H, Hp.
  - injection H as <-. exact Hf.
  - apply startGame_page in H.
    now apply (fromTable_startGame _ _ _ _ _ _ Hne Hp (Forall_nil _)) in H.
  - injection H as <-. exact Hf.
  - injection H as <-. exact Hf.
  - apply startGame_page in H. destruct Hp as [Ht Hd].
    now apply (fromTable_startGame _ _ _ _ _ _ Hne Ht Hd) in H.
  - apply startGame_page in H. destruct Hp as [Ht Hd].
    now apply (fromTable_startGame _ _ _ _ _ _ Hne Ht Hd) in H.
  - injection H as <-. destruct Hf as [Hgs _]. split; [exact Hgs |].
    simpl. discriminate.
  - apply nextRound_page in H. destruct Hp as [Ht Hd].
    now apply (fromTable_nextRound _ _ _ _ Hne Ht Hd Hf) in H.
  - injection H as <-. simpl.
    apply (fromTable_frame (page v));
      [apply skipRound_guesses | apply skipRound_target | exact Hf].
  - injection H as <-. simpl. apply fromTable_submitGuess; [| exact Hf].
    intros c Ec. apply (filtered_suggested v); [exact Hs |].
    apply firstn_In with 8%nat. now apply nth_error_In with index.
  - injection H as <-. simpl. apply fromTable_submitGuess; [| exact Hf].
    discriminate.
  - injection H as <-. exact Hf.
  - injection H as <-.
    now destruct (String.length (inputValue (page v)) =? 0)%nat.
  - injection H as <-. now apply fromTable_handleKeyDown.
  - injection H as <-. exact Hf.
Qed.

(** *** The counters of a session *)

Lemma session_frame s s' :
  gameScreen s' = gameScreen s -> gameMode s' = gameMode s ->
  totalRounds s' = totalRounds s -> currentRound s' = currentRound s ->
  roundResults s' = roundResults s -> roundOver s' = roundOver s ->
  targetCountry s' = targetCountry s ->
  session s -> session s'.
Proof. unfold Screens.session. now intros -> -> -> -> -> -> ->. Qed.

Lemma session_submitGuess sel s :
  session s -> session (Page.submitGuess toLowerCase countries sel s).
Proof.
  intros Hs.
  destruct (PageFacts.submitGuess_cases toLowerCase countries sel s)
    as [E | [(t & Hg & Htg & Hc) | [(t & g & Hg & Htg & Hc & Hin)
                                    | (t & g & Hg & Htg & Hc & Hin)]]].
  - now rewrite E.
  - rewrite (PageFacts.submitGuess_not_found _ _ _ _ _ Hg Htg Hc).
    now apply (session_frame s).
  - rewrite (PageFacts.submitGuess_duplicate _ _ _ _ _ _ Hg Htg Hc Hin).
    now apply (session_frame s).
  - rewrite (PageFacts.submitGuess_accepted _ _ _ _ _ _ Hg Htg Hc Hin).
    unfold Screens.session in *. simpl.
    destruct Hs as [Ht Hs]. split; [exact Ht |].
    destruct (gameScreen s); try exact I.
    + rewrite Hg in Hs. destruct Hs as (H1 & H2 & H3 & H4).
      split; [exact H1 |]. split; [| now split].
      destruct (String.eqb (Country.code g) (Country.code t)).
      * rewrite length_app. simpl. lia.
      * exact H2.
    + destruct Hs as (_ & _ & _ & Ho). congruence.
Qed.

Lemma session_skipRound s : session s -> session (skipRound s).
Proof.
  intros Hs. destruct (targetCountry s) as [t |] eqn:Et;
    [| now rewrite PageFacts.skipRound_no_target].
  destruct (roundOver s) eqn:Ho; [now rewrite PageFacts.skipRound_roundOver |].
  rewrite (PageFacts.skipRound_in_progress s t Et Ho).
  unfold Screens.session in *. simpl.
  destruct Hs as [Ht Hs]. split; [exact Ht |].
  destruct (gameScreen s); try exact I.
  - rewrite Ho in Hs. destruct Hs as (H1 & H2 & H3 & H4).
    split; [exact H1 |]. split; [| now split].
    rewrite length_app. simpl. lia.
  - destruct Hs as (_ & _ & _ & Ho'). congruence.
Qed.

Lemma session_startGame mode rounds today draws s s1 :
  countries <> [] -> (0 <= today)%Z ->
  Forall (fun d => (d < List.length countries)%nat) draws ->
  (1 <= rounds)%Z ->
  (exists m, mode = Some m /\ (m = daily -> rounds = 1%Z)) ->
  Page.startGame countries mode rounds today draws s = Some s1 -> session s1.
Proof.
  intros Hne Ht Hd Hr Hm. unfold Page.startGame.
  destruct (Page.startNewRound countries mode today draws s) as [s' |] eqn:E;
    [| discriminate].
  intros H. injection H as <-.
  destruct (startNewRound_target _ _ _ _ _ Hne Ht Hd E) as (t & Et & Hin).
  apply PageFacts.startNewRound_fresh in E. destruct E as (_ & Eo & _).
  unfold Screens.session. simpl. rewrite Eo. split; [exact Hr |].
  split; [lia |]. split; [reflexivity |]. split; [exact Hm |]. now exists t.
Qed.

Lemma session_nextRound today draws s s1 :
  countries <> [] -> (0 <= today)%Z ->
  Forall (fun d => (d < List.length countries)%nat) draws ->
  session s -> gameScreen s = playing -> roundOver s = true ->
  gameMode s = Some practice ->
  Page.nextRound countries today draws s = Some s1 -> session s1.
Proof.
  intros Hne Ht Hd Hs Hscr Ho Hm. unfold Page.nextRound.
  unfold Screens.session in Hs. rewrite Hscr, Ho in Hs.
  destruct Hs as (H0 & H1 & H2 & H3 & H4).
  destruct (Z.ltb_spec (currentRound s) (totalRounds s)) as [Hlt | Hge].
  - destruct (Page.startNewRound countries None today draws s) as [s' |] eqn:E;
      [| discriminate].
    intros H. injection H as <-.
    destruct (startNewRound_target _ _ _ _ _ Hne Ht Hd E) as (t & Et & Hin).
    destruct (startNewRound_cells _ _ _ _ _ E) as (_ & _ & E1 & E2 & E3 & E4).
    apply PageFacts.startNewRound_fresh in E. destruct E as (_ & Eo & _ & Er).
    unfold Screens.session. simpl. rewrite E1, E2, E3, Eo, Er, Hscr.
    split; [exact H0 |]. split; [lia |]. split; [lia |].
    split; [exact H3 | now exists t].
  - intros H. injection H as <-. unfold Screens.session. simpl.
    split; [exact H0 |]. rewrite Ho. repeat split; try lia. exact Hm.
Qed.

Lemma session_handleKeyDown key v :
  session (page v) -> session (page (handleKeyDown key v)).
Proof.
  intros Hs. unfold PageUI.handleKeyDown.
  destruct (negb (showSuggestions (page v))
            || (List.length (filteredCountries v) =? 0)%nat); [exact Hs |].
  destruct key; try exact Hs.
  destruct (0 <=? selectedIndex v)%Z; [| exact Hs].
  simpl. now apply session_submitGuess.
Qed.

Lemma rendered_screen e v :
  rendered e v = true ->
  match e with
  | ClickPractice | ClickDaily _ => gameScreen (page v) = home
  | ClickBack | ClickStart _ _ => gameScreen (page v) = setup
  | ClickRounds num => gameScreen (page v) = setup /\ (1 <= num)%Z
  | ClickPlayAgain _ _ => gameScreen (page v) = results
  | ClickNext _ _ =>
    gameScreen (page v) = playing /\ roundOver (page v) = true /\
    gameMode (page v) = Some practice
  | _ => True
  end.
Proof.
  unfold rendered.
  destruct e; try exact (fun _ => I);
    destruct (gameScreen (page v)); try discriminate; try reflexivity.
  - intros H. split; [reflexivity |]. simpl in H.
    destruct (Z.eqb_spec num 3), (Z.eqb_spec num 5), (Z.eqb_spec num 10);
      try discriminate; lia.
  - intros H. apply andb_true_iff in H. destruct H as [Ho Hm].
    split; [reflexivity |]. split; [exact Ho |].
    now destruct (gameMode (page v)) as [[|] |].
Qed.

Lemma session_handler e v v1 :
  countries <> [] -> plausible countries e -> rendered e v = true ->
  session (page v) -> handler e v = Some v1 -> session (page v1).
Proof.
  intros Hne Hp Hren Hs H. apply rendered_screen in Hren.
  pose proof Hs as [Ht Hscreen].
  destruct e; simpl in H, Hp.
  - injection H as <-. unfold Screens.session. simpl. now split.
  - apply startGame_page in H.
    apply (session_startGame _ _ _ _ _ _ Hne Hp (Forall_nil _)) in H;
      [exact H | lia |].
    exists daily. now split.
  - injection H as <-. unfold Screens.session. simpl. now split.
  - injection H as <-. destruct Hren as [Hscr Hnum].
    unfold Screens.session. simpl. rewrite Hscr. now split.
  - apply startGame_page in H. destruct Hp as [Htd Hd].
    apply (session_startGame _ _ _ _ _ _ Hne Htd Hd) in H; [exact H | exact Ht |].
    exists practice. split; [reflexivity | discriminate].
  - apply startGame_page in H. destruct Hp as [Htd Hd].
    rewrite Hren in Hscreen. destruct Hscreen as (_ & _ & Hm & _).
    apply (session_startGame _ _ _ _ _ _ Hne Htd Hd) in H; [exact H | exact Ht |].
    exists practice. split; [exact Hm | discriminate].
  - injection H as <-. unfold Screens.session. simpl. now split.
  - apply nextRound_page in H. destruct Hp as [Htd Hd].
    destruct Hren as (Hscr & Ho & Hm).
    now apply (session_nextRound _ _ _ _ Hne Htd Hd Hs Hscr Ho Hm) in H.
  - injection H as <-. simpl. now apply session_skipRound.
  - injection H as <-. simpl. now apply session_submitGuess.
  - injection H as <-. simpl. now apply session_submitGuess.
  - injection H as <-. simpl. now apply (session_frame (page v)).
  - injection H as <-.
    destruct (String.length (inputValue (page v)) =? 0)%nat; [exact Hs |].
    simpl. now apply (session_frame (page v)).
  - injection H as <-. now apply session_handleKeyDown.
  - injection H as <-. simpl. now apply (session_frame (page v)).
Qed.

Lemma reachable_session v :
  countries <> [] -> reachable v -> session (page v) /\ fromTable (page v).
Proof.
  intros Hne. induction 1 as [| e v v' Hr [IHs IHf] Hp Hs].
  - split.
    + unfold Screens.session. simpl. split; [lia | exact I].
    + split; [constructor | discriminate].
  - pose proof (reachable_selection v Hr) as Hsel.
    apply step_inv in Hs. destruct Hs as (Hren & v1 & Hh & ->).
    destruct (page_inputEffect (inputValue (page v)) v1) as [-> _].
    destruct (inputEffect_cells (inputValue (page v)) (page v1))
      as (E1 & E2 & E3 & E4 & E5 & E6 & E7 & E8).
    split.
    + apply (session_frame (page v1)); auto.
      now apply (session_handler e v).
    + apply (fromTable_frame (page v1)); auto.
      now apply (fromTable_handler e v).
Qed.

(** The counters of a session, on a table that is not empty: the number
    of rounds is one or more; while a round is played the round number is
    between 1 and that number, the summaries recorded are those of the
    rounds before it and its own once it is over, a mode is set, the daily
    game has one round, and the target is an entry of the table; the
    results screen is that of a practice session and shows as many
    summaries as the session has rounds, so that the rounds won are no more
    than the rounds. *)
Theorem session_counters (v : View) :
  countries <> [] -> reachable v ->
  (1 <= totalRounds (page v))%Z /\
  (gameScreen (page v) = playing ->
   (1 <= currentRound (page v) <= totalRounds (page v))%Z /\
   Z.of_nat (List.length (roundResults (page v))) =
     (currentRound (page v) - (if roundOver (page v) then 0 else 1))%Z /\
   gameMode (page v) <> None /\
   (gameMode (page v) = Some daily -> totalRounds (page v) = 1%Z) /\
   exists target, targetCountry (page v) = Some target /\ In target countries) /\
  (gameScreen (page v) = results ->
   gameMode (page v) = Some practice /\
   Z.of_nat (List.length (roundResults (page v))) = totalRounds (page v) /\
   (Z.of_nat (wonRounds (roundResults (page v))) <= totalRounds (page v))%Z).
Proof.
  intros Hne Hr. destruct (reachable_session v Hne Hr) as [[Ht Hs] _].
  split; [exact Ht |]. split.
  - intros E. rewrite E in Hs. destruct Hs as (H1 & H2 & (m & Hm & Hd) & H4).
    split; [exact H1 |]. split; [exact H2 |]. split; [congruence |].
    split; [| exact H4]. intros Em. apply Hd. congruence.
  - intros E. rewrite E in Hs. destruct Hs as (H1 & _ & H3 & _).
    split; [exact H3 |]. split; [exact H1 |].
    rewrite <- H1. unfold wonRounds.
    pose proof (filter_length_le RoundResult.won (roundResults (page v))). lia.
Qed.

(** With play through the screens, on a table that is not empty, every
    guess is a guess of an entry of the table and so is the target; when
    the codes of the table are pairwise distinct, the latest guess of a
    round that is won is the target itself, at distance 0. *)
Theorem winning_guess_is_target (v : View) :
  countries <> [] -> reachable v ->
  Forall (fun g => In (Guess.country g) countries) (guesses (page v)) /\
  (forall target, targetCountry (page v) = Some target -> In target countries) /\
  (NoDup (map Country.code countries) ->
   forall target, targetCountry (page v) = Some target -> win (page v) = true ->
     exists rest,
       guesses (page v) =
         {| Guess.country := target; Guess.distance := 0 |} :: rest).
Proof.
  intros Hne Hr. destruct (reachable_session v Hne Hr) as [_ [Hgs Htg]].
  split; [exact Hgs |]. split; [exact Htg |].
  intros Hnd target Et Hw.
  pose proof (PageRounds.reachable_pageRound toLowerCase countries (page v)
                (reachable_page v Hr)) as [_ Hround].
  destruct (Hround target Et) as (_ & Hwon & Hdist & _).
  destruct (Hwon Hw) as (g & rest & Eg & Ec).
  exists rest. rewrite Eg in Hgs, Hdist |- *.
  inversion Hgs as [| ? ? Hin _]; subst.
  inversion Hdist as [| ? ? Hd _]; subst.
  assert (Eq : Guess.country g = target).
  { apply (code_unique countries); auto. }
  destruct g as [c d]. simpl in *. subst c. rewrite Hd.
  unfold distanceTo. now rewrite UtilsFacts.getDistance_same.
Qed.

End Facts.



(** *** On the table of the examples *)

Lemma typedAn_reachable :
  PageUI.reachable ascii_toLowerCase Sample.table Played.typedAn.
Proof.
  apply (reachable_run ascii_toLowerCase Sample.table Played.typing PageUI.initial).
  - apply reach_initial.
  - repeat constructor; simpl; lia.
  - reflexivity.
Qed.

Lemma wonFrance_reachable :
  PageUI.reachable ascii_toLowerCase Sample.table Played.wonFrance.
Proof.
  apply (reachable_run ascii_toLowerCase Sample.table Played.entering PageUI.initial).
  - apply reach_initial.
  - repeat constructor; simpl; lia.
  - reflexivity.
Qed.

Lemma table_not_empty : Sample.table <> [].
Proof. discriminate. Qed.

Lemma screens_refine_page_witness :
  Page.reachable ascii_toLowerCase Sample.table (page Played.wonFrance).
Proof.
  apply (screens_refine_page ascii_toLowerCase Sample.table Played.wonFrance
           wonFrance_reachable).
Defined.

Lemma globePoints_mirror_guesses_witness :
  globePoints Played.wonFrance =
  rev (map pointOf (guesses (page Played.wonFrance))).
Proof.
  apply (proj1 (globePoints_mirror_guesses ascii_toLowerCase Sample.table
                  Played.wonFrance wonFrance_reachable)).
Defined.

Lemma selected_is_suggested_witness :
  filteredCountries Played.typedAn =
  PageUI.suggestions ascii_toLowerCase Sample.table "an".
Proof.
  apply (proj1 (selected_is_suggested ascii_toLowerCase Sample.table
                  Played.typedAn typedAn_reachable)).
Defined.

Lemma typed_guess_is_suggested_witness :
  In Sample.france (PageUI.suggestions ascii_toLowerCase Sample.table "FRANCE").
Proof.
  apply (proj1 (typed_guess_is_suggested ascii_toLowerCase Sample.table
                  "FRANCE" Sample.france eq_refl)).
Defined.

Lemma arrow_keys_witness :
  selectedIndex
    (Nat.iter 5 (PageUI.handleKeyDown ascii_toLowerCase Sample.table ArrowDown)
       Played.typedAn) = 2%Z.
Proof.
  apply (proj1 (arrow_keys ascii_toLowerCase Sample.table Played.typedAn 5
                  eq_refl ltac:(discriminate) ltac:(simpl; lia))).
Defined.

Lemma session_counters_witness :
  (1 <= totalRounds (page Played.wonFrance))%Z.
Proof.
  apply (proj1 (session_counters ascii_toLowerCase Sample.table Played.wonFrance
                  table_not_empty wonFrance_reachable)).
Defined.

Lemma winning_guess_is_target_witness :
  Forall (fun g => In (Guess.country g) Sample.table)
         (guesses (page Played.wonFrance)).
Proof.
  apply (proj1 (winning_guess_is_target ascii_toLowerCase Sample.table
                  Played.wonFrance table_not_empty wonFrance_reachable)).
Defined.

End PageUIFacts.

(** ** The globe of the single-round page *)

Module Part001Facts.
Import Part000 Part001.

Section Facts.

Variable toLowerCase : string -> string.
Variable countries : list Country.t.

Local Abbreviation reachable := (Part001.reachable toLowerCase countries).
Local Abbreviation handler := (Part001.handler toLowerCase countries).
Local Abbreviation handle := (Part001.handle toLowerCase countries).
Local Abbreviation submitGuess := (Part001.submitGuess toLowerCase countries).

(** Whatever the page with the globe does, its game is a game of the page
    without it. *)
Lemma game_submitGuess sel v :
  game (submitGuess sel v) =
  Part000.submitGuess toLowerCase countries sel (game v).
Proof.
  unfold Part001.submitGuess, Part000.submitGuess.
  destruct (gameOver (game v)); [reflexivity |].
  destruct (targetCountry (game v)); [| reflexivity].
  destruct (candidate toLowerCase countries sel (inputValue (game v)));
    [| reflexivity].
  now destruct (existsb _ (guesses (game v))).
Qed.

Lemma game_handler e v :
  game (handler e v) = Part000.handler toLowerCase countries e (game v).
Proof. destruct e; try reflexivity. apply game_submitGuess. Qed.

Lemma game_handle e v :
  game (handle e v) = Part000.handle toLowerCase countries e (game v).
Proof.
  unfold Part001.handle, Part000.handle. simpl. now rewrite game_handler.
Qed.

Lemma reachable_game v :
  reachable v -> Part000.reachable toLowerCase countries (game v).
Proof.
  induction 1 as [| e v Hr IH].
  - apply Part000.reach_initial.
  - rewrite game_handle. now apply Part000.reach_step.
Qed.

Lemma drawn_frame v v' :
  guesses (game v') = guesses (game v) ->
  targetCountry (game v') = targetCountry (game v) ->
  globePoints v' = globePoints v -> arcs v' = arcs v ->
  drawn v -> drawn v'.
Proof. unfold drawn. now intros -> -> -> ->. Qed.

Lemma drawn_submitGuess sel v : drawn v -> drawn (submitGuess sel v).
Proof.
  intros Hd. pose proof (game_submitGuess sel v) as Eg.
  unfold Part001.submitGuess in *.
  destruct (gameOver (game v)) eqn:Ho; [exact Hd |].
  destruct (targetCountry (game v)) as [t |] eqn:Et; [| exact Hd].
  destruct (candidate toLowerCase countries sel (inputValue (game v)))
    as [g |] eqn:Ec.
  - destruct (existsb _ (guesses (game v))) eqn:Ex.
    + apply (drawn_frame v); try reflexivity; [| | exact Hd];
        simpl; unfold Part000.submitGuess; now rewrite Ho, Et, Ec, Ex.
    + apply (Part000Facts.some_code_not_In_000 g (guesses (game v))) in Ex.
      destruct Hd as [Hp Ha]. rewrite Et in Ha.
      unfold drawn. simpl.
      rewrite (Part000Facts.submitGuess_accepted_000 _ _ _ _ _ _ Ho Et Ec Ex).
      simpl. rewrite Et. split.
      * now rewrite Hp.
      * now rewrite Ha.
  - apply (drawn_frame v); try reflexivity; [| | exact Hd];
      simpl; unfold Part000.submitGuess; now rewrite Ho, Et, Ec.
Qed.

Lemma drawn_handler e v : drawn v -> drawn (handler e v).
Proof.
  intros Hd. destruct e.
  - unfold drawn. simpl. split; [reflexivity |].
    now destruct (nth_error countries draw).
  - now apply drawn_submitGuess.
  - now apply (drawn_frame v).
  - now apply (drawn_frame v).
  - now apply (drawn_frame v).
  - now apply (drawn_frame v).
Qed.

Lemma drawn_handle e v : drawn v -> drawn (handle e v).
Proof.
  intros Hd. apply (drawn_frame (handler e v)); try reflexivity.
  - simpl. unfold Part000.inputEffect.
    now destruct (String.eqb (inputValue (game v)) (inputValue (game (handler e v)))).
  - simpl. unfold Part000.inputEffect.
    now destruct (String.eqb (inputValue (game v)) (inputValue (game (handler e v)))).
  - now apply drawn_handler.
Qed.

Lemma reachable_drawn v : reachable v -> drawn v.
Proof.
  induction 1 as [| e v Hr IH].
  - unfold drawn. simpl. now repeat split.
  - now apply drawn_handle.
Qed.

(** On the page with the globe, the game is a game of the single-round
    page, and the globe shows one point and one arc per guess, oldest
    first: every arc starts at the guessed country, ends at the target of
    the game and has the point colour of the guess's distance at both ends;
    a new game clears both layers. *)
Theorem arcs_end_at_target (v : View) :
  reachable v ->
  Part000.reachable toLowerCase countries (game v) /\
  globePoints v = rev (map pointOf (guesses (game v))) /\
  List.length (arcs v) = List.length (guesses (game v)) /\
  (forall target, targetCountry (game v) = Some target ->
     arcs v = rev (map (arcOf target) (guesses (game v))) /\
     Forall (fun a =>
               Arc.endLat a = Country.latitude target /\
               Arc.endLng a = Country.longitude target /\
               exists g, In g (guesses (game v)) /\
                 Arc.startLat a = Country.latitude (Guess.country g) /\
                 Arc.startLng a = Country.longitude (Guess.country g) /\
                 Arc.color a = (getPointColor (Guess.distance g),
                                getPointColor (Guess.distance g)))
            (arcs v)).
Proof.
  intros Hr. split; [now apply reachable_game |].
  destruct (reachable_drawn v Hr) as [Hp Ha]. split; [exact Hp |]. split.
  - destruct (targetCountry (game v)) as [t |].
    + now rewrite Ha, length_rev, length_map.
    + destruct Ha as [-> ->]. reflexivity.
  - intros target Et. rewrite Et in Ha. split; [exact Ha |].
    rewrite Ha. apply Forall_forall. intros a Hin.
    apply in_rev in Hin. apply in_map_iff in Hin. destruct Hin as [g [<- Hin]].
    simpl. repeat split. now exists g.
Qed.

End Facts.

Lemma arcs_end_at_target_witness :
  List.length
    (arcs (Part001.handle ascii_toLowerCase Sample.table
             (Submit (Some Sample.germany))
             (Part001.handle ascii_toLowerCase Sample.table (StartNewGame 0)
                Part001.initial))) = 1%nat.
Proof.
  apply (proj1 (proj2 (proj2
    (arcs_end_at_target ascii_toLowerCase Sample.table _
       (Part001.reach_step _ _ (Submit (Some Sample.germany)) _
          (Part001.reach_step _ _ (StartNewGame 0) _
             (Part001.reach_initial _ _))))))).
Defined.

End Part001Facts.
